(** * Travelling Ethiopia: graph model and search algorithms

    A shallow embedding of [graph.py], [bfs_dfs.py], [ucs.py], [astar.py]
    and [minimax.py], together with the properties of the search
    algorithms stated over it.

    Conventions.
    - A node is a Python [str]: [string].
    - A Python [dict] keyed by nodes is a [gmap string _]; only lookups,
      membership tests and stores are used by the code that is modelled.
    - Edge costs and utilities, annotated [float] and [int] in the source,
      are the integers of the data set: [Z].
    - A [while] loop whose termination is not structural takes a [fuel]
      argument and returns [None] when it runs out; the theorems show how
      much fuel is enough. *)

From stdpp Require Import gmap strings list fin_maps.
From Stdlib Require Import ZArith Lia.

Set Warnings "-clear-no-such-hyp,-register-all".

Local Open Scope string_scope.
Local Open Scope Z_scope.
Local Open Scope list_scope.

(** ** graph.py *)

(** [class Graph]: the adjacency list of the unweighted graph. *)
Record Graph := mkGraph {
  adjacency_list : gmap string (list string)
}.

(** [class WeightedGraph(Graph)]: the inherited adjacency list and the
    list of [(neighbor, cost)] pairs of every node. *)
Record WeightedGraph := mkWeightedGraph {
  base : Graph;
  weighted_adjacency : gmap string (list (string * Z))
}.

Definition empty_graph : Graph := mkGraph ∅.
Definition empty_weighted_graph : WeightedGraph := mkWeightedGraph empty_graph ∅.

(** [Graph.add_node]. *)
Definition add_node (node : string) (g : Graph) : Graph :=
  match adjacency_list g !! node with
  | Some _ => g
  | None => mkGraph (<[node := []]> (adjacency_list g))
  end.

(** [Graph.get_neighbors]: [adjacency_list.get(node, [])]. *)
Definition get_neighbors (g : Graph) (node : string) : list string :=
  default [] (adjacency_list g !! node).

(** The statement [if y not in adjacency_list[x]: adjacency_list[x].append(y)]
    of [add_edge], which reaches it with [x] a key of the adjacency. *)
Definition link (x y : string) (g : Graph) : Graph :=
  if bool_decide (y ∈ get_neighbors g x) then g
  else mkGraph (<[x := get_neighbors g x ++ [y]]> (adjacency_list g)).

(** [Graph.add_edge]. *)
Definition add_edge (node1 node2 : string) (g : Graph) : Graph :=
  link node2 node1 (link node1 node2 (add_node node2 (add_node node1 g))).

(** [WeightedGraph.get_weighted_neighbors]. *)
Definition get_weighted_neighbors (g : WeightedGraph) (node : string)
  : list (string * Z) :=
  default [] (weighted_adjacency g !! node).

(** [any(neighbor == node for neighbor, _ in l)]. *)
Definition any_neighbor (node : string) (l : list (string * Z)) : bool :=
  existsb (λ p, bool_decide (p.1 = node)) l.

(** [if node not in weighted_adjacency: weighted_adjacency[node] = []]. *)
Definition init_weighted (node : string) (wa : gmap string (list (string * Z)))
  : gmap string (list (string * Z)) :=
  match wa !! node with
  | Some _ => wa
  | None => <[node := []]> wa
  end.

(** [if not any(...): weighted_adjacency[x].append((y, cost))], reached
    with [x] a key of the weighted adjacency. *)
Definition link_weighted (x y : string) (cost : Z)
    (wa : gmap string (list (string * Z))) : gmap string (list (string * Z)) :=
  let l := default [] (wa !! x) in
  if any_neighbor y l then wa else <[x := l ++ [(y, cost)]]> wa.

(** [WeightedGraph.add_weighted_edge]. *)
Definition add_weighted_edge (node1 node2 : string) (cost : Z)
    (g : WeightedGraph) : WeightedGraph :=
  mkWeightedGraph
    (add_edge node1 node2 (base g))
    (link_weighted node2 node1 cost
       (link_weighted node1 node2 cost
          (init_weighted node2 (init_weighted node1 (weighted_adjacency g))))).

(** [WeightedGraph.get_cost]. *)
Definition get_cost (g : WeightedGraph) (node1 node2 : string) : option Z :=
  snd <$> List.find (λ p, bool_decide (p.1 = node2)) (get_weighted_neighbors g node1).

(** A weighted graph obtained from the empty one by calls of
    [add_weighted_edge] only. *)
Inductive built : WeightedGraph → Prop :=
  | built_empty : built empty_weighted_graph
  | built_add g a b c : built g → built (add_weighted_edge a b c g).

(** The list stored for [x] in a weighted adjacency, [[]] when absent. *)
Definition nbrs (wa : gmap string (list (string * Z))) (x : string)
  : list (string * Z) := default [] (wa !! x).

(** The two invariants of the weighted adjacency. *)
Definition symmetric_costs (g : WeightedGraph) : Prop :=
  ∀ a b c, (b, c) ∈ get_weighted_neighbors g a ↔ (a, c) ∈ get_weighted_neighbors g b.

Definition simple_lists (g : WeightedGraph) : Prop :=
  ∀ a, NoDup (get_weighted_neighbors g a).*1.

(** [add_node], inherited from [Graph], called on a weighted graph: it
    touches the unweighted adjacency only. *)
Definition weighted_add_node (node : string) (g : WeightedGraph) : WeightedGraph :=
  mkWeightedGraph (add_node node (base g)) (weighted_adjacency g).

(** [g = WeightedGraph(); g.add_node("X")]. *)
Definition lone_node : WeightedGraph := weighted_add_node "X" empty_weighted_graph.

(** A small weighted graph: a triangle whose direct edge from A to C costs
    more than the way round through B, and a node D joined to itself only. *)
Definition triangle : WeightedGraph :=
  add_weighted_edge "D" "D" 0
    (add_weighted_edge "A" "C" 5
       (add_weighted_edge "B" "C" 1
          (add_weighted_edge "A" "B" 1 empty_weighted_graph))).

(** A fork: A and B both lie one edge of cost 1 from S. *)
Definition fork : WeightedGraph :=
  add_weighted_edge "S" "B" 1
    (add_weighted_edge "S" "A" 1 empty_weighted_graph).

(** A line: S, then A at cost 1, then B at cost 2 more. *)
Definition line : WeightedGraph :=
  add_weighted_edge "A" "B" 2
    (add_weighted_edge "S" "A" 1 empty_weighted_graph).

(** ** minimax.py *)

Module minimax.

(** [class PlayerType(Enum)]. *)
Inductive PlayerType := MAX | MIN.

(** [class GameNode]: [is_terminal] is [utility is not None]. *)
Inductive GameNode := mkGameNode {
  name : string;
  player : PlayerType;
  children : list GameNode;
  utility : option Z
}.

Definition is_terminal (node : GameNode) : bool :=
  match utility node with Some _ => true | None => false end.

(** The values [_minimax] returns: an integer utility, or one of the floats
    [float('-inf')] and [float('inf')] a node starts its loop with. *)
Inductive value := NegInf | Fin (z : Z) | PosInf.

#[global] Instance value_eq_dec : EqDecision value.
Proof. solve_decision. Defined.

(** Python's [a < b] on these values. *)
Definition value_ltb (a b : value) : bool :=
  match a, b with
  | NegInf, NegInf => false
  | NegInf, _ => true
  | Fin _, NegInf => false
  | Fin x, Fin y => bool_decide (x < y)
  | Fin _, PosInf => true
  | PosInf, _ => false
  end.

(** [class MiniMaxResult]; the rendered [decision_tree] string is display
    only and is left out. *)
Record MiniMaxResult := mkMiniMaxResult {
  best_value : value;
  best_path : list string
}.

Module MiniMax.

(** One turn of the loop of a MAX node: [if value > best_value: ...]. *)
Definition max_step (best r : value * list string) : value * list string :=
  if value_ltb best.1 r.1 then r else best.

(** One turn of the loop of a MIN node: [if value < best_value: ...]. *)
Definition min_step (best r : value * list string) : value * list string :=
  if value_ltb r.1 best.1 then r else best.

(** [MiniMax._minimax]. The test [node.is_terminal] is the match on the
    utility. The counter [nodes_evaluated] and the trace printed under
    [verbose] are instrumentation, and [depth] only indents the trace: the
    three are left out. *)
Fixpoint _minimax (node : GameNode) (path : list string) : value * list string :=
  let current_path := path ++ [name node] in
  match utility node with
  | Some u => (Fin u, current_path)
  | None =>
      match player node with
      | MAX =>
          fold_left (λ best child, max_step best (_minimax child current_path))
            (children node) (NegInf, current_path)
      | MIN =>
          fold_left (λ best child, min_step best (_minimax child current_path))
            (children node) (PosInf, current_path)
      end
  end.

(** [MiniMax.search]. *)
Definition search (root : GameNode) : MiniMaxResult :=
  let '(best_value, best_path) := _minimax root [] in
  mkMiniMaxResult best_value best_path.

End MiniMax.

(** *** Backward induction, as the specification words it *)

(** The greater of two values under the strict order [ltb], the first one
    on a tie; a loop turn that keeps the better of two results. *)
Definition pick (ltb : value → value → bool) (a b : value) : value :=
  if ltb a b then b else a.

Definition best_step (ltb : value → value → bool)
    (best r : value * list string) : value * list string :=
  if ltb best.1 r.1 then r else best.

Definition value_gtb (a b : value) : bool := value_ltb b a.

Definition value_max : value → value → value := pick value_ltb.
Definition value_min : value → value → value := pick value_gtb.

(** The value of a node: its utility at a terminal node, the maximum of the
    values of the children at a MAX node, their minimum at a MIN node. *)
Fixpoint backward_induction (node : GameNode) : value :=
  match utility node with
  | Some u => Fin u
  | None =>
      match player node with
      | MAX => foldr value_max NegInf (map backward_induction (children node))
      | MIN => foldr value_min PosInf (map backward_induction (children node))
      end
  end.

(** Every node without a utility has a child, all the way down: the leaves
    of the tree are its terminal nodes. *)
Fixpoint leaves_terminal (node : GameNode) : bool :=
  match utility node with
  | Some _ => true
  | None =>
      match children node with
      | [] => false
      | cs => forallb leaves_terminal cs
      end
  end.

(** The first child, in declared order, whose value is [v]. *)
Definition first_with_value (v : value) (cs : list GameNode) : option GameNode :=
  List.find (λ c, bool_decide (backward_induction c = v)) cs.

(** The tree of [create_ethiopia_adversarial_game]. *)
Definition leaf (n : string) (u : Z) : GameNode := mkGameNode n MAX [] (Some u).

Definition ethiopia_adversarial_game : GameNode :=
  mkGameNode "Addis Ababa" MAX [
    mkGameNode "Gedo" MAX [
      mkGameNode "Nekemete" MIN [leaf "Shambu" 4; leaf "Fincha" 5] None;
      mkGameNode "Gimbi-Limu" MIN [leaf "Gimbi" 8; leaf "Limu" 8] None
    ] None;
    mkGameNode "Ambo" MAX [
      mkGameNode "Buta Jirra" MIN [
        mkGameNode "Worabe" MAX [leaf "Hossana" 6; leaf "Durame" 5] None;
        mkGameNode "Wolkite" MAX
          [leaf "Bench Naji" 5; leaf "Tepi" 6; leaf "Kaffa" 7] None
      ] None
    ] None;
    mkGameNode "Adama" MIN [
      mkGameNode "Mojo" MAX [leaf "Dilla" 9] None;
      mkGameNode "Diredawa" MIN [leaf "Chiro" 6; leaf "Harar" 10] None
    ] None
  ] None.

End minimax.

(** ** bfs_dfs.py *)

Module bfs_dfs.

(** [class SearchResult]: [path or []] and [success]; the class has no
    cost attribute. *)
Record SearchResult := mkSearchResult {
  path : list string;
  success : bool
}.

(** The attributes [SearchResult.__init__] sets, by name: reading any other
    attribute of the object fails. *)
Inductive attribute := PathAttr (p : list string) | BoolAttr (b : bool) | CostAttr (c : Z).

Definition getattr (r : SearchResult) (a : string) : option attribute :=
  if bool_decide (a = "path") then Some (PathAttr (path r))
  else if bool_decide (a = "success") then Some (BoolAttr (success r))
  else None.

(** What [strategy] selects, or the [ValueError] raised for another name. *)
Inductive outcome :=
  | Return (r : SearchResult)
  | RaiseValueError.

Module TravelEthiopiaSearch.

(** The [for] loop of [_breadth_first_search] over the neighbours of the
    dequeued node: it leaves the function with a result when it generates
    the goal, and otherwise yields the new [visited] set and [queue]. *)
Fixpoint bfs_neighbors (goal : string) (path : list string) (neighbors : list string)
    (visited : gset string) (queue : list (string * list string))
  : SearchResult + gset string * list (string * list string) :=
  match neighbors with
  | [] => inr (visited, queue)
  | neighbor :: rest =>
      if bool_decide (neighbor ∈ visited)
      then bfs_neighbors goal path rest visited queue
      else
        let new_path := path ++ [neighbor] in
        if bool_decide (neighbor = goal)
        then inl (mkSearchResult new_path true)
        else bfs_neighbors goal path rest
               ({[neighbor]} ∪ visited) (queue ++ [(neighbor, new_path)])
  end.

(** The [while queue] loop; the head of the list is the left end of the
    deque. *)
Fixpoint bfs_loop (fuel : nat) (g : Graph) (goal : string)
    (queue : list (string * list string)) (visited : gset string)
  : option SearchResult :=
  match fuel with
  | O => None
  | S fuel =>
      match queue with
      | [] => Some (mkSearchResult [] false)
      | (current, path) :: queue =>
          match bfs_neighbors goal path (get_neighbors g current) visited queue with
          | inl result => Some result
          | inr (visited, queue) => bfs_loop fuel g goal queue visited
          end
      end
  end.

(** [TravelEthiopiaSearch._breadth_first_search]. *)
Definition _breadth_first_search (fuel : nat) (g : Graph) (initial goal : string)
  : option SearchResult :=
  if bool_decide (initial ∉ dom (adjacency_list g)) then Some (mkSearchResult [] false)
  else if bool_decide (goal ∉ dom (adjacency_list g)) then Some (mkSearchResult [] false)
  else if bool_decide (initial = goal) then Some (mkSearchResult [initial] true)
  else bfs_loop fuel g goal [(initial, [initial])] {[initial]}.

(** The [for] loop of [_depth_first_search] over [reversed(neighbors)]; the
    head of the list is the top of the stack. *)
Definition dfs_neighbors (path : list string) (neighbors : list string)
    (visited : gset string) (stack : list (string * list string))
  : list (string * list string) :=
  fold_left
    (λ stack neighbor,
       if bool_decide (neighbor ∈ visited) then stack
       else (neighbor, path ++ [neighbor]) :: stack)
    (rev neighbors) stack.

(** The [while stack] loop. *)
Fixpoint dfs_loop (fuel : nat) (g : Graph) (goal : string)
    (stack : list (string * list string)) (visited : gset string)
  : option SearchResult :=
  match fuel with
  | O => None
  | S fuel =>
      match stack with
      | [] => Some (mkSearchResult [] false)
      | (current, path) :: stack =>
          if bool_decide (current ∈ visited) then dfs_loop fuel g goal stack visited
          else
            let visited := {[current]} ∪ visited in
            if bool_decide (current = goal) then Some (mkSearchResult path true)
            else dfs_loop fuel g goal
                   (dfs_neighbors path (get_neighbors g current) visited stack)
                   visited
      end
  end.

(** [TravelEthiopiaSearch._depth_first_search]. *)
Definition _depth_first_search (fuel : nat) (g : Graph) (initial goal : string)
  : option SearchResult :=
  if bool_decide (initial ∉ dom (adjacency_list g)) then Some (mkSearchResult [] false)
  else if bool_decide (goal ∉ dom (adjacency_list g)) then Some (mkSearchResult [] false)
  else if bool_decide (initial = goal) then Some (mkSearchResult [initial] true)
  else dfs_loop fuel g goal [(initial, [initial])] ∅.

(** [str.lower] on the ASCII letters, which is all that can turn a string
    into ["bfs"] or ["dfs"]. *)
Definition lower_ascii (c : Ascii.ascii) : Ascii.ascii :=
  let n := Ascii.nat_of_ascii c in
  if bool_decide (65 ≤ n ≤ 90)%nat then Ascii.ascii_of_nat (n + 32) else c.

Fixpoint lower (s : string) : string :=
  match s with
  | EmptyString => EmptyString
  | String c s => String (lower_ascii c) (lower s)
  end.

(** [TravelEthiopiaSearch.search]. *)
Definition search (fuel : nat) (g : Graph) (initial_state goal_state strategy : string)
  : option outcome :=
  let strategy := lower strategy in
  if bool_decide (strategy = "bfs")
  then Return <$> _breadth_first_search fuel g initial_state goal_state
  else if bool_decide (strategy = "dfs")
  then Return <$> _depth_first_search fuel g initial_state goal_state
  else Some RaiseValueError.

End TravelEthiopiaSearch.

(** *** Paths of the unweighted graph *)

(** [route g s p t]: the node list [p] leads from [s] to [t] along the
    stored neighbour lists; it has [length p - 1] edges. *)
Inductive route (g : Graph) (s : string) : list string → string → Prop :=
  | route_start : route g s [s] s
  | route_step p v w :
      route g s p v → w ∈ get_neighbors g v → route g s (p ++ [w]) w.

(** Every node that occurs in some neighbour list. *)
Definition listed_nodes (g : Graph) : gset string :=
  ⋃ ((λ kv : string * list string, list_to_set kv.2) <$> map_to_list (adjacency_list g)).

(** Fuel that is enough for [bfs_loop] on [g]. *)
Definition bfs_fuel (g : Graph) : nat := (size (listed_nodes g) + 2)%nat.

(** A small unweighted graph: two ways of two edges from A to C, and E
    one edge beyond C. *)
Definition diamond : Graph :=
  add_edge "C" "E"
    (add_edge "D" "C"
       (add_edge "A" "D"
          (add_edge "B" "C"
             (add_edge "A" "B" empty_graph)))).

(** The invariant of the loop of [_breadth_first_search]. The queue is
    [front ++ back]: the paths of [front] have [L] nodes, those of [back]
    one more. *)
Record bfs_inv (g : Graph) (s goal : string) (L : nat)
    (front back : list (string * list string)) (visited : gset string) : Prop := {
  bfs_inv_entries : ∀ v p, (v, p) ∈ front ++ back →
    route g s p v ∧ v ∈ visited ∧ ∀ q, route g s q v → (length p ≤ length q)%nat;
  bfs_inv_level : ∀ q x, route g s q x → (length q ≤ L)%nat → x ∈ visited;
  bfs_inv_front : Forall (λ e, length e.2 = L) front;
  bfs_inv_back : Forall (λ e, length e.2 = S L) back;
  bfs_inv_visited : ∀ x, x ∈ visited →
    (∃ p, (x, p) ∈ front ++ back) ∨ (∀ w, w ∈ get_neighbors g x → w ∈ visited);
  bfs_inv_start : s ∈ visited;
  bfs_inv_goal : goal ∉ visited
}.

(** The invariant of the [for] loop over the neighbours of the dequeued
    node [v], reached along [p], once the neighbours in [done] are handled. *)
Record bfs_expand_inv (g : Graph) (s goal : string) (L : nat)
    (v : string) (p : list string) (done : list string)
    (front back : list (string * list string)) (visited : gset string) : Prop := {
  bfs_expand_entries : ∀ u q, (u, q) ∈ front ++ back →
    route g s q u ∧ u ∈ visited ∧ ∀ q', route g s q' u → (length q ≤ length q')%nat;
  bfs_expand_level : ∀ q x, route g s q x → (length q ≤ L)%nat → x ∈ visited;
  bfs_expand_front : Forall (λ e, length e.2 = L) front;
  bfs_expand_back : Forall (λ e, length e.2 = S L) back;
  bfs_expand_visited : ∀ x, x ∈ visited →
    (∃ q, (x, q) ∈ front ++ back) ∨ x = v ∨
    (∀ w, w ∈ get_neighbors g x → w ∈ visited);
  bfs_expand_current : route g s p v ∧ length p = L;
  bfs_expand_done : ∀ w, w ∈ done → w ∈ visited;
  bfs_expand_start : s ∈ visited;
  bfs_expand_goal : goal ∉ visited
}.

(** The quantity every turn of the loop decreases. *)
Definition bfs_measure (g : Graph) (queue : list (string * list string))
    (visited : gset string) : nat :=
  (length queue + size (listed_nodes g ∖ visited))%nat.

End bfs_dfs.

(** ** heapq *)

(** The priority queues of [ucs.py] and [astar.py] are lists handled through
    [heapq.heappush] and [heapq.heappop] only. [heappop] returns the least
    element of the queue under Python's ordering of tuples and removes it.
    A queue is modelled by the list of its elements in the order of their
    insertion, and [heappop] by the extraction of the least element under
    [ltb]; the orders used are strict total orders, so the element popped
    does not depend on the layout of the heap (lemmas [ucs_heappop_layout]
    and [astar_heappop_layout]). *)
Definition heappush {A} (pq : list A) (item : A) : list A := pq ++ [item].

Fixpoint heappop {A} (ltb : A → A → bool) (pq : list A) : option (A * list A) :=
  match pq with
  | [] => None
  | item :: pq' =>
      match heappop ltb pq' with
      | None => Some (item, [])
      | Some (least, rest) =>
          if ltb least item then Some (least, item :: rest)
          else Some (item, pq')
      end
  end.

(** Python's [<] on strings (by code point, which on the UTF-8 bytes of a
    [string] is the order of the bytes) and on lists of strings (the first
    differing position decides; a proper prefix is smaller). *)
Definition str_ltb (a b : string) : bool := String.ltb a b.

Fixpoint path_ltb (p q : list string) : bool :=
  match p, q with
  | _, [] => false
  | [], _ :: _ => true
  | x :: p', y :: q' =>
      if bool_decide (x = y) then path_ltb p' q' else str_ltb x y
  end.

(** ** ucs.py *)

Module ucs.

(** [class UCSResult]. *)
Record UCSResult := mkUCSResult {
  path : list string;
  total_cost : Z;
  success : bool
}.

(** [UCSResult(success=False)]. *)
Definition failure : UCSResult := mkUCSResult [] 0 false.

(** An element of the queue: [(cost, counter, city, path)]. *)
Definition entry : Type := Z * nat * string * list string.

Definition entry_cost (e : entry) : Z := e.1.1.1.
Definition entry_counter (e : entry) : nat := e.1.1.2.
Definition entry_city (e : entry) : string := e.1.2.
Definition entry_path (e : entry) : list string := e.2.

(** Python's [<] on these tuples: the first differing component decides. *)
Definition entry_ltb (a b : entry) : bool :=
  if bool_decide (entry_cost a = entry_cost b) then
    if bool_decide (entry_counter a = entry_counter b) then
      if bool_decide (entry_city a = entry_city b)
      then path_ltb (entry_path a) (entry_path b)
      else str_ltb (entry_city a) (entry_city b)
    else bool_decide (entry_counter a < entry_counter b)%nat
  else bool_decide (entry_cost a < entry_cost b).

Module UniformCostSearch.

(** The [for] loop over the weighted neighbours of [current_city]. *)
Fixpoint push_neighbors (neighbors : list (string * Z)) (visited : gmap string Z)
    (current_cost : Z) (path : list string) (counter : nat) (pq : list entry)
  : nat * list entry :=
  match neighbors with
  | [] => (counter, pq)
  | (neighbor, edge_cost) :: rest =>
      if bool_decide (neighbor ∈ dom visited)
      then push_neighbors rest visited current_cost path counter pq
      else
        let new_cost := current_cost + edge_cost in
        let new_path := path ++ [neighbor] in
        let counter := S counter in
        push_neighbors rest visited current_cost path counter
          (heappush pq (new_cost, counter, neighbor, new_path))
  end.

(** [if current_city in visited and visited[current_city] <= current_cost]. *)
Definition settled (visited : gmap string Z) (current_city : string)
    (current_cost : Z) : bool :=
  match visited !! current_city with
  | Some best => bool_decide (best ≤ current_cost)
  | None => false
  end.

(** The [while pq] loop. *)
Fixpoint loop (fuel : nat) (g : WeightedGraph) (goal : string)
    (pq : list entry) (visited : gmap string Z) (counter : nat)
  : option UCSResult :=
  match fuel with
  | O => None
  | S fuel =>
      match heappop entry_ltb pq with
      | None => Some failure
      | Some ((current_cost, _, current_city, path), pq) =>
          if settled visited current_city current_cost
          then loop fuel g goal pq visited counter
          else
            let visited := <[current_city := current_cost]> visited in
            if bool_decide (current_city = goal)
            then Some (mkUCSResult path current_cost true)
            else
              let '(counter, pq) :=
                push_neighbors (get_weighted_neighbors g current_city)
                  visited current_cost path counter pq in
              loop fuel g goal pq visited counter
      end
  end.

(** [UniformCostSearch.search]. *)
Definition search (fuel : nat) (g : WeightedGraph) (initial goal : string)
  : option UCSResult :=
  if bool_decide (initial ∉ dom (weighted_adjacency g)) then Some failure
  else if bool_decide (goal ∉ dom (weighted_adjacency g)) then Some failure
  else if bool_decide (initial = goal) then Some (mkUCSResult [initial] 0 true)
  else loop fuel g goal [(0, O, initial, [initial])] ∅ O.

End UniformCostSearch.

(** The dictionary [MultiGoalUCS.search] returns. *)
Record MultiGoalResult := mkMultiGoalResult {
  complete_path : list string;
  multi_total_cost : Z;
  visit_order : list string;
  multi_success : bool
}.

Module MultiGoalUCS.

(** The [for goal in unvisited_goals] loop: [best] is [None] while
    [best_result is None] and [best_cost] is infinite, and holds
    [(best_goal, best_result)] afterwards, [best_cost] being the cost of
    [best_result]. *)
Fixpoint nearest (fuel : nat) (g : WeightedGraph) (current_location : string)
    (unvisited_goals : list string) (best : option (string * UCSResult))
  : option (option (string * UCSResult)) :=
  match unvisited_goals with
  | [] => Some best
  | goal :: rest =>
      result ← UniformCostSearch.search fuel g current_location goal;
      let better :=
        success result &&
        match best with
        | None => true
        | Some (_, best_result) =>
            bool_decide (total_cost result < total_cost best_result)
        end in
      nearest fuel g current_location rest
        (if better then Some (goal, result) else best)
  end.

(** [unvisited_goals.remove(best_goal)]: the other elements keep their
    order of iteration. *)
Definition remove (goal : string) (unvisited_goals : list string) : list string :=
  filter (λ x, x ≠ goal) unvisited_goals.

(** The [while unvisited_goals] loop. Every turn removes a goal, so [rounds]
    need not exceed the number of goals. *)
Fixpoint loop (rounds fuel : nat) (g : WeightedGraph) (unvisited_goals : list string)
    (current_location : string) (complete_path : list string) (total_cost : Z)
    (visit_order : list string) : option MultiGoalResult :=
  match unvisited_goals with
  | [] => Some (mkMultiGoalResult complete_path total_cost visit_order true)
  | _ =>
      match rounds with
      | O => None
      | S rounds =>
          best ← nearest fuel g current_location unvisited_goals None;
          match best with
          | None =>
              Some (mkMultiGoalResult complete_path total_cost visit_order false)
          | Some (best_goal, best_result) =>
              loop rounds fuel g (remove best_goal unvisited_goals) best_goal
                (complete_path ++ tail (path best_result))
                (total_cost + ucs.total_cost best_result)
                (visit_order ++ [best_goal])
          end
      end
  end.

(** [MultiGoalUCS.search]. [unvisited_goals = set(goals)] holds the goals
    once each; the order in which a Python set of strings is iterated is
    not fixed by its elements (it follows the hashes of the strings, which
    vary from one interpreter run to the next), so that order is the
    argument [set_order]. *)
Definition search (set_order : list string → list string) (fuel : nat)
    (g : WeightedGraph) (initial : string) (goals : list string)
  : option MultiGoalResult :=
  let unvisited_goals := set_order goals in
  loop (length unvisited_goals) fuel g unvisited_goals initial [initial] 0 [].

End MultiGoalUCS.

(** [set_order] enumerates, once each, the elements of the list it is
    given: what the iteration of [set(goals)] does. *)
Definition set_iteration (set_order : list string → list string) : Prop :=
  ∀ l, NoDup (set_order l) ∧ ∀ x, x ∈ set_order l ↔ x ∈ l.

(** Two orders of iteration of the same set: an order without repetition
    of the elements of the list, and the reverse of that order. *)
Definition forward_order (l : list string) : list string := remove_dups l.
Definition backward_order (l : list string) : list string := reverse (remove_dups l).

(** *** The greedy route, as the specification words it *)

(** [greedy fuel g unvisited current route cost order result]: from the
    state of a round, the rounds that follow lead to [result]. A round
    commits to an unvisited goal whose single-pair UCS cost from the current
    location is the least, appends the UCS path without its first node, adds
    the cost, and moves there; when UCS fails for every unvisited goal the
    route so far is returned with success false; when no goal is left it is
    returned with success true. *)
Inductive greedy (fuel : nat) (g : WeightedGraph) :
    list string → string → list string → Z → list string →
    MultiGoalResult → Prop :=
  | greedy_done current route cost order :
      greedy fuel g [] current route cost order
        (mkMultiGoalResult route cost order true)
  | greedy_stuck unvisited current route cost order :
      unvisited ≠ [] →
      (∀ x, x ∈ unvisited →
         ∃ r, UniformCostSearch.search fuel g current x = Some r ∧ success r = false) →
      greedy fuel g unvisited current route cost order
        (mkMultiGoalResult route cost order false)
  | greedy_commit unvisited current route cost order x r result :
      x ∈ unvisited →
      UniformCostSearch.search fuel g current x = Some r → success r = true →
      (∀ y ry, y ∈ unvisited →
         UniformCostSearch.search fuel g current y = Some ry → success ry = true →
         total_cost r ≤ total_cost ry) →
      greedy fuel g (MultiGoalUCS.remove x unvisited) x
        (route ++ tail (path r)) (cost + total_cost r) (order ++ [x]) result →
      greedy fuel g unvisited current route cost order result.

(** UCS succeeds from [current] for both [x] and [y], at the same cost. *)
Definition tied (fuel : nat) (g : WeightedGraph) (current x y : string) : bool :=
  match UniformCostSearch.search fuel g current x,
        UniformCostSearch.search fuel g current y with
  | Some rx, Some ry =>
      success rx && success ry && bool_decide (total_cost rx = total_cost ry)
  | _, _ => false
  end.

(** From the start and from every goal, no two distinct goals are tied. *)
Definition tie_free (fuel : nat) (g : WeightedGraph) (initial : string)
    (goals : list string) : Prop :=
  Forall (λ current,
    Forall (λ x, Forall (λ y, x ≠ y → tied fuel g current x y = false) goals) goals)
    (initial :: goals).

#[global] Instance tie_free_dec fuel g initial goals :
  Decision (tie_free fuel g initial goals).
Proof. unfold tie_free. apply _. Defined.

End ucs.

(** *** Paths of the weighted graph *)

(** [walk g s p t c]: the node list [p] leads from [s] to [t] along stored
    weighted edges whose costs add up to [c]. *)
Inductive walk (g : WeightedGraph) (s : string) : list string → string → Z → Prop :=
  | walk_start : walk g s [s] s 0
  | walk_step p v c w e :
      walk g s p v c → (w, e) ∈ get_weighted_neighbors g v →
      walk g s (p ++ [w]) w (c + e).

Definition reachable (g : WeightedGraph) (s t : string) : Prop :=
  ∃ p c, walk g s p t c.

(** No stored edge has a negative cost. *)
Definition nonnegative (g : WeightedGraph) : Prop :=
  map_Forall (λ _ l, Forall (λ p : string * Z, 0 ≤ p.2) l) (weighted_adjacency g).

#[global] Instance nonnegative_dec g : Decision (nonnegative g).
Proof. unfold nonnegative. apply _. Defined.

(** [c] is the cost of a cheapest walk from [s] to [t]. *)
Definition shortest (g : WeightedGraph) (s t : string) (c : Z) : Prop :=
  (∃ p, walk g s p t c) ∧ ∀ p' c', walk g s p' t c' → c ≤ c'.

(** The number of stored weighted edges, and fuel that is enough for the
    loops of [UniformCostSearch.search] and [AStarSearch.search]. *)
Definition edge_count (wa : gmap string (list (string * Z))) : nat :=
  map_fold (λ _ l acc, (length l + acc)%nat) O wa.

Definition search_fuel (g : WeightedGraph) : nat :=
  (edge_count (weighted_adjacency g) + 2)%nat.

(** ** astar.py *)

Module astar.

(** [class AStarResult]. *)
Record AStarResult := mkAStarResult {
  path : list string;
  total_cost : Z;
  success : bool
}.

(** [AStarResult(success=False)]. *)
Definition failure : AStarResult := mkAStarResult [] 0 false.

(** An element of the queue: [(f, g, counter, node, path)]. *)
Definition entry : Type := Z * Z * nat * string * list string.

Definition entry_f (e : entry) : Z := e.1.1.1.1.
Definition entry_g (e : entry) : Z := e.1.1.1.2.
Definition entry_counter (e : entry) : nat := e.1.1.2.
Definition entry_node (e : entry) : string := e.1.2.
Definition entry_path (e : entry) : list string := e.2.

(** Python's [<] on these tuples: the first differing component decides. *)
Definition entry_ltb (a b : entry) : bool :=
  if bool_decide (entry_f a = entry_f b) then
    if bool_decide (entry_g a = entry_g b) then
      if bool_decide (entry_counter a = entry_counter b) then
        if bool_decide (entry_node a = entry_node b)
        then path_ltb (entry_path a) (entry_path b)
        else str_ltb (entry_node a) (entry_node b)
      else bool_decide (entry_counter a < entry_counter b)%nat
    else bool_decide (entry_g a < entry_g b)
  else bool_decide (entry_f a < entry_f b).

Module AStarSearch.

(** [AStarSearch.get_heuristic]: [heuristics.get(node, 0)]. *)
Definition get_heuristic (heuristics : gmap string Z) (node : string) : Z :=
  default 0 (heuristics !! node).

(** [neighbor not in g_scores or tentative_g < g_scores[neighbor]]. *)
Definition improves (g_scores : gmap string Z) (neighbor : string)
    (tentative_g : Z) : bool :=
  match g_scores !! neighbor with
  | None => true
  | Some best => bool_decide (tentative_g < best)
  end.

(** The [for] loop over the weighted neighbours of [current]. *)
Fixpoint relax (heuristics : gmap string Z) (neighbors : list (string * Z))
    (g_value : Z) (path : list string)
    (g_scores : gmap string Z) (counter : nat) (pq : list entry)
  : gmap string Z * nat * list entry :=
  match neighbors with
  | [] => (g_scores, counter, pq)
  | (neighbor, edge_cost) :: rest =>
      let tentative_g := g_value + edge_cost in
      if improves g_scores neighbor tentative_g
      then
        let g_scores := <[neighbor := tentative_g]> g_scores in
        let h_neighbor := get_heuristic heuristics neighbor in
        let f_neighbor := tentative_g + h_neighbor in
        let new_path := path ++ [neighbor] in
        let counter := S counter in
        relax heuristics rest g_value path g_scores counter
          (heappush pq (f_neighbor, tentative_g, counter, neighbor, new_path))
      else relax heuristics rest g_value path g_scores counter pq
  end.

(** [if current in g_scores and g_value > g_scores[current]]. *)
Definition stale (g_scores : gmap string Z) (current : string) (g_value : Z) : bool :=
  match g_scores !! current with
  | Some best => bool_decide (best < g_value)
  | None => false
  end.

(** The [while pq] loop. *)
Fixpoint loop (fuel : nat) (g : WeightedGraph) (heuristics : gmap string Z)
    (goal : string) (pq : list entry) (g_scores : gmap string Z) (counter : nat)
  : option AStarResult :=
  match fuel with
  | O => None
  | S fuel =>
      match heappop entry_ltb pq with
      | None => Some failure
      | Some ((f_value, g_value, _, current, path), pq) =>
          if stale g_scores current g_value
          then loop fuel g heuristics goal pq g_scores counter
          else if bool_decide (current = goal)
          then Some (mkAStarResult path g_value true)
          else
            let '(g_scores, counter, pq) :=
              relax heuristics (get_weighted_neighbors g current)
                g_value path g_scores counter pq in
            loop fuel g heuristics goal pq g_scores counter
      end
  end.

(** [AStarSearch.search]. *)
Definition search (fuel : nat) (g : WeightedGraph) (heuristics : gmap string Z)
    (initial goal : string) : option AStarResult :=
  if bool_decide (initial ∉ dom (weighted_adjacency g)) then Some failure
  else if bool_decide (goal ∉ dom (weighted_adjacency g)) then Some failure
  else if bool_decide (initial = goal) then Some (mkAStarResult [initial] 0 true)
  else
    let h_initial := get_heuristic heuristics initial in
    loop fuel g heuristics goal
      [(h_initial, 0, O, initial, [initial])] {[initial := 0]} O.

End AStarSearch.

(** A heuristic mapping that assigns 0 to every node it lists. *)
Definition zero_heuristic (heuristics : gmap string Z) : Prop :=
  map_Forall (λ _ h, h = 0) heuristics.

#[global] Instance zero_heuristic_dec heuristics : Decision (zero_heuristic heuristics).
Proof. unfold zero_heuristic. apply _. Defined.

End astar.

(** ** Loop invariants *)

(** What the result of a single-pair search on the weighted graph must be:
    a cheapest walk when [goal] can be reached from [s], the failure with
    the empty path when it cannot. *)
Definition optimal_result (g : WeightedGraph) (s goal : string)
    (success : bool) (path : list string) (total_cost : Z) : Prop :=
  (success = true ∧ walk g s path goal total_cost ∧
   ∀ p' c', walk g s p' goal c' → total_cost ≤ c') ∨
  (success = false ∧ path = [] ∧ ¬ reachable g s goal).

(** The stored edges that leave a node outside [closed]. *)
Definition open_edges (wa : gmap string (list (string * Z))) (closed : gset string)
  : gmap string (list (string * Z)) :=
  filter (λ kv, kv.1 ∉ closed) wa.

(** The invariant of the loop of [UniformCostSearch.search]. *)
Record ucs_inv (g : WeightedGraph) (s goal : string)
    (pq : list ucs.entry) (visited : gmap string Z) : Prop := {
  ucs_inv_entries : ∀ e, e ∈ pq →
    walk g s (ucs.entry_path e) (ucs.entry_city e) (ucs.entry_cost e);
  ucs_inv_shortest : ∀ v c, visited !! v = Some c → shortest g s v c;
  ucs_inv_mono : ∀ v c e, visited !! v = Some c → e ∈ pq → c ≤ ucs.entry_cost e;
  ucs_inv_edges : ∀ v c w k,
    visited !! v = Some c → (w, k) ∈ get_weighted_neighbors g v →
    w ∉ dom visited →
    ∃ e, e ∈ pq ∧ ucs.entry_city e = w ∧ ucs.entry_cost e = c + k;
  ucs_inv_start : s ∉ dom visited →
    ∃ e, e ∈ pq ∧ ucs.entry_city e = s ∧ ucs.entry_cost e = 0;
  ucs_inv_goal : goal ∉ dom visited
}.

(** The quantity every turn of that loop decreases. *)
Definition ucs_measure (g : WeightedGraph) (pq : list ucs.entry)
    (visited : gmap string Z) : nat :=
  (length pq + edge_count (open_edges (weighted_adjacency g) (dom visited)))%nat.

(** The node and the accumulated cost of a queued element of A*. *)
Definition astar_key (e : astar.entry) : string * Z :=
  (astar.entry_node e, astar.entry_g e).

(** What holds of the queued elements of A* under a zero heuristic: [f] is
    [g], the path is a walk of cost [g], and the recorded score of the node
    is no worse than [g]. *)
Definition astar_entry_ok (g : WeightedGraph) (s : string)
    (g_scores : gmap string Z) (e : astar.entry) : Prop :=
  astar.entry_f e = astar.entry_g e ∧
  walk g s (astar.entry_path e) (astar.entry_node e) (astar.entry_g e) ∧
  ∃ c, g_scores !! astar.entry_node e = Some c ∧ c ≤ astar.entry_g e.

(** What holds of an expanded node: its score is final and least, no queued
    element is cheaper, and the queued elements of the node are dearer. *)
Definition astar_closed_ok (g : WeightedGraph) (s : string)
    (pq : list astar.entry) (g_scores : gmap string Z) (v : string) : Prop :=
  ∃ c, g_scores !! v = Some c ∧
    (∀ p' c', walk g s p' v c' → c ≤ c') ∧
    (∀ e, e ∈ pq → c ≤ astar.entry_g e) ∧
    (∀ e, e ∈ pq → astar.entry_node e = v → c < astar.entry_g e).

(** The score of [w] is at most the score of [v] plus the cost [k]. *)
Definition astar_relaxed (g_scores : gmap string Z) (v w : string) (k : Z) : Prop :=
  ∀ c, g_scores !! v = Some c → ∃ cw, g_scores !! w = Some cw ∧ cw ≤ c + k.

(** The invariant of the loop of [AStarSearch.search]; [closed] is the set
    of the nodes expanded so far, which the code does not store. *)
Record astar_inv (g : WeightedGraph) (s goal : string) (closed : gset string)
    (pq : list astar.entry) (g_scores : gmap string Z) : Prop := {
  astar_inv_entries : ∀ e, e ∈ pq → astar_entry_ok g s g_scores e;
  astar_inv_closed : ∀ v, v ∈ closed → astar_closed_ok g s pq g_scores v;
  astar_inv_edges : ∀ v w k,
    v ∈ closed → (w, k) ∈ get_weighted_neighbors g v → astar_relaxed g_scores v w k;
  astar_inv_open : ∀ v c, g_scores !! v = Some c → v ∉ closed →
    ∃ e, e ∈ pq ∧ astar_key e = (v, c);
  astar_inv_start : ∃ c, g_scores !! s = Some c ∧ c ≤ 0;
  astar_inv_goal : goal ∉ closed;
  astar_inv_distinct : NoDup (astar_key <$> pq)
}.

(** The invariant of the [for] loop that expands [v], popped at cost
    [g_value] along [path], once the neighbours in [done] are handled. *)
Record relax_inv (g : WeightedGraph) (s goal : string) (closed : gset string)
    (v : string) (g_value : Z) (path : list string) (done : list (string * Z))
    (pq : list astar.entry) (g_scores : gmap string Z) : Prop := {
  relax_inv_entries : ∀ e, e ∈ pq → astar_entry_ok g s g_scores e;
  relax_inv_closed : ∀ u, u ∈ closed → astar_closed_ok g s pq g_scores u;
  relax_inv_low : ∀ u c, u ∈ closed → g_scores !! u = Some c → c ≤ g_value;
  relax_inv_current : v ∈ closed ∧ g_scores !! v = Some g_value ∧ walk g s path v g_value;
  relax_inv_edges : ∀ u w k,
    u ∈ closed → u ≠ v → (w, k) ∈ get_weighted_neighbors g u →
    astar_relaxed g_scores u w k;
  relax_inv_done : ∀ w k, (w, k) ∈ done → astar_relaxed g_scores v w k;
  relax_inv_open : ∀ u c, g_scores !! u = Some c → u ∉ closed →
    ∃ e, e ∈ pq ∧ astar_key e = (u, c);
  relax_inv_start : ∃ c, g_scores !! s = Some c ∧ c ≤ 0;
  relax_inv_goal : goal ∉ closed;
  relax_inv_distinct : NoDup (astar_key <$> pq)
}.

(** The quantity every turn of the loop of A* decreases. *)
Definition astar_measure (g : WeightedGraph) (closed : gset string)
    (pq : list astar.entry) : nat :=
  (length pq + edge_count (open_edges (weighted_adjacency g) closed))%nat.

(** ** Further vocabulary *)

(** An unweighted graph obtained from the empty one by calls of [add_node]
    and [add_edge]. *)
Inductive built_graph : Graph → Prop :=
  | built_graph_empty : built_graph empty_graph
  | built_graph_node g a : built_graph g → built_graph (add_node a g)
  | built_graph_edge g a b : built_graph g → built_graph (add_edge a b g).

(** A small unweighted graph with a node of its own. *)
Definition pair_and_node : Graph := add_node "C" (add_edge "A" "B" empty_graph).

(** The symmetry of the unweighted adjacency. *)
Definition symmetric_neighbors (g : Graph) : Prop :=
  ∀ a b, b ∈ get_neighbors g a ↔ a ∈ get_neighbors g b.

(** *** Depth-first search *)

(** The number of entries of all neighbour lists, and the lists of the
    nodes outside [closed]. *)
Definition link_count (adj : gmap string (list string)) : nat :=
  map_fold (λ _ l acc, (length l + acc)%nat) O adj.

Definition open_links (adj : gmap string (list string)) (closed : gset string)
  : gmap string (list string) :=
  filter (λ kv, kv.1 ∉ closed) adj.

(** Fuel that is enough for [dfs_loop] on [g]. *)
Definition dfs_fuel (g : Graph) : nat := (link_count (adjacency_list g) + 2)%nat.

(** The quantity every turn of the loop of [_depth_first_search] decreases. *)
Definition dfs_measure (g : Graph) (stack : list (string * list string))
    (visited : gset string) : nat :=
  (length stack + link_count (open_links (adjacency_list g) visited))%nat.

(** The invariant of the loop of [_depth_first_search]: every stacked path
    is a route without repetition whose nodes before the last are visited;
    the neighbours of a visited node are visited or stacked. *)
Record dfs_inv (g : Graph) (s goal : string)
    (stack : list (string * list string)) (visited : gset string) : Prop := {
  dfs_inv_entries : ∀ v p, (v, p) ∈ stack →
    bfs_dfs.route g s p v ∧ NoDup p ∧ ∀ x, x ∈ p → x = v ∨ x ∈ visited;
  dfs_inv_closed : ∀ x w, x ∈ visited → w ∈ get_neighbors g x →
    w ∈ visited ∨ ∃ p, (w, p) ∈ stack;
  dfs_inv_start : s ∈ visited ∨ ∃ p, (s, p) ∈ stack;
  dfs_inv_goal : goal ∉ visited
}.

(** The nodes joined by a route. *)
Definition connected (g : Graph) (s t : string) : Prop :=
  ∃ p, bfs_dfs.route g s p t.

(** *** Uniform-cost search *)

(** The cost of a node list read edge by edge with [get_cost]: [None] when
    two consecutive nodes have no stored edge. *)
Fixpoint path_cost (g : WeightedGraph) (p : list string) : option Z :=
  match p with
  | a :: (b :: _) as rest =>
      match get_cost g a b, path_cost g rest with
      | Some c, Some d => Some (c + d)
      | _, _ => None
      end
  | _ => Some 0
  end.

(** Every queued path is without repetition, and its nodes before the last
    have been expanded. *)
Definition ucs_simple_inv (pq : list ucs.entry) (visited : gmap string Z) : Prop :=
  ∀ e, e ∈ pq →
    NoDup (ucs.entry_path e) ∧
    ∀ x, x ∈ ucs.entry_path e → x = ucs.entry_city e ∨ x ∈ dom visited.

(** *** MiniMax *)

(** [principal v node p t]: the names [p] lead from [node] down to [t],
    child by child and never below a terminal node, and every node on the
    way has the backward-induction value [v]. *)
Inductive principal (v : minimax.value)
  : minimax.GameNode → list string → minimax.GameNode → Prop :=
  | principal_end t :
      minimax.backward_induction t = v → principal v t [minimax.name t] t
  | principal_step node c p t :
      minimax.utility node = None → c ∈ minimax.children node →
      minimax.backward_induction node = v →
      principal v c p t → principal v node (minimax.name node :: p) t.

(** The value a node without utility starts its loop from. *)
Definition initial_value (p : minimax.PlayerType) : minimax.value :=
  match p with minimax.MAX => minimax.NegInf | minimax.MIN => minimax.PosInf end.

(** The game seen by the adversary: the players swapped and the utilities
    negated. *)
Definition negate (v : minimax.value) : minimax.value :=
  match v with
  | minimax.NegInf => minimax.PosInf
  | minimax.Fin z => minimax.Fin (- z)
  | minimax.PosInf => minimax.NegInf
  end.

Definition opponent (p : minimax.PlayerType) : minimax.PlayerType :=
  match p with minimax.MAX => minimax.MIN | minimax.MIN => minimax.MAX end.

Fixpoint mirror (node : minimax.GameNode) : minimax.GameNode :=
  minimax.mkGameNode (minimax.name node) (opponent (minimax.player node))
    (map mirror (minimax.children node)) (Z.opp <$> minimax.utility node).

(** [MiniMax._minimax] with the counter [self.nodes_evaluated], which the
    function increments on entry, threaded through the calls. *)
Fixpoint _minimax_evaluated (node : minimax.GameNode) (path : list string)
    (nodes_evaluated : nat) : minimax.value * list string * nat :=
  let nodes_evaluated := S nodes_evaluated in
  let current_path := path ++ [minimax.name node] in
  match minimax.utility node with
  | Some u => (minimax.Fin u, current_path, nodes_evaluated)
  | None =>
      match minimax.player node with
      | minimax.MAX =>
          fold_left
            (λ acc child,
               let r := _minimax_evaluated child current_path acc.2 in
               (minimax.MiniMax.max_step acc.1 r.1, r.2))
            (minimax.children node)
            ((minimax.NegInf, current_path), nodes_evaluated)
      | minimax.MIN =>
          fold_left
            (λ acc child,
               let r := _minimax_evaluated child current_path acc.2 in
               (minimax.MiniMax.min_step acc.1 r.1, r.2))
            (minimax.children node)
            ((minimax.PosInf, current_path), nodes_evaluated)
      end
  end.

(** [MiniMax.search] with the counter: it is reset to 0, whatever it was,
    before the root is evaluated. *)
Definition search_evaluated (root : minimax.GameNode) (nodes_evaluated : nat)
  : minimax.MiniMaxResult * nat :=
  let r := _minimax_evaluated root [] 0 in
  (minimax.mkMiniMaxResult r.1.1 r.1.2, r.2).

(** The number of nodes of a tree, and the trees whose terminal nodes have
    no children. *)
Fixpoint tree_size (node : minimax.GameNode) : nat :=
  S (foldr (λ c acc, (tree_size c + acc)%nat) O (minimax.children node)).

Fixpoint terminals_childless (node : minimax.GameNode) : bool :=
  match minimax.utility node, minimax.children node with
  | Some _, _ :: _ => false
  | _, cs => forallb terminals_childless cs
  end.

(** *** A* under an admissible heuristic *)

(** The heuristic of a node exceeds that of the goal by no more than the
    cost of any walk from the node to the goal: with the heuristic 0 at the
    goal, it never overestimates the cost that remains. *)
Definition admissible (g : WeightedGraph) (heuristics : gmap string Z)
    (goal : string) : Prop :=
  ∀ v p c, walk g v p goal c →
    astar.AStarSearch.get_heuristic heuristics v
      ≤ c + astar.AStarSearch.get_heuristic heuristics goal.

(** The heuristic drops by no more than the cost along every stored edge. *)
Definition consistent (g : WeightedGraph) (heuristics : gmap string Z) : Prop :=
  map_Forall
    (λ v l, Forall (λ p : string * Z,
       astar.AStarSearch.get_heuristic heuristics v
         ≤ p.2 + astar.AStarSearch.get_heuristic heuristics p.1) l)
    (weighted_adjacency g).

#[global] Instance consistent_dec g heuristics : Decision (consistent g heuristics).
Proof. unfold consistent. apply _. Defined.

(** Every stored cost lies between 0 and [K]. *)
Definition costs_within (K : Z) (g : WeightedGraph) : Prop :=
  0 ≤ K ∧
  map_Forall (λ _ l, Forall (λ p : string * Z, 0 ≤ p.2 ≤ K) l) (weighted_adjacency g).

#[global] Instance costs_within_dec K g : Decision (costs_within K g).
Proof. unfold costs_within. apply _. Defined.

(** The nodes of a weighted graph: the keys of the weighted adjacency and
    the neighbours its lists name. *)
Definition all_nodes (g : WeightedGraph) : gset string :=
  dom (weighted_adjacency g) ∪
  ⋃ ((λ kv : string * list (string * Z), list_to_set kv.2.*1)
       <$> map_to_list (weighted_adjacency g)).

(** Fuel that is enough for the loop of [AStarSearch.search] when a node
    may be expanded again after its score has improved: with [n] nodes and
    costs up to [K] a score is at most [n * K], and every push lowers one. *)
Definition reopen_fuel (g : WeightedGraph) (K : Z) : nat :=
  (Z.to_nat (Z.of_nat (size (all_nodes g))
             * (Z.of_nat (size (all_nodes g)) * K + 1)) + 2)%nat.

(** The room a node has left for improvements of its score. *)
Definition potential (B : Z) (g_scores : gmap string Z) (w : string) : Z :=
  match g_scores !! w with Some c => c | None => B + 1 end.

Definition potential_sum (B : Z) (g_scores : gmap string Z) (l : list string) : Z :=
  foldr (λ w acc, potential B g_scores w + acc) 0 l.

(** The quantity every turn of the loop decreases. *)
Definition reopen_measure (g : WeightedGraph) (K : Z) (pq : list astar.entry)
    (g_scores : gmap string Z) : Z :=
  Z.of_nat (length pq) +
  potential_sum (Z.of_nat (size (all_nodes g)) * K) g_scores (elements (all_nodes g)).

(** What holds of a queued element under the heuristic [h]. *)
Definition scored_entry_ok (g : WeightedGraph) (h : string → Z) (s : string)
    (g_scores : gmap string Z) (e : astar.entry) : Prop :=
  astar.entry_f e = astar.entry_g e + h (astar.entry_node e) ∧
  walk g s (astar.entry_path e) (astar.entry_node e) (astar.entry_g e) ∧
  ∃ c, g_scores !! astar.entry_node e = Some c ∧ c ≤ astar.entry_g e.

(** A node of score [c] is queued with that score, or its edges are
    relaxed under it. *)
Definition queued_or_relaxed (g : WeightedGraph) (pq : list astar.entry)
    (g_scores : gmap string Z) (v : string) (c : Z) : Prop :=
  (∃ e, e ∈ pq ∧ astar_key e = (v, c)) ∨
  (∀ w k, (w, k) ∈ get_weighted_neighbors g v →
     ∃ cw, g_scores !! w = Some cw ∧ cw ≤ c + k).

(** The invariant of the loop of [AStarSearch.search] that needs no set of
    expanded nodes. *)
Record reopen_inv (g : WeightedGraph) (h : string → Z) (K : Z) (s goal : string)
    (pq : list astar.entry) (g_scores : gmap string Z) : Prop := {
  reopen_entries : ∀ e, e ∈ pq → scored_entry_ok g h s g_scores e;
  reopen_nodes : ∀ v c, g_scores !! v = Some c → queued_or_relaxed g pq g_scores v c;
  reopen_goal : ∀ c, g_scores !! goal = Some c →
    ∃ e, e ∈ pq ∧ astar_key e = (goal, c);
  reopen_start : ∃ c, g_scores !! s = Some c ∧ c ≤ 0;
  reopen_bounds : ∀ w c, g_scores !! w = Some c →
    0 ≤ c ≤ (Z.of_nat (size (dom g_scores)) - 1) * K;
  reopen_within : dom g_scores ⊆ all_nodes g
}.

(** The invariant of the [for] loop that expands [v], popped at score
    [g_value] along [path], once the neighbours in [done] are handled. *)
Record reopen_relax_inv (g : WeightedGraph) (h : string → Z) (K : Z)
    (s goal : string) (v : string) (g_value : Z) (path : list string)
    (done : list (string * Z))
    (pq : list astar.entry) (g_scores : gmap string Z) : Prop := {
  reopen_relax_entries : ∀ e, e ∈ pq → scored_entry_ok g h s g_scores e;
  reopen_relax_nodes : ∀ u c, u ≠ v → g_scores !! u = Some c →
    queued_or_relaxed g pq g_scores u c;
  reopen_relax_current :
    g_scores !! v = Some g_value ∧ walk g s path v g_value ∧ v ≠ goal;
  reopen_relax_done : ∀ w k, (w, k) ∈ done →
    ∃ cw, g_scores !! w = Some cw ∧ cw ≤ g_value + k;
  reopen_relax_goal : ∀ c, g_scores !! goal = Some c →
    ∃ e, e ∈ pq ∧ astar_key e = (goal, c);
  reopen_relax_start : ∃ c, g_scores !! s = Some c ∧ c ≤ 0;
  reopen_relax_bounds : ∀ w c, g_scores !! w = Some c →
    0 ≤ c ≤ (Z.of_nat (size (dom g_scores)) - 1) * K;
  reopen_relax_within : dom g_scores ⊆ all_nodes g
}.

(** A heuristic that is admissible for the goal B of [line] and not
    consistent: it drops by 3 along the edge of cost 1 from S to A. *)
Definition steep_heuristics : gmap string Z := {["S" := 3]}.

(** A heuristic for the goal C of [triangle] that is consistent: the cost
    of the cheapest way to C, 0 where it lists no value. *)
Definition descending_heuristics : gmap string Z := {["A" := 2; "B" := 1]}.

(** The same game with the children of every node put in another order:
    [reorder] may be any rearrangement of a list of children. *)
Fixpoint shuffle (reorder : list minimax.GameNode → list minimax.GameNode)
    (node : minimax.GameNode) : minimax.GameNode :=
  minimax.mkGameNode (minimax.name node) (minimax.player node)
    (reorder (map (shuffle reorder) (minimax.children node)))
    (minimax.utility node).

Definition rearrangement (reorder : list minimax.GameNode → list minimax.GameNode)
  : Prop := ∀ l, reorder l ≡ₚ l.
(** * Part II: properties *)

(** Decides a closed proposition by evaluation of its decision procedure. *)
Ltac by_compute :=
  match goal with
  | |- ?P => apply (bool_decide_unpack P); vm_compute; exact I
  end.

(**

    ** The weighted adjacency *)

Section weighted_adjacency.
Implicit Types (wa : gmap string (list (string * Z))) (l : list (string * Z)).

Lemma any_neighbor_spec y l : any_neighbor y l = true ↔ y ∈ l.*1.
Proof.
  unfold any_neighbor. rewrite existsb_exists, list_elem_of_fmap.
  split.
  - intros [p [Hin Hp]]. apply bool_decide_eq_true in Hp.
    exists p. split; [done|]. by apply list_elem_of_In.
  - intros [p [-> Hin]]. exists p. split; [by apply list_elem_of_In|].
    by apply bool_decide_eq_true.
Qed.

Lemma nbrs_init_weighted k wa x : nbrs (init_weighted k wa) x = nbrs wa x.
Proof.
  unfold nbrs, init_weighted. destruct (wa !! k) eqn:Hk; [done|].
  destruct (decide (k = x)) as [->|Hne].
  - by rewrite lookup_insert_eq, Hk.
  - by rewrite lookup_insert_ne.
Qed.

Lemma nbrs_link_weighted x y c wa z :
  nbrs (link_weighted x y c wa) z =
    if bool_decide (z = x ∧ y ∉ (nbrs wa x).*1)
    then nbrs wa x ++ [(y, c)] else nbrs wa z.
Proof.
  unfold link_weighted. fold (nbrs wa x).
  destruct (any_neighbor y (nbrs wa x)) eqn:Hany.
  - apply any_neighbor_spec in Hany.
    rewrite bool_decide_eq_false_2; [done|]. naive_solver.
  - assert (y ∉ (nbrs wa x).*1) as Hnin.
    { intros Hin%any_neighbor_spec. congruence. }
    case_bool_decide as Hz.
    + destruct Hz as [-> _]. unfold nbrs at 1. by rewrite lookup_insert_eq.
    + unfold nbrs at 1. rewrite lookup_insert_ne; [done|]. naive_solver.
Qed.

Lemma get_weighted_neighbors_add a b c g z :
  get_weighted_neighbors (add_weighted_edge a b c g) z =
    nbrs (link_weighted b a c
            (link_weighted a b c (weighted_adjacency g))) z.
Proof.
  unfold get_weighted_neighbors, add_weighted_edge. simpl.
  change (default [] (?m !! z)) with (nbrs m z).
  rewrite !nbrs_link_weighted, !nbrs_init_weighted.
  repeat case_bool_decide; try done; naive_solver.
Qed.
End weighted_adjacency.

(** *** Invariants of the graphs built by [add_weighted_edge] *)

Lemma symmetric_costs_fst g a b :
  symmetric_costs g →
  b ∈ (get_weighted_neighbors g a).*1 → a ∈ (get_weighted_neighbors g b).*1.
Proof.
  intros Hsym [[b' c] [Hb Hin]]%list_elem_of_fmap. simpl in Hb. subst b'.
  apply list_elem_of_fmap. exists (a, c). split; [done|]. by apply Hsym.
Qed.

(** The lists after one call, when the called-on graph is symmetric. *)
Lemma add_weighted_edge_lists g a b c z :
  symmetric_costs g →
  get_weighted_neighbors (add_weighted_edge a b c g) z =
    get_weighted_neighbors g z ++
      (if bool_decide (b ∈ (get_weighted_neighbors g a).*1) then []
       else (if bool_decide (z = a) then [(b, c)] else []) ++
            (if bool_decide (z = b ∧ a ≠ b) then [(a, c)] else [])).
Proof.
  intros Hsym. rewrite get_weighted_neighbors_add, !nbrs_link_weighted.
  change (nbrs (weighted_adjacency g)) with (get_weighted_neighbors g).
  pose proof (symmetric_costs_fst g a b Hsym) as Hab.
  pose proof (symmetric_costs_fst g b a Hsym) as Hba.
  destruct (decide (a = b)) as [->|Hne].
  - repeat case_bool_decide; simplify_eq; simpl;
      rewrite ?app_nil_r, ?fmap_app in *; try done; set_solver.
  - repeat case_bool_decide; simplify_eq; simpl;
      rewrite ?app_nil_r, ?fmap_app in *; try done; try naive_solver.
Qed.

Lemma add_weighted_edge_symmetric g a b c :
  symmetric_costs g → symmetric_costs (add_weighted_edge a b c g).
Proof.
  intros Hsym x y k.
  rewrite !add_weighted_edge_lists by done.
  specialize (Hsym x y k).
  repeat case_bool_decide; simplify_eq; simpl;
    rewrite ?app_nil_r, ?elem_of_app, ?list_elem_of_singleton;
    naive_solver.
Qed.

Lemma add_weighted_edge_simple g a b c :
  symmetric_costs g → simple_lists g → simple_lists (add_weighted_edge a b c g).
Proof.
  intros Hsym Hnd x. specialize (Hnd x).
  rewrite add_weighted_edge_lists by done.
  pose proof (symmetric_costs_fst g b a Hsym) as Hba.
  repeat case_bool_decide; destruct_and?; simplify_eq; simpl;
    rewrite ?app_nil_r, ?fmap_app; try done;
    (apply NoDup_app; split_and!; [done| |]; simpl;
      [intros ? ? ?%list_elem_of_singleton; naive_solver
      |apply NoDup_singleton]).
Qed.

Lemma symmetric_costs_empty : symmetric_costs empty_weighted_graph.
Proof.
  intros a b c. unfold get_weighted_neighbors. simpl.
  rewrite !lookup_empty. simpl. split; intros H; by apply not_elem_of_nil in H.
Qed.

Lemma simple_lists_empty : simple_lists empty_weighted_graph.
Proof.
  intros a. unfold get_weighted_neighbors. simpl.
  rewrite lookup_empty. apply NoDup_nil_2.
Qed.

Lemma built_symmetric g : built g → symmetric_costs g.
Proof.
  induction 1 as [|g a b c _ IH]; [apply symmetric_costs_empty|].
  by apply add_weighted_edge_symmetric.
Qed.

Lemma built_simple g : built g → simple_lists g.
Proof.
  induction 1 as [|g a b c Hb IH]; [apply simple_lists_empty|].
  apply add_weighted_edge_simple; [by apply built_symmetric|done].
Qed.

(** Re-adding an edge between two linked nodes changes no list at all. *)
Lemma add_weighted_edge_again g a b c z :
  symmetric_costs g →
  b ∈ (get_weighted_neighbors g a).*1 →
  get_weighted_neighbors (add_weighted_edge a b c g) z = get_weighted_neighbors g z.
Proof.
  intros Hsym Hin. rewrite add_weighted_edge_lists by done.
  rewrite bool_decide_eq_true_2 by done. apply app_nil_r.
Qed.

Lemma dom_init_weighted k (wa : gmap string (list (string * Z))) :
  dom (init_weighted k wa) = {[k]} ∪ dom wa.
Proof.
  unfold init_weighted. destruct (wa !! k) eqn:Hk.
  - apply elem_of_dom_2 in Hk. set_solver.
  - by rewrite dom_insert_L.
Qed.

Lemma dom_link_weighted x y c (wa : gmap string (list (string * Z))) :
  x ∈ dom wa → dom (link_weighted x y c wa) = dom wa.
Proof.
  intros Hx. unfold link_weighted. destruct (any_neighbor _ _); [done|].
  rewrite dom_insert_L. set_solver.
Qed.

Lemma dom_add_node k g : dom (adjacency_list (add_node k g)) = {[k]} ∪ dom (adjacency_list g).
Proof.
  unfold add_node. destruct (adjacency_list g !! k) eqn:Hk; simpl.
  - apply elem_of_dom_2 in Hk. set_solver.
  - by rewrite dom_insert_L.
Qed.

Lemma dom_link x y g :
  x ∈ dom (adjacency_list g) → dom (adjacency_list (link x y g)) = dom (adjacency_list g).
Proof.
  intros Hx. unfold link. case_bool_decide; [done|]. simpl.
  rewrite dom_insert_L. set_solver.
Qed.

Lemma dom_add_edge a b g :
  dom (adjacency_list (add_edge a b g)) = {[a; b]} ∪ dom (adjacency_list g).
Proof.
  unfold add_edge.
  assert (dom (adjacency_list (link a b (add_node b (add_node a g))))
            = {[a; b]} ∪ dom (adjacency_list g)) as Hdom.
  { rewrite dom_link; rewrite !dom_add_node; set_solver. }
  rewrite dom_link; rewrite Hdom; set_solver.
Qed.

Lemma dom_add_weighted_edge a b c g :
  dom (weighted_adjacency (add_weighted_edge a b c g))
    = {[a; b]} ∪ dom (weighted_adjacency g).
Proof.
  unfold add_weighted_edge. simpl.
  assert (dom (link_weighted a b c
                 (init_weighted b (init_weighted a (weighted_adjacency g))))
            = {[a; b]} ∪ dom (weighted_adjacency g)) as Hdom.
  { rewrite dom_link_weighted; rewrite !dom_init_weighted; set_solver. }
  rewrite dom_link_weighted; rewrite Hdom; set_solver.
Qed.

(** The two adjacencies of a built graph list the same nodes. *)
Lemma built_dom g :
  built g → dom (weighted_adjacency g) = dom (adjacency_list (base g)).
Proof.
  induction 1 as [|g a b c _ IH]; [simpl; by rewrite !dom_empty_L|].
  rewrite dom_add_weighted_edge, IH. simpl. by rewrite dom_add_edge.
Qed.

(** C6. In a weighted graph built by calls of [add_weighted_edge]: the
    weighted adjacency is symmetric with the same cost in both directions;
    no neighbour occurs twice in the list of a node; and a further call on
    two nodes that already have an edge, whatever its cost, leaves the lists
    of both nodes as they were. *)
Theorem add_weighted_edge_invariants g :
  built g →
  (∀ a b c, (b, c) ∈ get_weighted_neighbors g a ↔ (a, c) ∈ get_weighted_neighbors g b) ∧
  (∀ a, NoDup (get_weighted_neighbors g a).*1) ∧
  (∀ a b c', b ∈ (get_weighted_neighbors g a).*1 →
     get_weighted_neighbors (add_weighted_edge a b c' g) a = get_weighted_neighbors g a ∧
     get_weighted_neighbors (add_weighted_edge a b c' g) b = get_weighted_neighbors g b).
Proof.
  intros Hbuilt. split_and!.
  - by apply built_symmetric.
  - by apply built_simple.
  - intros a b c' Hin.
    split; apply add_weighted_edge_again; [|done| |done]; by apply built_symmetric.
Qed.

Lemma add_weighted_edge_invariants_witness :
  (∀ a b c, (b, c) ∈ get_weighted_neighbors triangle a
            ↔ (a, c) ∈ get_weighted_neighbors triangle b) ∧
  (∀ a, NoDup (get_weighted_neighbors triangle a).*1) ∧
  (∀ a b c', b ∈ (get_weighted_neighbors triangle a).*1 →
     get_weighted_neighbors (add_weighted_edge a b c' triangle) a
       = get_weighted_neighbors triangle a ∧
     get_weighted_neighbors (add_weighted_edge a b c' triangle) b
       = get_weighted_neighbors triangle b).
Proof.
  apply (add_weighted_edge_invariants triangle).
  unfold triangle. repeat apply built_add. apply built_empty.
Defined.

(** The first cost stays: the edge from A to C costs 5 after a second call
    with cost 1. *)
Example add_weighted_edge_first_wins :
  get_weighted_neighbors (add_weighted_edge "A" "C" 1 triangle) "A"
    = [("B", 1); ("C", 5)] ∧
  get_cost (add_weighted_edge "C" "A" 1 triangle) "C" "A" = Some 5.
Proof. split; vm_compute; reflexivity. Qed.

(** ** Minimax: backward induction *)

Section minimax_proofs.
Import minimax minimax.MiniMax.

(** Induction on game trees, with the hypothesis on every child. *)
Lemma GameNode_children_ind (P : GameNode → Prop) :
  (∀ n p cs u, Forall P cs → P (mkGameNode n p cs u)) → ∀ node, P node.
Proof.
  intros step. fix IH 1. intros [n p cs u]. apply step.
  induction cs as [|c cs IHcs]; constructor; [apply IH|apply IHcs].
Qed.

Lemma fold_left_fmap {A B C} (f : A → B) (g : C → B → C) (l : list A) (c : C) :
  fold_left (λ acc x, g acc (f x)) l c = fold_left g (map f l) c.
Proof. revert c. induction l as [|x l IH]; intros c; simpl; [done|apply IH]. Qed.

(** *** A loop that keeps the strictly better result *)

Section strict_order.
Variable ltb : value → value → bool.
Hypothesis ltb_irrefl : ∀ a, ltb a a = false.
Hypothesis ltb_trans : ∀ a b c, ltb a b = true → ltb b c = true → ltb a c = true.
Hypothesis ltb_total : ∀ a b, ltb a b = false → ltb b a = false → a = b.

Lemma ltb_asym a b : ltb a b = true → ltb b a = false.
Proof.
  intros Hab. destruct (ltb b a) eqn:Hba; [|done].
  by rewrite <-(ltb_irrefl a), (ltb_trans a b a).
Qed.

Lemma pick_assoc a b c : pick ltb (pick ltb a b) c = pick ltb a (pick ltb b c).
Proof.
  unfold pick.
  destruct (ltb a b) eqn:Hab, (ltb b c) eqn:Hbc; rewrite ?Hab, ?Hbc; try done.
  - by rewrite (ltb_trans a b c).
  - destruct (ltb a c) eqn:Hac; [|done].
    destruct (ltb c b) eqn:Hcb.
    + by rewrite (ltb_trans a c b) in Hab.
    + rewrite (ltb_total b c) in Hab by done. congruence.
Qed.

Lemma fold_left_pick bot l a :
  (∀ x, ltb x bot = false) →
  fold_left (pick ltb) l a = pick ltb a (foldr (pick ltb) bot l).
Proof.
  intros Hbot. revert a. induction l as [|x l IH]; intros a; simpl.
  - unfold pick. by rewrite Hbot.
  - by rewrite IH, pick_assoc.
Qed.

Lemma fold_left_best_step_fst rs init :
  (fold_left (best_step ltb) rs init).1 = fold_left (pick ltb) rs.*1 init.1.
Proof.
  revert init. induction rs as [|r rs IH]; intros init; simpl; [done|].
  rewrite IH. f_equal. unfold best_step, pick. by destruct (ltb _ _).
Qed.

Lemma fold_left_pick_ge l a : ltb (fold_left (pick ltb) l a) a = false.
Proof.
  revert a. induction l as [|x l IH]; intros a; simpl; [apply ltb_irrefl|].
  specialize (IH (pick ltb a x)). unfold pick in *.
  destruct (ltb a x) eqn:Hax; [|done].
  destruct (ltb (fold_left (pick ltb) l x) a) eqn:Hlt; [|done].
  by rewrite (ltb_trans _ a x) in IH.
Qed.

Lemma fold_left_pick_elem l a :
  fold_left (pick ltb) l a = a ∨ fold_left (pick ltb) l a ∈ l.
Proof.
  revert a. induction l as [|x l IH]; intros a; simpl; [by left|].
  destruct (IH (pick ltb a x)) as [Heq|Hin].
  - rewrite Heq. unfold pick. destruct (ltb a x); [right; left|by left].
  - right. by right.
Qed.

Lemma find_value_is_Some (rs : list (value * list string)) m :
  m ∈ rs.*1 → is_Some (List.find (λ r, bool_decide (r.1 = m)) rs).
Proof.
  induction rs as [|r rs IH]; simpl; [by intros ?%not_elem_of_nil|].
  intros Hin. case_bool_decide as Hr; [done|].
  apply IH. apply elem_of_cons in Hin as [Heq|Hin]; [by subst m|done].
Qed.

(** The loop returns the first result that carries the greatest value, or
    the initial one when no result beats it. *)
Lemma fold_left_best_step_first rs init :
  let m := fold_left (pick ltb) rs.*1 init.1 in
  fold_left (best_step ltb) rs init =
    if ltb init.1 m
    then default init (List.find (λ r, bool_decide (r.1 = m)) rs)
    else init.
Proof.
  revert init. induction rs as [|r rs IH]; intros init; simpl.
  { by rewrite ltb_irrefl. }
  rewrite IH. clear IH.
  pose proof (fold_left_pick_ge rs.*1 (pick ltb init.1 r.1)) as Hge.
  assert ((best_step ltb init r).1 = pick ltb init.1 r.1) as ->.
  { unfold best_step, pick. by destruct (ltb init.1 r.1). }
  change (list_fmap _ _ fst rs) with (rs.*1).
  set (m := fold_left (pick ltb) rs.*1 (pick ltb init.1 r.1)) in *.
  unfold best_step, pick in *.
  destruct (ltb init.1 r.1) eqn:Hir.
  - destruct (ltb r.1 m) eqn:Hrm.
    + rewrite (ltb_trans _ _ _ Hir Hrm).
      rewrite bool_decide_eq_false_2; [|intros Heq; by rewrite Heq, ltb_irrefl in Hrm].
      destruct (find_value_is_Some rs m) as [r' ->]; [|done].
      destruct (fold_left_pick_elem rs.*1 r.1) as [Heq|Hin]; [|done].
      change (fold_left (pick ltb) rs.*1 r.1) with m in Heq.
      by rewrite Heq, ltb_irrefl in Hrm.
    + assert (r.1 = m) as Hm by (by apply ltb_total).
      rewrite <-Hm, Hir. by rewrite bool_decide_eq_true_2.
  - destruct (ltb init.1 m) eqn:Him; [|done].
    rewrite bool_decide_eq_false_2; [done|].
    intros Heq. by rewrite Heq, Him in Hir.
Qed.
End strict_order.

(** *** The two orders of the code *)

Lemma value_ltb_irrefl a : value_ltb a a = false.
Proof. destruct a; simpl; try done. apply bool_decide_eq_false. lia. Qed.

Lemma value_ltb_trans a b c :
  value_ltb a b = true → value_ltb b c = true → value_ltb a c = true.
Proof.
  destruct a, b, c; simpl; try done.
  rewrite !bool_decide_eq_true. lia.
Qed.

Lemma value_ltb_total a b : value_ltb a b = false → value_ltb b a = false → a = b.
Proof.
  destruct a, b; simpl; try done.
  rewrite !bool_decide_eq_false. intros. f_equal. lia.
Qed.

Lemma value_gtb_irrefl a : value_gtb a a = false.
Proof. apply value_ltb_irrefl. Qed.

Lemma value_gtb_trans a b c :
  value_gtb a b = true → value_gtb b c = true → value_gtb a c = true.
Proof. unfold value_gtb. intros. by apply (value_ltb_trans c b a). Qed.

Lemma value_gtb_total a b : value_gtb a b = false → value_gtb b a = false → a = b.
Proof. unfold value_gtb. intros. by apply value_ltb_total. Qed.

Lemma value_ltb_NegInf x : value_ltb x NegInf = false.
Proof. by destruct x. Qed.

Lemma value_gtb_PosInf x : value_gtb x PosInf = false.
Proof. by destruct x. Qed.

(** *** [_minimax] unfolded at the two kinds of node *)

Lemma _minimax_terminal n p cs u path :
  _minimax (mkGameNode n p cs (Some u)) path = (Fin u, path ++ [n]).
Proof. done. Qed.

Lemma _minimax_MAX n cs path :
  _minimax (mkGameNode n MAX cs None) path =
    fold_left (best_step value_ltb)
      (map (λ c, _minimax c (path ++ [n])) cs) (NegInf, path ++ [n]).
Proof. simpl. apply fold_left_fmap. Qed.

Lemma _minimax_MIN n cs path :
  _minimax (mkGameNode n MIN cs None) path =
    fold_left (best_step value_gtb)
      (map (λ c, _minimax c (path ++ [n])) cs) (PosInf, path ++ [n]).
Proof. simpl. apply (fold_left_fmap _ min_step). Qed.

(** The value [_minimax] returns is the backward-induction value. *)
Lemma _minimax_value node : ∀ path, (_minimax node path).1 = backward_induction node.
Proof.
  induction node as [n p cs u IH] using GameNode_children_ind. intros path.
  destruct u as [u|]; [done|].
  assert (∀ q, (map (λ c, _minimax c q) cs).*1 = map backward_induction cs) as Hmap.
  { intros q. rewrite <-list_fmap_compose. apply Forall_fmap_ext.
    eapply Forall_impl; [exact IH|]. intros c Hc. apply Hc. }
  destruct p.
  - rewrite _minimax_MAX, fold_left_best_step_fst, Hmap. simpl.
    rewrite (fold_left_pick _ value_ltb_trans value_ltb_total NegInf)
      by apply value_ltb_NegInf.
    unfold value_max. by destruct (foldr _ _ _).
  - rewrite _minimax_MIN, fold_left_best_step_fst, Hmap. simpl.
    rewrite (fold_left_pick _ value_gtb_trans value_gtb_total PosInf)
      by apply value_gtb_PosInf.
    unfold value_min. by destruct (foldr _ _ _).
Qed.
Lemma find_fmap_value (f : GameNode → value * list string) (cs : list GameNode) m :
  Forall (λ c, (f c).1 = backward_induction c) cs →
  List.find (λ r, bool_decide (r.1 = m)) (map f cs) = f <$> first_with_value m cs.
Proof.
  unfold first_with_value.
  induction 1 as [|c cs Hc _ IH]; simpl; [done|].
  rewrite Hc. by case_bool_decide.
Qed.

Lemma foldr_value_max_Fin (l : list value) :
  l ≠ [] → Forall (λ v, ∃ z, v = Fin z) l → ∃ z, foldr value_max NegInf l = Fin z.
Proof.
  induction l as [|v l IH]; [done|]. intros _ Hall.
  apply Forall_cons in Hall as [[z ->] Hall]. simpl.
  destruct l as [|w l]; [by exists z|].
  destruct IH as [z' ->]; [done..|].
  unfold value_max, pick. simpl. case_bool_decide; eauto.
Qed.

Lemma foldr_value_min_Fin (l : list value) :
  l ≠ [] → Forall (λ v, ∃ z, v = Fin z) l → ∃ z, foldr value_min PosInf l = Fin z.
Proof.
  induction l as [|v l IH]; [done|]. intros _ Hall.
  apply Forall_cons in Hall as [[z ->] Hall]. simpl.
  destruct l as [|w l]; [by exists z|].
  destruct IH as [z' ->]; [done..|].
  unfold value_min, pick, value_gtb. simpl. case_bool_decide; eauto.
Qed.

(** In a tree whose leaves are terminal every value is an integer. *)
Lemma leaves_terminal_Fin node :
  leaves_terminal node = true → ∃ z, backward_induction node = Fin z.
Proof.
  induction node as [n p cs u IH] using GameNode_children_ind.
  destruct u as [u|]; [by exists u|]. simpl.
  destruct cs as [|c cs]; [done|]. intros Hall.
  change (forallb leaves_terminal (c :: cs) = true) in Hall.
  rewrite forallb_forall in Hall.
  assert (Forall (λ v, ∃ z, v = Fin z) (map backward_induction (c :: cs))) as HFin.
  { apply Forall_fmap. apply Forall_forall. intros c' Hc'.
    rewrite Forall_forall in IH. apply (IH c' Hc').
    apply Hall. by apply list_elem_of_In. }
  destruct p; [by apply foldr_value_max_Fin|by apply foldr_value_min_Fin].
Qed.

(** A node without utility whose value is not the one its loop starts
    from returns what its first child of that value returns. *)
Lemma _minimax_first_child n p cs path :
  let node := mkGameNode n p cs None in
  backward_induction node ≠ (match p with MAX => NegInf | MIN => PosInf end) →
  ∃ c, first_with_value (backward_induction node) cs = Some c ∧
       _minimax node path = _minimax c (path ++ [n]).
Proof.
  intros node Hne.
  pose proof (_minimax_value node path) as Hval.
  assert (Forall (λ c, (_minimax c (path ++ [n])).1 = backward_induction c) cs) as Hcs.
  { apply Forall_forall. intros c _. apply _minimax_value. }
  set (v := backward_induction node) in *. clearbody v. subst node.
  destruct p.
  - rewrite _minimax_MAX in *.
    rewrite (fold_left_best_step_first _ value_ltb_irrefl value_ltb_trans value_ltb_total).
    rewrite fold_left_best_step_fst in Hval. cbv zeta. rewrite Hval.
    rewrite (find_fmap_value _ _ _ Hcs).
    change ((NegInf, path ++ [n]).1) with NegInf in *.
    destruct (fold_left_pick_elem value_ltb
                (map (λ c, _minimax c (path ++ [n])) cs).*1 NegInf) as [Heq|Hin];
      [congruence|].
    rewrite Hval in Hin.
    apply find_value_is_Some in Hin as [r Hr].
    rewrite (find_fmap_value _ _ _ Hcs) in Hr.
    destruct (first_with_value v cs) as [c|] eqn:Hc; [|done].
    exists c. split; [done|]. by destruct v.
  - rewrite _minimax_MIN in *.
    rewrite (fold_left_best_step_first _ value_gtb_irrefl value_gtb_trans value_gtb_total).
    rewrite fold_left_best_step_fst in Hval. cbv zeta. rewrite Hval.
    rewrite (find_fmap_value _ _ _ Hcs).
    change ((PosInf, path ++ [n]).1) with PosInf in *.
    destruct (fold_left_pick_elem value_gtb
                (map (λ c, _minimax c (path ++ [n])) cs).*1 PosInf) as [Heq|Hin];
      [congruence|].
    rewrite Hval in Hin.
    apply find_value_is_Some in Hin as [r Hr].
    rewrite (find_fmap_value _ _ _ Hcs) in Hr.
    destruct (first_with_value v cs) as [c|] eqn:Hc; [|done].
    exists c. split; [done|]. by destruct v.
Qed.

(** C4. [MiniMax.search] returns the backward-induction value of the root
    (the utility at a terminal node, the maximum of the children's values at
    a MAX node, the minimum at a MIN node). In a tree whose leaves are all
    terminal, a node without utility returns the result of its first child,
    in declared order, that has the node's value: later children of equal
    value do not replace it. A MAX root over two terminal children of
    utilities 3 and 7, in either order, yields 7 and the path from the root
    to the child of utility 7. *)
Theorem minimax_backward_induction :
  (∀ root, best_value (search root) = backward_induction root) ∧
  (∀ node path,
     utility node = None → leaves_terminal node = true →
     ∃ c, first_with_value (backward_induction node) (children node) = Some c ∧
          _minimax node path = _minimax c (path ++ [name node])) ∧
  (∀ r a b pa pb,
     search (mkGameNode r MAX
               [mkGameNode a pa [] (Some 3); mkGameNode b pb [] (Some 7)] None)
       = mkMiniMaxResult (Fin 7) [r; b] ∧
     search (mkGameNode r MAX
               [mkGameNode b pb [] (Some 7); mkGameNode a pa [] (Some 3)] None)
       = mkMiniMaxResult (Fin 7) [r; b]).
Proof.
  split_and!.
  - intros root. unfold search.
    pose proof (_minimax_value root []) as Hval.
    by destruct (_minimax root []).
  - intros [n p cs u] path Hu Hleaves. simpl in Hu. subst u.
    apply _minimax_first_child.
    destruct (leaves_terminal_Fin _ Hleaves) as [z Hz].
    intros Hv. simpl in Hv, Hz. rewrite Hv in Hz. by destruct p.
  - intros r a b pa pb. done.
Qed.

(** The tree of the repository: the value 8 is reached first through
    Gedo, and below Gimbi-Limu through Gimbi, the first of two leaves of
    utility 8. *)
Lemma minimax_backward_induction_witness :
  ∃ c, first_with_value (backward_induction ethiopia_adversarial_game)
         (children ethiopia_adversarial_game) = Some c ∧
       _minimax ethiopia_adversarial_game []
         = _minimax c ([] ++ [name ethiopia_adversarial_game]).
Proof.
  apply (proj1 (proj2 minimax_backward_induction) ethiopia_adversarial_game []);
    reflexivity.
Defined.

Example ethiopia_adversarial_game_search :
  search ethiopia_adversarial_game =
    mkMiniMaxResult (Fin 8) ["Addis Ababa"; "Gedo"; "Gimbi-Limu"; "Gimbi"].
Proof. reflexivity. Qed.

(** C10. A node without utility and without children is evaluated without
    failure: a MAX node to minus infinity, a MIN node to plus infinity, with
    a path that ends at the node itself. So the path [search] returns can end
    at a node that carries no utility: below a MIN root, a childless MAX node
    beats a terminal node of utility 5. *)
Theorem minimax_childless_nonterminal :
  (∀ n path, _minimax (mkGameNode n MAX [] None) path = (NegInf, path ++ [n])) ∧
  (∀ n path, _minimax (mkGameNode n MIN [] None) path = (PosInf, path ++ [n])) ∧
  (∀ n, search (mkGameNode n MAX [] None) = mkMiniMaxResult NegInf [n]) ∧
  (∀ n, search (mkGameNode n MIN [] None) = mkMiniMaxResult PosInf [n]) ∧
  (∀ r a x p,
     search (mkGameNode r MIN
               [mkGameNode a p [] (Some 5); mkGameNode x MAX [] None] None)
       = mkMiniMaxResult NegInf [r; x]).
Proof. split_and!; intros; reflexivity. Qed.

End minimax_proofs.

(** ** The priority queue *)

Section heappop.
Context {A : Type} (ltb : A → A → bool).

Lemma heappop_None pq : heappop ltb pq = None ↔ pq = [].
Proof.
  destruct pq as [|item pq]; [done|]. simpl.
  destruct (heappop ltb pq) as [[least rest]|]; [|done].
  by destruct (ltb least item).
Qed.

Lemma heappop_Permutation pq least rest :
  heappop ltb pq = Some (least, rest) → pq ≡ₚ least :: rest.
Proof.
  revert least rest. induction pq as [|item pq IH]; intros least rest; [done|].
  simpl. destruct (heappop ltb pq) as [[least' rest']|] eqn:Hpop.
  - destruct (ltb least' item); intros [= <- <-]; [|done].
    rewrite (IH _ _ eq_refl). apply Permutation_swap.
  - apply heappop_None in Hpop as ->. by intros [= <- <-].
Qed.

Lemma heappop_elem_of pq least rest x :
  heappop ltb pq = Some (least, rest) → x ∈ pq ↔ x = least ∨ x ∈ rest.
Proof. intros ->%heappop_Permutation. apply elem_of_cons. Qed.

Lemma heappop_length pq least rest :
  heappop ltb pq = Some (least, rest) → length pq = S (length rest).
Proof. by intros ->%heappop_Permutation. Qed.

(** The popped element has the least key, for every key the order refines. *)
Lemma heappop_least (key : A → Z) pq least rest :
  (∀ a b, ltb a b = true → key a ≤ key b) →
  (∀ a b, ltb a b = false → key b ≤ key a) →
  heappop ltb pq = Some (least, rest) →
  ∀ x, x ∈ pq → key least ≤ key x.
Proof.
  intros Hlt Hge. revert least rest.
  induction pq as [|item pq IH]; intros least rest; [done|].
  simpl. destruct (heappop ltb pq) as [[least' rest']|] eqn:Hpop.
  - specialize (IH _ _ eq_refl).
    destruct (ltb least' item) eqn:Hcmp; intros [= <- <-] x [->|Hx]%elem_of_cons.
    + by apply Hlt.
    + by apply IH.
    + lia.
    + specialize (IH x Hx). apply Hge in Hcmp. lia.
  - apply heappop_None in Hpop as ->.
    intros [= <- <-] x [->|Hx]%elem_of_cons; [lia|by apply not_elem_of_nil in Hx].
Qed.
End heappop.

(** ** Walks *)

Lemma walk_head g s p t c : walk g s p t c → head p = Some s.
Proof. induction 1 as [|p v c w e _ IH _]; [done|]. by destruct p. Qed.

Lemma walk_last g s p t c : walk g s p t c → last p = Some t.
Proof. destruct 1; [done|apply last_snoc]. Qed.

Lemma nonnegative_edge g v w e :
  nonnegative g → (w, e) ∈ get_weighted_neighbors g v → 0 ≤ e.
Proof.
  unfold nonnegative, get_weighted_neighbors. intros Hnn Hin.
  destruct (weighted_adjacency g !! v) as [l|] eqn:Hl; simpl in Hin.
  - apply Hnn in Hl. rewrite Forall_forall in Hl. apply (Hl _ Hin).
  - by apply not_elem_of_nil in Hin.
Qed.

Lemma walk_nonneg g s p t c : nonnegative g → walk g s p t c → 0 ≤ c.
Proof.
  intros Hnn. induction 1 as [|p v c w e _ IH He]; [done|].
  pose proof (nonnegative_edge _ _ _ _ Hnn He). lia.
Qed.

(** Consecutive nodes of a walk are joined by a stored edge. *)
Lemma walk_edges g s p t c (i : nat) u w :
  walk g s p t c → p !! i = Some u → p !! S i = Some w →
  ∃ e, (w, e) ∈ get_weighted_neighbors g u.
Proof.
  intros Hwalk. revert i u w.
  induction Hwalk as [|p v c w' e Hw IH He]; intros i u w Hu Hw'.
  { by destruct i. }
  pose proof (walk_last _ _ _ _ _ Hw) as Hlast.
  rewrite last_lookup in Hlast.
  assert (length p ≠ 0)%nat as Hlen.
  { destruct p; [by apply walk_head in Hw|done]. }
  destruct (decide (S i < length p)%nat) as [Hlt|Hge].
  - rewrite lookup_app_l in Hu, Hw' by lia. by eapply IH.
  - assert (S i = length p) as Hi.
    { apply lookup_lt_Some in Hw'. rewrite length_app in Hw'. simpl in Hw'. lia. }
    rewrite lookup_app_l in Hu by lia.
    rewrite Hi, lookup_app_r, Nat.sub_diag in Hw' by lia. simpl in Hw'.
    replace (pred (length p)) with i in Hlast by lia.
    simplify_eq. by exists e.
Qed.

Lemma walk_trans g s p t c q u d :
  walk g s p t c → walk g t q u d → walk g s (p ++ tail q) u (c + d).
Proof.
  intros Hp. induction 1 as [|q v d w e Hq IH He].
  - simpl. by rewrite app_nil_r, Z.add_0_r.
  - replace (tail (q ++ [w])) with (tail q ++ [w]).
    + rewrite app_assoc, Z.add_assoc. by eapply walk_step.
    + destruct q; [by apply walk_head in Hq|done].
Qed.

(** ** Counting the stored edges *)

Lemma edge_count_delete wa v :
  edge_count wa = (length (nbrs wa v) + edge_count (delete v wa))%nat.
Proof.
  unfold edge_count, nbrs. destruct (wa !! v) as [l|] eqn:Hv; simpl.
  - apply (map_fold_delete_L (λ _ l acc, (length l + acc)%nat)); [|done].
    intros; lia.
  - by rewrite delete_id.
Qed.

Lemma open_edges_close wa closed v :
  open_edges wa ({[v]} ∪ closed) = delete v (open_edges wa closed).
Proof.
  apply map_eq. intros u. unfold open_edges.
  destruct (decide (u = v)) as [->|Hne].
  - rewrite lookup_delete_eq. apply map_lookup_filter_None. right.
    intros l _. simpl. set_solver.
  - rewrite lookup_delete_ne by done.
    destruct (wa !! u) as [l|] eqn:Hu.
    + destruct (decide (u ∈ closed)) as [Hin|Hnin].
      * transitivity (@None (list (string * Z))); [|symmetry];
          apply map_lookup_filter_None; right; intros l' _; simpl; set_solver.
      * transitivity (Some l); [|symmetry];
          apply map_lookup_filter_Some; (split; [done|simpl; set_solver]).
    + transitivity (@None (list (string * Z))); [|symmetry];
        apply map_lookup_filter_None; by left.
Qed.

Lemma nbrs_open_edges wa closed v :
  v ∉ closed → nbrs (open_edges wa closed) v = nbrs wa v.
Proof.
  intros Hv. unfold nbrs, open_edges.
  destruct (wa !! v) as [l|] eqn:Hl.
  - by rewrite (proj2 (map_lookup_filter_Some _ _ _ _) (conj Hl Hv)).
  - by rewrite (proj2 (map_lookup_filter_None _ _ _) (or_introl Hl)).
Qed.

(** Closing a node removes its stored edges from the open ones. *)
Lemma edge_count_close wa closed v :
  v ∉ closed →
  edge_count (open_edges wa closed) =
    (length (nbrs wa v) + edge_count (open_edges wa ({[v]} ∪ closed)))%nat.
Proof.
  intros Hv. rewrite open_edges_close, (edge_count_delete _ v).
  by rewrite nbrs_open_edges.
Qed.

Lemma edge_count_open_empty wa : open_edges wa ∅ = wa.
Proof.
  apply map_eq. intros u. unfold open_edges.
  destruct (wa !! u) as [l|] eqn:Hu.
  - apply map_lookup_filter_Some. split; [done|]. simpl. set_solver.
  - apply map_lookup_filter_None. by left.
Qed.

(** ** Uniform-cost search *)

Section ucs_proofs.
Import ucs ucs.UniformCostSearch.

Lemma entry_ltb_cost_true a b : entry_ltb a b = true → entry_cost a ≤ entry_cost b.
Proof.
  unfold entry_ltb. case_bool_decide as Hc; [lia|].
  intros ?%bool_decide_eq_true. lia.
Qed.

Lemma entry_ltb_cost_false a b : entry_ltb a b = false → entry_cost b ≤ entry_cost a.
Proof.
  unfold entry_ltb. case_bool_decide as Hc; [lia|].
  intros ?%bool_decide_eq_false. lia.
Qed.

Lemma push_neighbors_spec neighbors visited c p :
  ∀ counter pq counter' pq',
  push_neighbors neighbors visited c p counter pq = (counter', pq') →
  (∀ e, e ∈ pq' → e ∈ pq ∨
     ∃ w k, (w, k) ∈ neighbors ∧ (w ∉ dom visited) ∧
            entry_cost e = c + k ∧ entry_city e = w ∧ entry_path e = p ++ [w]) ∧
  (∀ e, e ∈ pq → e ∈ pq') ∧
  (∀ w k, (w, k) ∈ neighbors → w ∉ dom visited →
     ∃ e, e ∈ pq' ∧ entry_city e = w ∧ entry_cost e = c + k) ∧
  (length pq' ≤ length pq + length neighbors)%nat.
Proof.
  induction neighbors as [|[w k] neighbors IH]; intros counter pq counter' pq'; simpl.
  { intros [= <- <-]. split_and!; [by left|done| |lia].
    by intros ? ? ?%not_elem_of_nil. }
  case_bool_decide as Hw; intros Hpush; apply IH in Hpush as (Hin & Hold & Hnew & Hlen).
  - split_and!; [|done| |lia].
    + intros e [?|(w' & k' & ? & ?)]%Hin; [by left|].
      right. exists w', k'. split; [by right|done].
    + intros w' k' [[= -> ->]|?]%elem_of_cons ?; [done|by apply Hnew].
  - unfold heappush in *. rewrite length_app in Hlen. simpl in Hlen.
    split_and!; [| | |lia].
    + intros e [[?| ->%list_elem_of_singleton]%elem_of_app|(w' & k' & ? & ?)]%Hin.
      * by left.
      * right. exists w, k. split_and!; [by left|done..].
      * right. exists w', k'. split; [by right|done].
    + intros e He. apply Hold, elem_of_app. by left.
    + intros w' k' [[= -> ->]|?]%elem_of_cons ?; [|by apply Hnew].
      eexists. split; [apply Hold, elem_of_app; right; by left|done].
Qed.

Context (g : WeightedGraph) (s goal : string).
Hypothesis Hnonneg : nonnegative g.

(** Every walk ends in a visited node or was overtaken by a queued element
    whose city is not visited. *)
Lemma ucs_frontier pq visited p t c :
  ucs_inv g s goal pq visited → walk g s p t c →
  t ∈ dom visited ∨
  ∃ e, e ∈ pq ∧ (entry_city e ∉ dom visited) ∧ entry_cost e ≤ c.
Proof.
  intros Hinv. induction 1 as [|p v c w k Hwalk IH Hedge].
  - destruct (decide (s ∈ dom visited)) as [?|Hs]; [by left|right].
    destruct (ucs_inv_start _ _ _ _ _ Hinv Hs) as (e & He & Hcity & Hcost).
    exists e. rewrite Hcity, Hcost. done.
  - pose proof (nonnegative_edge _ _ _ _ Hnonneg Hedge) as Hk.
    destruct IH as [Hv|(e & He & Hcity & Hcost)].
    + destruct (decide (w ∈ dom visited)) as [?|Hw]; [by left|right].
      apply elem_of_dom in Hv as [cv Hv].
      destruct (ucs_inv_edges _ _ _ _ _ Hinv _ _ _ _ Hv Hedge Hw)
        as (e & He & Hcity & Hcost).
      destruct (ucs_inv_shortest _ _ _ _ _ Hinv _ _ Hv) as [_ Hmin].
      specialize (Hmin _ _ Hwalk).
      exists e. rewrite Hcity, Hcost. split_and!; [done..|lia].
    + right. exists e. split_and!; [done..|lia].
Qed.

Lemma ucs_inv_initial : goal ≠ s → ucs_inv g s goal [(0, O, s, [s])] ∅.
Proof.
  intros Hne. split.
  - intros e ->%list_elem_of_singleton. apply walk_start.
  - intros v c. by rewrite lookup_empty.
  - intros v c e. by rewrite lookup_empty.
  - intros v c w k. by rewrite lookup_empty.
  - intros _. eexists. split; [by left|done].
  - set_solver.
Qed.

(** A settled element is dropped. *)
Lemma ucs_inv_skip pq visited c n v p pq' :
  ucs_inv g s goal pq visited →
  heappop entry_ltb pq = Some ((c, n, v, p), pq') →
  v ∈ dom visited →
  ucs_inv g s goal pq' visited.
Proof.
  intros Hinv Hpop Hv.
  pose proof (λ x, heappop_elem_of _ _ _ _ x Hpop) as Hel.
  split.
  - intros e He. apply (ucs_inv_entries _ _ _ _ _ Hinv), Hel. by right.
  - apply (ucs_inv_shortest _ _ _ _ _ Hinv).
  - intros u cu e Hu He. apply (ucs_inv_mono _ _ _ _ _ Hinv _ _ _ Hu), Hel. by right.
  - intros u cu w k Hu Hedge Hw.
    destruct (ucs_inv_edges _ _ _ _ _ Hinv _ _ _ _ Hu Hedge Hw)
      as (e & [->|He]%Hel & Hcity & Hcost); [|by exists e].
    change (v = w) in Hcity. by subst w.
  - intros Hs.
    destruct (ucs_inv_start _ _ _ _ _ Hinv Hs) as (e & [->|He]%Hel & Hcity & Hcost);
      [|by exists e].
    change (v = s) in Hcity. by subst v.
  - apply (ucs_inv_goal _ _ _ _ _ Hinv).
Qed.

(** The cost of the popped element is the cost of a cheapest walk to its
    city, when that city is not visited yet. *)
Lemma ucs_popped_shortest pq visited c n v p pq' :
  ucs_inv g s goal pq visited →
  heappop entry_ltb pq = Some ((c, n, v, p), pq') →
  v ∉ dom visited →
  walk g s p v c ∧ ∀ p' c', walk g s p' v c' → c ≤ c'.
Proof.
  intros Hinv Hpop Hv.
  pose proof (λ x, heappop_elem_of _ _ _ _ x Hpop) as Hel.
  split.
  { apply (ucs_inv_entries _ _ _ _ _ Hinv (c, n, v, p)), Hel. by left. }
  intros p' c' Hwalk.
  destruct (ucs_frontier _ _ _ _ _ Hinv Hwalk) as [?|(e & He & _ & Hcost)]; [done|].
  pose proof (heappop_least _ entry_cost _ _ _
                entry_ltb_cost_true entry_ltb_cost_false Hpop e He) as Hle.
  simpl in Hle. unfold entry_cost in *. simpl in *. lia.
Qed.

(** An unvisited city is visited and its neighbours are queued. *)
Lemma ucs_inv_expand pq visited c n v p pq' counter counter' pq'' :
  ucs_inv g s goal pq visited →
  heappop entry_ltb pq = Some ((c, n, v, p), pq') →
  v ∉ dom visited → v ≠ goal →
  push_neighbors (get_weighted_neighbors g v) (<[v := c]> visited) c p counter pq'
    = (counter', pq'') →
  ucs_inv g s goal pq'' (<[v := c]> visited).
Proof.
  intros Hinv Hpop Hv Hgoal Hpush.
  pose proof (λ x, heappop_elem_of _ _ _ _ x Hpop) as Hel.
  pose proof (heappop_least _ entry_cost _ _ _
                entry_ltb_cost_true entry_ltb_cost_false Hpop) as Hleast.
  destruct (ucs_popped_shortest _ _ _ _ _ _ _ Hinv Hpop Hv) as [Hwalk Hmin].
  apply push_neighbors_spec in Hpush as (Hin & Hold & Hnew & _).
  change (entry_cost (c, n, v, p)) with c in Hleast.
  assert (∀ e, e ∈ pq'' → c ≤ entry_cost e) as Hge.
  { intros e [He|(w & k & Hedge & _ & -> & _)]%Hin.
    - apply Hleast, Hel. by right.
    - pose proof (nonnegative_edge _ _ _ _ Hnonneg Hedge). lia. }
  split.
  - intros e [He|(w & k & Hedge & _ & -> & -> & ->)]%Hin.
    + apply (ucs_inv_entries _ _ _ _ _ Hinv), Hel. by right.
    + by eapply walk_step.
  - intros u cu [[-> <-]|[Hne Hu]]%lookup_insert_Some.
    + split; [by exists p|done].
    + by apply (ucs_inv_shortest _ _ _ _ _ Hinv).
  - intros u cu e [[-> <-]|[Hne Hu]]%lookup_insert_Some He; [by apply Hge|].
    etrans; [|by apply Hge].
    apply (ucs_inv_mono _ _ _ _ _ Hinv _ _ (c, n, v, p) Hu), Hel. by left.
  - intros u cu w k [[-> <-]|[Hne Hu]]%lookup_insert_Some Hedge Hw.
    + by apply Hnew.
    + assert (w ∉ dom visited) as Hw' by set_solver.
      destruct (ucs_inv_edges _ _ _ _ _ Hinv _ _ _ _ Hu Hedge Hw')
        as (e & [->|He]%Hel & Hcity & Hcost).
      * change (v = w) in Hcity. subst w. set_solver.
      * exists e. split; [by apply Hold|done].
  - intros Hs. assert (s ∉ dom visited) as Hs' by set_solver.
    destruct (ucs_inv_start _ _ _ _ _ Hinv Hs') as (e & [->|He]%Hel & Hcity & Hcost).
    + change (v = s) in Hcity. subst v. set_solver.
    + exists e. split; [by apply Hold|done].
  - pose proof (ucs_inv_goal _ _ _ _ _ Hinv). set_solver.
Qed.

(** With enough fuel the loop ends, and with the right result. *)
Lemma ucs_loop_correct fuel : ∀ pq visited counter,
  ucs_inv g s goal pq visited →
  (ucs_measure g pq visited < fuel)%nat →
  ∃ r, loop fuel g goal pq visited counter = Some r ∧
       optimal_result g s goal (success r) (path r) (total_cost r).
Proof.
  induction fuel as [|fuel IH]; intros pq visited counter Hinv Hfuel; [lia|].
  simpl. destruct (heappop entry_ltb pq) as [[[[[c n] v] p] pq']|] eqn:Hpop.
  - pose proof (heappop_length _ _ _ _ Hpop) as Hlen.
    unfold ucs_measure in *.
    destruct (settled visited v c) eqn:Hsettled.
    + unfold settled in Hsettled.
      destruct (visited !! v) as [cv|] eqn:Hv; [|done].
      apply IH; [|lia].
      eapply ucs_inv_skip; [done..|]. by apply elem_of_dom.
    + assert (v ∉ dom visited) as Hv.
      { intros [cv Hv]%elem_of_dom. unfold settled in Hsettled.
        rewrite Hv in Hsettled. apply bool_decide_eq_false in Hsettled.
        apply Hsettled.
        apply (ucs_inv_mono _ _ _ _ _ Hinv _ _ (c, n, v, p) Hv).
        apply (heappop_elem_of _ _ _ _ _ Hpop). by left. }
      case_bool_decide as Hgoal.
      * subst v. eexists. split; [done|]. left. simpl.
        destruct (ucs_popped_shortest _ _ _ _ _ _ _ Hinv Hpop Hv). done.
      * destruct (push_neighbors _ _ _ _ _ _) as [counter' pq''] eqn:Hpush.
        apply IH; [by eapply ucs_inv_expand|].
        apply push_neighbors_spec in Hpush as (_ & _ & _ & Hlen').
        rewrite dom_insert_L.
        rewrite (edge_count_close _ _ v Hv) in Hfuel.
        change (nbrs (weighted_adjacency g) v)
          with (get_weighted_neighbors g v) in Hfuel.
        lia.
  - apply heappop_None in Hpop as ->.
    eexists. split; [done|]. right. split_and!; [done..|].
    intros (p & c & Hwalk).
    destruct (ucs_frontier _ _ _ _ _ Hinv Hwalk) as [Hin|(e & He & _)].
    + by apply (ucs_inv_goal _ _ _ _ _ Hinv).
    + by apply not_elem_of_nil in He.
Qed.
End ucs_proofs.

(** C1. On a weighted graph without negative costs, for two nodes of the
    graph and with [search_fuel g] fuel or more, [UniformCostSearch.search]
    returns a result. When the goal can be reached the result is a success
    whose path begins at the start, ends at the goal, follows stored edges,
    and whose total cost is that of the path and is the least among all
    walks from the start to the goal; when it cannot be reached the result
    is a failure. *)
Theorem ucs_search_optimal g start goal fuel :
  nonnegative g →
  start ∈ dom (weighted_adjacency g) → goal ∈ dom (weighted_adjacency g) →
  (search_fuel g ≤ fuel)%nat →
  ∃ r, ucs.UniformCostSearch.search fuel g start goal = Some r ∧
    (reachable g start goal →
       ucs.success r = true ∧
       head (ucs.path r) = Some start ∧ last (ucs.path r) = Some goal ∧
       (∀ (i : nat) u w, ucs.path r !! i = Some u → ucs.path r !! S i = Some w →
          ∃ e, (w, e) ∈ get_weighted_neighbors g u) ∧
       walk g start (ucs.path r) goal (ucs.total_cost r) ∧
       ∀ p c, walk g start p goal c → ucs.total_cost r ≤ c) ∧
    (¬ reachable g start goal → ucs.success r = false).
Proof.
  intros Hnn Hstart Hgoal Hfuel.
  assert (∃ r, ucs.UniformCostSearch.search fuel g start goal = Some r ∧
            optimal_result g start goal (ucs.success r) (ucs.path r) (ucs.total_cost r))
    as (r & Hr & Hopt).
  { unfold ucs.UniformCostSearch.search.
    rewrite !bool_decide_eq_false_2 by (by intros ?).
    case_bool_decide as Heq.
    - subst goal. eexists. split; [done|]. left. simpl.
      split_and!; [done|apply walk_start|]. intros p c. by apply walk_nonneg.
    - apply ucs_loop_correct; [done|by apply ucs_inv_initial|].
      unfold ucs_measure, search_fuel in *.
      rewrite dom_empty_L, edge_count_open_empty. simpl. lia. }
  exists r. split; [done|].
  destruct Hopt as [(Hs & Hwalk & Hmin)|(Hs & _ & Hunreach)].
  - split; [|intros []; by eexists _, _]. intros _.
    split_and!; [done|by eapply walk_head|by eapply walk_last| |done..].
    intros i u w. by eapply walk_edges.
  - split; [done|by intros _].
Qed.

(** In the triangle C can be reached from A by the direct edge, so the
    search succeeds with a cheapest walk. *)
Lemma ucs_search_optimal_witness :
  ∃ r, ucs.UniformCostSearch.search 10 triangle "A" "C" = Some r ∧
    ucs.success r = true ∧
    head (ucs.path r) = Some "A" ∧ last (ucs.path r) = Some "C" ∧
    (∀ (i : nat) u w, ucs.path r !! i = Some u → ucs.path r !! S i = Some w →
       ∃ e, (w, e) ∈ get_weighted_neighbors triangle u) ∧
    walk triangle "A" (ucs.path r) "C" (ucs.total_cost r) ∧
    ∀ p c, walk triangle "A" p "C" c → ucs.total_cost r ≤ c.
Proof.
  destruct (ucs_search_optimal triangle "A" "C" 10) as (r & Hr & Hreach & _).
  - by_compute.
  - by_compute.
  - by_compute.
  - vm_compute. lia.
  - exists r. split; [exact Hr|]. apply Hreach.
    exists (["A"] ++ ["C"]), (0 + 5).
    apply (walk_step triangle "A" ["A"] "A" 0 "C" 5); [apply walk_start|by_compute].
Defined.

Example ucs_triangle :
  ucs.UniformCostSearch.search 10 triangle "A" "C"
    = Some (ucs.mkUCSResult ["A"; "B"; "C"] 2 true).
Proof. vm_compute. reflexivity. Qed.


(** ** The least element of a queue does not depend on its layout *)

Section strict_total_order.
Context {A : Type} (ltb : A → A → bool).
Hypothesis ltb_irrefl : ∀ a, ltb a a = false.
Hypothesis ltb_trans : ∀ a b c, ltb a b = true → ltb b c = true → ltb a c = true.
Hypothesis ltb_total : ∀ a b, ltb a b = false → ltb b a = false → a = b.

Lemma heappop_minimal pq least rest :
  heappop ltb pq = Some (least, rest) → ∀ z, z ∈ pq → ltb z least = false.
Proof.
  revert least rest. induction pq as [|item pq IH]; intros least rest; [done|].
  simpl. destruct (heappop ltb pq) as [[least' rest']|] eqn:Hpop.
  - specialize (IH _ _ eq_refl).
    destruct (ltb least' item) eqn:Hcmp; intros [= <- <-] z [->|Hz]%elem_of_cons.
    + destruct (ltb item least') eqn:Hback; [|done].
      by rewrite <-(ltb_irrefl item), (ltb_trans item least' item).
    + by apply IH.
    + apply ltb_irrefl.
    + destruct (ltb z item) eqn:Hz'; [|done].
      specialize (IH z Hz).
      destruct (ltb least' z) eqn:Hlz.
      * by rewrite (ltb_trans least' z item) in Hcmp.
      * rewrite (ltb_total _ _ IH Hlz) in Hz'. congruence.
  - apply heappop_None in Hpop as ->.
    intros [= <- <-] z [->|Hz]%elem_of_cons;
      [apply ltb_irrefl|by apply not_elem_of_nil in Hz].
Qed.

(** Two queues with the same elements pop the same element and leave the
    same elements. *)
Lemma heappop_layout pq1 pq2 x1 rest1 x2 rest2 :
  pq1 ≡ₚ pq2 →
  heappop ltb pq1 = Some (x1, rest1) → heappop ltb pq2 = Some (x2, rest2) →
  x1 = x2 ∧ rest1 ≡ₚ rest2.
Proof.
  intros Hperm Hpop1 Hpop2.
  pose proof (heappop_Permutation _ _ _ _ Hpop1) as Hp1.
  pose proof (heappop_Permutation _ _ _ _ Hpop2) as Hp2.
  assert (x1 = x2) as ->.
  { apply ltb_total.
    - apply (heappop_minimal _ _ _ Hpop2). rewrite <-Hperm, Hp1. by left.
    - apply (heappop_minimal _ _ _ Hpop1). rewrite Hperm, Hp2. by left. }
  split; [done|]. apply (Permutation_cons_inv (a:=x2)).
  by rewrite <-Hp1, <-Hp2.
Qed.
End strict_total_order.

(** *** Python's order on strings, paths and queue elements *)

Lemma string_compare_refl a : String.compare a a = Eq.
Proof.
  pose proof (String.compare_antisym a a) as H.
  by destruct (String.compare a a).
Qed.

Lemma ascii_compare_trans a b c :
  Ascii.compare a b = Lt → Ascii.compare b c = Lt → Ascii.compare a c = Lt.
Proof. unfold Ascii.compare. rewrite !N.compare_lt_iff. lia. Qed.

Lemma string_compare_trans a : ∀ b c,
  String.compare a b = Lt → String.compare b c = Lt → String.compare a c = Lt.
Proof.
  induction a as [|x a IH]; intros [|y b] [|z c]; simpl; try done.
  destruct (Ascii.compare x y) eqn:Hxy; try done;
    destruct (Ascii.compare y z) eqn:Hyz; try done.
  - apply Ascii.compare_eq_iff in Hxy as ->, Hyz as ->.
    unfold Ascii.compare. rewrite N.compare_refl. apply IH.
  - apply Ascii.compare_eq_iff in Hxy as ->. by rewrite Hyz.
  - apply Ascii.compare_eq_iff in Hyz as ->. by rewrite Hxy.
  - by rewrite (ascii_compare_trans _ _ _ Hxy Hyz).
Qed.

Lemma str_ltb_irrefl a : str_ltb a a = false.
Proof. unfold str_ltb, String.ltb. by rewrite string_compare_refl. Qed.

Lemma str_ltb_trans a b c :
  str_ltb a b = true → str_ltb b c = true → str_ltb a c = true.
Proof.
  unfold str_ltb, String.ltb.
  destruct (String.compare a b) eqn:Hab; try done.
  destruct (String.compare b c) eqn:Hbc; try done.
  by rewrite (string_compare_trans _ _ _ Hab Hbc).
Qed.

Lemma str_ltb_total a b : str_ltb a b = false → str_ltb b a = false → a = b.
Proof.
  unfold str_ltb, String.ltb. rewrite (String.compare_antisym b a).
  destruct (String.compare a b) eqn:Hab; try done.
  intros _ _. by apply String.compare_eq_iff.
Qed.

Lemma str_ltb_asym a b : str_ltb a b = true → str_ltb b a = true → False.
Proof.
  intros Hab Hba. pose proof (str_ltb_trans _ _ _ Hab Hba) as Haa.
  by rewrite str_ltb_irrefl in Haa.
Qed.

Lemma path_ltb_irrefl p : path_ltb p p = false.
Proof. induction p as [|x p IH]; simpl; [done|]. by rewrite bool_decide_eq_true_2. Qed.

Lemma path_ltb_trans p : ∀ q r,
  path_ltb p q = true → path_ltb q r = true → path_ltb p r = true.
Proof.
  induction p as [|x p IH]; intros [|y q] [|z r]; simpl; try done.
  repeat case_bool_decide; simplify_eq; try done;
    first [apply IH|apply str_ltb_trans|intros Hlt1 Hlt2; destruct (str_ltb_asym _ _ Hlt1 Hlt2)].
Qed.

Lemma path_ltb_total p : ∀ q, path_ltb p q = false → path_ltb q p = false → p = q.
Proof.
  induction p as [|x p IH]; intros [|y q]; simpl; try done.
  repeat case_bool_decide; simplify_eq; try done.
  - intros. f_equal. by apply IH.
  - intros Hlt1 Hlt2. by pose proof (str_ltb_total _ _ Hlt1 Hlt2).
Qed.

Lemma ucs_entry_ltb_irrefl a : ucs.entry_ltb a a = false.
Proof.
  unfold ucs.entry_ltb. rewrite !bool_decide_eq_true_2 by done. apply path_ltb_irrefl.
Qed.

Lemma ucs_entry_ltb_trans a b c :
  ucs.entry_ltb a b = true → ucs.entry_ltb b c = true → ucs.entry_ltb a c = true.
Proof.
  destruct a as [[[ca na] va] pa], b as [[[cb nb] vb] pb], c as [[[cc nc] vc] pc].
  unfold ucs.entry_ltb, ucs.entry_cost, ucs.entry_counter, ucs.entry_city,
    ucs.entry_path. simpl.
  repeat case_bool_decide; simplify_eq; try done; try lia;
    first [apply path_ltb_trans|apply str_ltb_trans
          |intros Hlt1 Hlt2; destruct (str_ltb_asym _ _ Hlt1 Hlt2)].
Qed.

Lemma ucs_entry_ltb_total a b :
  ucs.entry_ltb a b = false → ucs.entry_ltb b a = false → a = b.
Proof.
  destruct a as [[[ca na] va] pa], b as [[[cb nb] vb] pb].
  unfold ucs.entry_ltb, ucs.entry_cost, ucs.entry_counter, ucs.entry_city,
    ucs.entry_path. simpl.
  repeat case_bool_decide; simplify_eq; try done; try lia.
  - intros Hlt1 Hlt2. by rewrite (path_ltb_total _ _ Hlt1 Hlt2).
  - intros Hlt1 Hlt2. by pose proof (str_ltb_total _ _ Hlt1 Hlt2).
Qed.

Lemma astar_entry_ltb_irrefl a : astar.entry_ltb a a = false.
Proof.
  unfold astar.entry_ltb. rewrite !bool_decide_eq_true_2 by done. apply path_ltb_irrefl.
Qed.

Lemma astar_entry_ltb_trans a b c :
  astar.entry_ltb a b = true → astar.entry_ltb b c = true → astar.entry_ltb a c = true.
Proof.
  destruct a as [[[[fa ga] na] va] pa], b as [[[[fb gb] nb] vb] pb],
    c as [[[[fc gc] nc] vc] pc].
  unfold astar.entry_ltb, astar.entry_f, astar.entry_g, astar.entry_counter,
    astar.entry_node, astar.entry_path. simpl.
  repeat case_bool_decide; simplify_eq; try done; try lia;
    first [apply path_ltb_trans|apply str_ltb_trans
          |intros Hlt1 Hlt2; destruct (str_ltb_asym _ _ Hlt1 Hlt2)].
Qed.

Lemma astar_entry_ltb_total a b :
  astar.entry_ltb a b = false → astar.entry_ltb b a = false → a = b.
Proof.
  destruct a as [[[[fa ga] na] va] pa], b as [[[[fb gb] nb] vb] pb].
  unfold astar.entry_ltb, astar.entry_f, astar.entry_g, astar.entry_counter,
    astar.entry_node, astar.entry_path. simpl.
  repeat case_bool_decide; simplify_eq; try done; try lia.
  - intros Hlt1 Hlt2. by rewrite (path_ltb_total _ _ Hlt1 Hlt2).
  - intros Hlt1 Hlt2. by pose proof (str_ltb_total _ _ Hlt1 Hlt2).
Qed.

(** Whatever the layout of the heap, the two searches pop the same element. *)
Lemma ucs_heappop_layout pq1 pq2 x1 rest1 x2 rest2 :
  pq1 ≡ₚ pq2 →
  heappop ucs.entry_ltb pq1 = Some (x1, rest1) →
  heappop ucs.entry_ltb pq2 = Some (x2, rest2) →
  x1 = x2 ∧ rest1 ≡ₚ rest2.
Proof.
  apply heappop_layout;
    [apply ucs_entry_ltb_irrefl|apply ucs_entry_ltb_trans|apply ucs_entry_ltb_total].
Qed.

Lemma astar_heappop_layout pq1 pq2 x1 rest1 x2 rest2 :
  pq1 ≡ₚ pq2 →
  heappop astar.entry_ltb pq1 = Some (x1, rest1) →
  heappop astar.entry_ltb pq2 = Some (x2, rest2) →
  x1 = x2 ∧ rest1 ≡ₚ rest2.
Proof.
  apply heappop_layout;
    [apply astar_entry_ltb_irrefl|apply astar_entry_ltb_trans
    |apply astar_entry_ltb_total].
Qed.

(** ** A* search under a zero heuristic *)

Section astar_proofs.
Import astar astar.AStarSearch.

Lemma astar_entry_ltb_true a b : entry_ltb a b = true → entry_f a ≤ entry_f b.
Proof.
  unfold entry_ltb. case_bool_decide as Hf; [lia|].
  intros ?%bool_decide_eq_true. lia.
Qed.

Lemma astar_entry_ltb_false a b : entry_ltb a b = false → entry_f b ≤ entry_f a.
Proof.
  unfold entry_ltb. case_bool_decide as Hf; [lia|].
  intros ?%bool_decide_eq_false. lia.
Qed.

Lemma improves_true g_scores w t :
  improves g_scores w t = true ↔ ∀ c, g_scores !! w = Some c → t < c.
Proof.
  unfold improves. destruct (g_scores !! w) as [c|].
  - rewrite bool_decide_eq_true. split; [by intros ? ? [= <-]|eauto].
  - split; [by intros|done].
Qed.

Lemma improves_false g_scores w t :
  improves g_scores w t = false ↔ ∃ c, g_scores !! w = Some c ∧ c ≤ t.
Proof.
  unfold improves. destruct (g_scores !! w) as [c|].
  - rewrite bool_decide_eq_false. split.
    + intros ?. exists c. split; [done|lia].
    + intros (c' & [= <-] & ?). lia.
  - split; [done|by intros (? & ? & ?)].
Qed.

Lemma get_heuristic_zero heuristics w :
  zero_heuristic heuristics → get_heuristic heuristics w = 0.
Proof.
  intros Hzero. unfold get_heuristic.
  destruct (heuristics !! w) as [x|] eqn:Hw; [|done]. apply (Hzero _ _ Hw).
Qed.

(** A score that only goes down keeps an edge relaxed. *)
Lemma astar_relaxed_lower g_scores v w k x t :
  x ≠ v → (∀ c, g_scores !! x = Some c → t ≤ c) →
  astar_relaxed g_scores v w k → astar_relaxed (<[x := t]> g_scores) v w k.
Proof.
  intros Hx Hlow Hrel c. rewrite lookup_insert_ne by done.
  intros (cw & Hw & Hle)%Hrel.
  destruct (decide (x = w)) as [->|Hne].
  - exists t. rewrite lookup_insert_eq. split; [done|].
    specialize (Hlow _ Hw). lia.
  - exists cw. by rewrite lookup_insert_ne.
Qed.

Context (g : WeightedGraph) (s goal : string) (heuristics : gmap string Z).
Hypothesis Hnonneg : nonnegative g.
Hypothesis Hzero : zero_heuristic heuristics.

(** Every walk was overtaken by a queued element or ends in a node whose
    score is at most its cost. *)
Lemma astar_frontier closed pq g_scores p t c :
  astar_inv g s goal closed pq g_scores → walk g s p t c →
  (∃ e, e ∈ pq ∧ entry_g e ≤ c) ∨ (∃ ct, g_scores !! t = Some ct ∧ ct ≤ c).
Proof.
  intros Hinv. induction 1 as [|p v c w k Hwalk IH Hedge].
  - right. apply (astar_inv_start _ _ _ _ _ _ Hinv).
  - pose proof (nonnegative_edge _ _ _ _ Hnonneg Hedge) as Hk.
    destruct IH as [(e & He & Hle)|(cv & Hv & Hle)].
    + left. exists e. split; [done|lia].
    + destruct (decide (v ∈ closed)) as [Hcl|Hop].
      * destruct (astar_inv_edges _ _ _ _ _ _ Hinv _ _ _ Hcl Hedge _ Hv)
          as (cw & Hw & Hcw).
        right. exists cw. split; [done|lia].
      * destruct (astar_inv_open _ _ _ _ _ _ Hinv _ _ Hv Hop) as (e & He & Hkey).
        left. exists e. split; [done|].
        injection Hkey as _ ->. lia.
Qed.

Lemma astar_inv_initial :
  astar_inv g s goal ∅
    [(get_heuristic heuristics s, 0, O, s, [s])] {[s := 0]}.
Proof.
  split.
  - intros e ->%list_elem_of_singleton. split_and!.
    + by rewrite get_heuristic_zero.
    + apply walk_start.
    + exists 0. by rewrite lookup_singleton_eq.
  - set_solver.
  - set_solver.
  - intros v c [-> <-]%lookup_singleton_Some _. eexists. split; [by left|done].
  - exists 0. by rewrite lookup_singleton_eq.
  - set_solver.
  - apply NoDup_singleton.
Qed.

Lemma astar_distinct_pop pq e pq' :
  NoDup (astar_key <$> pq) → heappop entry_ltb pq = Some (e, pq') →
  (astar_key e ∉ astar_key <$> pq') ∧ NoDup (astar_key <$> pq').
Proof.
  intros Hnd Hperm%heappop_Permutation. rewrite Hperm in Hnd.
  by apply NoDup_cons in Hnd.
Qed.

(** A stale element is dropped. *)
Lemma astar_inv_skip closed pq g_scores e pq' c :
  astar_inv g s goal closed pq g_scores →
  heappop entry_ltb pq = Some (e, pq') →
  g_scores !! entry_node e = Some c → c < entry_g e →
  astar_inv g s goal closed pq' g_scores.
Proof.
  intros Hinv Hpop Hc Hlt.
  pose proof (λ x, heappop_elem_of _ _ _ _ x Hpop) as Hel.
  split.
  - intros e' He'. apply (astar_inv_entries _ _ _ _ _ _ Hinv), Hel. by right.
  - intros v Hv.
    destruct (astar_inv_closed _ _ _ _ _ _ Hinv v Hv) as (cv & Hcv & Hmin & Hle & Hstr).
    exists cv. split_and!; [done..| |].
    + intros e' He'. apply Hle, Hel. by right.
    + intros e' He'. apply Hstr, Hel. by right.
  - apply (astar_inv_edges _ _ _ _ _ _ Hinv).
  - intros v cv Hv Hop.
    destruct (astar_inv_open _ _ _ _ _ _ Hinv _ _ Hv Hop) as (e' & [->|He']%Hel & Hkey);
      [|by exists e'].
    injection Hkey as Hnode Hg. rewrite Hnode in Hc. simplify_eq. lia.
  - apply (astar_inv_start _ _ _ _ _ _ Hinv).
  - apply (astar_inv_goal _ _ _ _ _ _ Hinv).
  - eapply astar_distinct_pop; [|done]. apply (astar_inv_distinct _ _ _ _ _ _ Hinv).
Qed.

(** What a popped element that is not stale tells. *)
Lemma astar_popped closed pq g_scores f gv n v p pq' :
  astar_inv g s goal closed pq g_scores →
  heappop entry_ltb pq = Some ((f, gv, n, v, p), pq') →
  stale g_scores v gv = false →
  g_scores !! v = Some gv ∧ (v ∉ closed) ∧ walk g s p v gv ∧
  (∀ p' c', walk g s p' v c' → gv ≤ c') ∧
  (∀ e, e ∈ pq' → gv ≤ entry_g e) ∧
  (∀ e, e ∈ pq' → entry_node e = v → gv < entry_g e).
Proof.
  intros Hinv Hpop Hstale.
  pose proof (λ x, heappop_elem_of _ _ _ _ x Hpop) as Hel.
  assert ((f, gv, n, v, p) ∈ pq) as Hin by (apply Hel; by left).
  destruct (astar_inv_entries _ _ _ _ _ _ Hinv _ Hin) as (Hf & Hwalk & c & Hc & Hle).
  change (f = gv) in Hf. change (g_scores !! v = Some c) in Hc.
  change (c ≤ gv) in Hle. change (walk g s p v gv) in Hwalk. subst f.
  unfold stale in Hstale. rewrite Hc in Hstale.
  apply bool_decide_eq_false in Hstale.
  assert (c = gv) as -> by lia.
  assert (∀ e, e ∈ pq → gv ≤ entry_g e) as Hleast.
  { intros e He.
    pose proof (heappop_least _ entry_f _ _ _
                  astar_entry_ltb_true astar_entry_ltb_false Hpop e He) as Hfe.
    destruct (astar_inv_entries _ _ _ _ _ _ Hinv _ He) as (Hfg & _).
    change (entry_f (gv, gv, n, v, p)) with gv in Hfe. lia. }
  assert (v ∉ closed) as Hop.
  { intros Hcl.
    destruct (astar_inv_closed _ _ _ _ _ _ Hinv v Hcl) as (c & Hc' & _ & _ & Hstr).
    specialize (Hstr _ Hin eq_refl). change (c < gv) in Hstr.
    simplify_eq. lia. }
  split_and!; [done..| | |].
  - intros p' c' Hwalk'.
    destruct (astar_frontier _ _ _ _ _ _ Hinv Hwalk') as [(e & He & ?)|(ct & Hct & ?)].
    + specialize (Hleast _ He). lia.
    + simplify_eq. lia.
  - intros e He. apply Hleast, Hel. by right.
  - intros e He Hnode.
    destruct (astar_distinct_pop _ _ _ (astar_inv_distinct _ _ _ _ _ _ Hinv) Hpop)
      as [Hfresh _].
    assert (gv ≤ entry_g e) by (apply Hleast, Hel; by right).
    destruct (decide (entry_g e = gv)) as [Heq|?]; [|lia].
    exfalso. apply Hfresh. apply list_elem_of_fmap. exists e. split; [|done].
    unfold astar_key. simpl. by rewrite Hnode, Heq.
Qed.

(** The expansion of a popped node starts from the loop invariant. *)
Lemma relax_inv_begin closed pq g_scores f gv n v p pq' :
  astar_inv g s goal closed pq g_scores →
  heappop entry_ltb pq = Some ((f, gv, n, v, p), pq') →
  stale g_scores v gv = false → v ≠ goal →
  relax_inv g s goal ({[v]} ∪ closed) v gv p [] pq' g_scores.
Proof.
  intros Hinv Hpop Hstale Hgoal.
  pose proof (λ x, heappop_elem_of _ _ _ _ x Hpop) as Hel.
  destruct (astar_popped _ _ _ _ _ _ _ _ _ Hinv Hpop Hstale)
    as (Hv & Hop & Hwalk & Hmin & Hleast & Hstrict).
  assert (∀ u c, u ∈ closed → g_scores !! u = Some c → c ≤ gv) as Hlow.
  { intros u c Hu Hc.
    destruct (astar_inv_closed _ _ _ _ _ _ Hinv u Hu) as (c' & Hc' & _ & Hle & _).
    simplify_eq. apply (Hle (f, gv, n, v, p)), Hel. by left. }
  split.
  - intros e He. apply (astar_inv_entries _ _ _ _ _ _ Hinv), Hel. by right.
  - intros u [->%elem_of_singleton|Hu]%elem_of_union.
    + by exists gv.
    + destruct (astar_inv_closed _ _ _ _ _ _ Hinv u Hu) as (c & Hc & Hm & Hle & Hstr).
      exists c. split_and!; [done..| |].
      * intros e He. apply Hle, Hel. by right.
      * intros e He. apply Hstr, Hel. by right.
  - intros u c [->%elem_of_singleton|Hu]%elem_of_union Hc.
    + simplify_eq. lia.
    + by eapply Hlow.
  - split_and!; [set_solver|done..].
  - intros u w k [->%elem_of_singleton|Hu]%elem_of_union Hne; [done|].
    by apply (astar_inv_edges _ _ _ _ _ _ Hinv).
  - by intros w k ?%not_elem_of_nil.
  - intros u c Hc Hu. assert (u ∉ closed) as Hu' by set_solver.
    destruct (astar_inv_open _ _ _ _ _ _ Hinv u c Hc Hu') as (e & [->|He]%Hel & Hkey);
      [|by exists e].
    injection Hkey as Hnode _. change (v = u) in Hnode. set_solver.
  - apply (astar_inv_start _ _ _ _ _ _ Hinv).
  - pose proof (astar_inv_goal _ _ _ _ _ _ Hinv). set_solver.
  - eapply astar_distinct_pop; [|done]. apply (astar_inv_distinct _ _ _ _ _ _ Hinv).
Qed.

(** A neighbour that does not improve on its score. *)
Lemma relax_inv_keep closed v gv p done pq g_scores w k :
  relax_inv g s goal closed v gv p done pq g_scores →
  improves g_scores w (gv + k) = false →
  relax_inv g s goal closed v gv p (done ++ [(w, k)]) pq g_scores.
Proof.
  intros Hinv (c & Hc & Hle)%improves_false.
  destruct Hinv as [? ? ? Hcur ? Hdone ? ? ? ?]. split; try done.
  intros w' k' [?|[= -> ->]%list_elem_of_singleton]%elem_of_app; [by apply Hdone|].
  intros cv Hcv. destruct Hcur as (_ & Hv & _). simplify_eq.
  by exists c.
Qed.

(** A neighbour whose score improves is queued with its new score. *)
Lemma relax_inv_push closed v gv p done pq g_scores w k n :
  relax_inv g s goal closed v gv p done pq g_scores →
  (w, k) ∈ get_weighted_neighbors g v →
  improves g_scores w (gv + k) = true →
  relax_inv g s goal closed v gv p (done ++ [(w, k)])
    (heappush pq (gv + k + get_heuristic heuristics w, gv + k, n, w, p ++ [w]))
    (<[w := gv + k]> g_scores).
Proof.
  intros [Hent Hcl Hlow Hcur Hedges Hdone Hopen Hstart Hgoal Hnd] Hedge Himp.
  rewrite improves_true in Himp.
  pose proof (nonnegative_edge _ _ _ _ Hnonneg Hedge) as Hk.
  destruct Hcur as (Hvcl & Hv & Hwalk).
  assert (w ∉ closed) as Hw.
  { intros Hwcl. destruct (Hcl w Hwcl) as (c & Hc & _).
    specialize (Hlow _ _ Hwcl Hc). specialize (Himp _ Hc). lia. }
  assert (w ≠ v) as Hwv by (by intros ->).
  assert (∀ c, g_scores !! w = Some c → gv + k ≤ c) as Hdown.
  { intros c Hc. specialize (Himp _ Hc). lia. }
  rewrite get_heuristic_zero by done. unfold heappush.
  set (new := (gv + k + 0, gv + k, n, w, p ++ [w]) : entry).
  split.
  - intros e [He| ->%list_elem_of_singleton]%elem_of_app.
    + destruct (Hent e He) as (Hf & Hwk & c & Hc & Hle).
      split_and!; [done..|].
      destruct (decide (entry_node e = w)) as [Heq|Hne].
      * rewrite Heq in *. exists (gv + k). rewrite lookup_insert_eq.
        split; [done|]. specialize (Hdown _ Hc). lia.
      * exists c. by rewrite lookup_insert_ne.
    + split_and!.
      * unfold new, entry_f, entry_g. simpl. lia.
      * by eapply walk_step.
      * exists (gv + k). unfold new, entry_node, entry_g. simpl.
        by rewrite lookup_insert_eq.
  - intros u Hu. destruct (Hcl u Hu) as (c & Hc & Hm & Hle & Hstr).
    assert (u ≠ w) as Huw by (by intros ->).
    exists c. rewrite lookup_insert_ne by done. split_and!; [done..| |].
    + intros e [He| ->%list_elem_of_singleton]%elem_of_app; [by apply Hle|].
      specialize (Hlow _ _ Hu Hc). unfold new, entry_g. simpl. lia.
    + intros e [He| ->%list_elem_of_singleton]%elem_of_app; [by apply Hstr|].
      unfold new, entry_node. simpl. congruence.
  - intros u c Hu. assert (u ≠ w) as Huw by (by intros ->).
    rewrite lookup_insert_ne by done. by apply Hlow.
  - split_and!; [done| |done]. by rewrite lookup_insert_ne.
  - intros u w' k' Hu Huv Hedge'.
    apply astar_relaxed_lower; [by intros ->|done|by apply Hedges].
  - intros w' k' [?|[= -> ->]%list_elem_of_singleton]%elem_of_app.
    + apply astar_relaxed_lower; [done..|by apply Hdone].
    + intros c. rewrite lookup_insert_ne by done. intros Hc. simplify_eq.
      exists (gv + k). by rewrite lookup_insert_eq.
  - intros u c Hc Hu. destruct (decide (u = w)) as [->|Hne].
    + rewrite lookup_insert_eq in Hc. simplify_eq.
      exists new. split; [|done]. apply elem_of_app. right. by left.
    + rewrite lookup_insert_ne in Hc by done.
      destruct (Hopen u c Hc Hu) as (e & He & Hkey).
      exists e. split; [|done]. apply elem_of_app. by left.
  - destruct Hstart as (c & Hc & Hle). destruct (decide (s = w)) as [->|Hne].
    + exists (gv + k). rewrite lookup_insert_eq. split; [done|].
      specialize (Himp _ Hc). lia.
    + exists c. by rewrite lookup_insert_ne.
  - done.
  - rewrite fmap_app. apply NoDup_app. split_and!; [done| |apply NoDup_singleton].
    intros key [e [-> He]]%list_elem_of_fmap Hkey%list_elem_of_singleton.
    injection Hkey as Hnode Hg.
    change (entry_node e = w) in Hnode. change (entry_g e = gv + k) in Hg.
    destruct (Hent e He) as (_ & _ & c & Hc & Hle).
    rewrite Hnode in Hc. specialize (Himp _ Hc). lia.
Qed.

(** The whole [for] loop keeps the invariant of the expansion. *)
Lemma relax_inv_loop closed v gv p neighbors :
  ∀ done g_scores counter pq g_scores' counter' pq',
  relax_inv g s goal closed v gv p done pq g_scores →
  (∀ x, x ∈ neighbors → x ∈ get_weighted_neighbors g v) →
  relax heuristics neighbors gv p g_scores counter pq = (g_scores', counter', pq') →
  relax_inv g s goal closed v gv p (done ++ neighbors) pq' g_scores' ∧
  (length pq' ≤ length pq + length neighbors)%nat.
Proof.
  induction neighbors as [|[w k] neighbors IH];
    intros done g_scores counter pq g_scores' counter' pq' Hinv Hsub; simpl.
  { intros [= <- <- <-]. rewrite app_nil_r. split; [done|lia]. }
  assert ((w, k) ∈ get_weighted_neighbors g v) as Hedge by (apply Hsub; by left).
  assert (∀ x, x ∈ neighbors → x ∈ get_weighted_neighbors g v) as Hsub'.
  { intros x Hx. apply Hsub. by right. }
  destruct (improves g_scores w (gv + k)) eqn:Himp; intros Hrelax.
  - pose proof (relax_inv_push _ _ _ _ _ _ _ _ _ (S counter) Hinv Hedge Himp) as Hnew.
    destruct (IH _ _ _ _ _ _ _ Hnew Hsub' Hrelax) as [Hinv' Hlen].
    rewrite <-app_assoc in Hinv'. split; [done|].
    unfold heappush in Hlen. rewrite length_app in Hlen. simpl in *. lia.
  - pose proof (relax_inv_keep _ _ _ _ _ _ _ _ _ Hinv Himp) as Hnew.
    destruct (IH _ _ _ _ _ _ _ Hnew Hsub' Hrelax) as [Hinv' Hlen].
    rewrite <-app_assoc in Hinv'. split; [done|lia].
Qed.

(** Once every neighbour is handled the loop invariant holds again. *)
Lemma relax_inv_end closed v gv p pq g_scores :
  relax_inv g s goal closed v gv p (get_weighted_neighbors g v) pq g_scores →
  astar_inv g s goal closed pq g_scores.
Proof.
  intros [Hent Hcl Hlow Hcur Hedges Hdone Hopen Hstart Hgoal Hnd]. split; try done.
  intros u w k Hu Hedge. destruct (decide (u = v)) as [->|Hne].
  - by apply Hdone.
  - by apply Hedges.
Qed.

(** With enough fuel the loop ends, and with the right result. *)
Lemma astar_loop_correct fuel : ∀ closed pq g_scores counter,
  astar_inv g s goal closed pq g_scores →
  (astar_measure g closed pq < fuel)%nat →
  ∃ r, loop fuel g heuristics goal pq g_scores counter = Some r ∧
       optimal_result g s goal (success r) (path r) (total_cost r).
Proof.
  induction fuel as [|fuel IH]; intros closed pq g_scores counter Hinv Hfuel; [lia|].
  simpl. destruct (heappop entry_ltb pq) as [[[[[[f gv] n] v] p] pq']|] eqn:Hpop.
  - pose proof (heappop_length _ _ _ _ Hpop) as Hlen.
    unfold astar_measure in *.
    destruct (stale g_scores v gv) eqn:Hstale.
    + unfold stale in Hstale.
      destruct (g_scores !! v) as [c|] eqn:Hc; [|done].
      apply bool_decide_eq_true in Hstale.
      apply (IH closed); [|lia].
      by eapply (astar_inv_skip _ _ _ (f, gv, n, v, p)).
    + destruct (astar_popped _ _ _ _ _ _ _ _ _ Hinv Hpop Hstale)
        as (Hv & Hop & Hwalk & Hmin & _).
      case_bool_decide as Hgoal.
      * subst v. eexists. split; [done|]. by left.
      * destruct (relax _ _ _ _ _ _ _) as [[g_scores' counter'] pq''] eqn:Hrelax.
        pose proof (relax_inv_begin _ _ _ _ _ _ _ _ _ Hinv Hpop Hstale Hgoal) as Hbegin.
        eapply relax_inv_loop in Hrelax as [Hend Hlen']; [|done..].
        apply (IH ({[v]} ∪ closed)); [by eapply relax_inv_end|].
        rewrite (edge_count_close _ _ v Hop) in Hfuel.
        change (nbrs (weighted_adjacency g) v)
          with (get_weighted_neighbors g v) in Hfuel.
        lia.
  - apply heappop_None in Hpop as ->.
    eexists. split; [done|]. right. split_and!; [done..|].
    intros (p & c & Hwalk).
    destruct (astar_frontier _ _ _ _ _ _ Hinv Hwalk) as [(e & He & _)|(ct & Hct & _)].
    + by apply not_elem_of_nil in He.
    + destruct (astar_inv_open _ _ _ _ _ _ Hinv _ _ Hct) as (e & He & _).
      * apply (astar_inv_goal _ _ _ _ _ _ Hinv).
      * by apply not_elem_of_nil in He.
Qed.
End astar_proofs.

(** ** The two searches on the same graph *)

(** Two results that are both right agree on success and on the cost. *)
Lemma optimal_result_agree g s goal b1 p1 c1 b2 p2 c2 :
  optimal_result g s goal b1 p1 c1 → optimal_result g s goal b2 p2 c2 →
  b1 = b2 ∧ (b1 = true → c1 = c2).
Proof.
  intros [(-> & Hw1 & Hmin1)|(-> & _ & Hno1)] [(-> & Hw2 & Hmin2)|(-> & _ & Hno2)].
  - split; [done|]. intros _. specialize (Hmin1 _ _ Hw2). specialize (Hmin2 _ _ Hw1). lia.
  - destruct Hno2. by eexists _, _.
  - destruct Hno1. by eexists _, _.
  - done.
Qed.

Lemma ucs_search_result g start goal fuel :
  nonnegative g → (search_fuel g ≤ fuel)%nat →
  ∃ r, ucs.UniformCostSearch.search fuel g start goal = Some r ∧
    (r = ucs.failure ∧
       (start ∉ dom (weighted_adjacency g) ∨ goal ∉ dom (weighted_adjacency g)) ∨
     optimal_result g start goal (ucs.success r) (ucs.path r) (ucs.total_cost r)).
Proof.
  intros Hnn Hfuel. unfold ucs.UniformCostSearch.search.
  case_bool_decide as Hstart; [eexists; split; [done|left; eauto]|].
  case_bool_decide as Hgoal; [eexists; split; [done|left; eauto]|].
  case_bool_decide as Heq.
  - subst goal. eexists. split; [done|]. right. left. simpl.
    split_and!; [done|apply walk_start|]. intros p c. by apply walk_nonneg.
  - destruct (ucs_loop_correct g start goal Hnn fuel [(0, O, start, [start])] ∅ O)
      as (r & Hr & Hopt).
    + by apply ucs_inv_initial.
    + unfold ucs_measure, search_fuel in *.
      rewrite dom_empty_L, edge_count_open_empty. simpl. lia.
    + exists r. split; [done|by right].
Qed.

Lemma astar_search_result g heuristics start goal fuel :
  nonnegative g → astar.zero_heuristic heuristics → (search_fuel g ≤ fuel)%nat →
  ∃ r, astar.AStarSearch.search fuel g heuristics start goal = Some r ∧
    (r = astar.failure ∧
       (start ∉ dom (weighted_adjacency g) ∨ goal ∉ dom (weighted_adjacency g)) ∨
     optimal_result g start goal (astar.success r) (astar.path r) (astar.total_cost r)).
Proof.
  intros Hnn Hzero Hfuel. unfold astar.AStarSearch.search.
  case_bool_decide as Hstart; [eexists; split; [done|left; eauto]|].
  case_bool_decide as Hgoal; [eexists; split; [done|left; eauto]|].
  case_bool_decide as Heq.
  - subst goal. eexists. split; [done|]. right. left. simpl.
    split_and!; [done|apply walk_start|]. intros p c. by apply walk_nonneg.
  - destruct (astar_loop_correct g start goal heuristics Hnn Hzero fuel ∅
                [(astar.AStarSearch.get_heuristic heuristics start, 0, O, start, [start])]
                {[start := 0]} O) as (r & Hr & Hopt).
    + by apply astar_inv_initial.
    + unfold astar_measure, search_fuel in *.
      rewrite edge_count_open_empty. simpl. lia.
    + exists r. split; [done|by right].
Qed.

(** C2. On a weighted graph without negative costs, with a heuristic
    mapping whose every value is 0 and with [search_fuel g] fuel or more,
    [AStarSearch.search] and [UniformCostSearch.search] both return a
    result, for every start and goal; the two results have the same success
    flag, and on success the same total cost. *)
Theorem astar_zero_heuristic_is_ucs g heuristics start goal fuel :
  nonnegative g → astar.zero_heuristic heuristics → (search_fuel g ≤ fuel)%nat →
  ∃ ru ra,
    ucs.UniformCostSearch.search fuel g start goal = Some ru ∧
    astar.AStarSearch.search fuel g heuristics start goal = Some ra ∧
    astar.success ra = ucs.success ru ∧
    (ucs.success ru = true → astar.total_cost ra = ucs.total_cost ru).
Proof.
  intros Hnn Hzero Hfuel.
  destruct (ucs_search_result g start goal fuel Hnn Hfuel) as (ru & Hru & Hu).
  destruct (astar_search_result g heuristics start goal fuel Hnn Hzero Hfuel)
    as (ra & Hra & Ha).
  exists ru, ra. split_and!; [done..| |].
  - destruct Hu as [[-> Hu]|Hu], Ha as [[-> Ha]|Ha]; try done.
    + unfold ucs.UniformCostSearch.search in Hru. unfold astar.AStarSearch.search in Hra.
      repeat case_bool_decide; simplify_eq; try done; naive_solver.
    + unfold ucs.UniformCostSearch.search in Hru. unfold astar.AStarSearch.search in Hra.
      repeat case_bool_decide; simplify_eq; try done; naive_solver.
    + symmetry. by eapply optimal_result_agree.
  - destruct Hu as [[-> Hu]|Hu], Ha as [[-> Ha]|Ha]; try done.
    + unfold ucs.UniformCostSearch.search in Hru. unfold astar.AStarSearch.search in Hra.
      repeat case_bool_decide; simplify_eq; try done; naive_solver.
    + intros Hs. symmetry. by eapply optimal_result_agree.
Qed.

Lemma astar_zero_heuristic_is_ucs_witness :
  ∃ ru ra,
    ucs.UniformCostSearch.search 10 triangle "A" "C" = Some ru ∧
    astar.AStarSearch.search 10 triangle {["B" := 0]} "A" "C" = Some ra ∧
    astar.success ra = ucs.success ru ∧
    (ucs.success ru = true → astar.total_cost ra = ucs.total_cost ru).
Proof.
  apply (astar_zero_heuristic_is_ucs triangle {["B" := 0]} "A" "C" 10).
  - by_compute.
  - by_compute.
  - vm_compute. lia.
Defined.

Example astar_triangle :
  astar.AStarSearch.search 10 triangle ∅ "A" "C"
    = Some (astar.mkAStarResult ["A"; "B"; "C"] 2 true).
Proof. vm_compute. reflexivity. Qed.

(** ** Breadth-first search *)

Section bfs_proofs.
Import bfs_dfs bfs_dfs.TravelEthiopiaSearch.

Lemma route_head g s p t : route g s p t → head p = Some s.
Proof. induction 1 as [|p v w _ IH _]; [done|]. by destruct p. Qed.

Lemma route_last g s p t : route g s p t → last p = Some t.
Proof. destruct 1; [done|apply last_snoc]. Qed.

Lemma route_length g s p t : route g s p t → (1 ≤ length p)%nat.
Proof. destruct 1; [done|]. rewrite length_app. simpl. lia. Qed.

(** A route of one node stays at the start. *)
Lemma route_length_1 g s p t : route g s p t → length p = 1%nat → t = s.
Proof.
  destruct 1 as [|p v w Hr _]; [done|].
  rewrite length_app. simpl. apply route_length in Hr. lia.
Qed.

Lemma elem_of_listed_nodes g v w : w ∈ get_neighbors g v → w ∈ listed_nodes g.
Proof.
  unfold get_neighbors, listed_nodes. intros Hw.
  destruct (adjacency_list g !! v) as [l|] eqn:Hv; [|by apply not_elem_of_nil in Hw].
  apply elem_of_union_list. exists (list_to_set l). split.
  - apply list_elem_of_fmap. exists (v, l). split; [done|].
    by apply elem_of_map_to_list.
  - by apply elem_of_list_to_set.
Qed.

Context (g : Graph) (s goal : string).

Lemma bfs_inv_initial : goal ≠ s → bfs_inv g s goal 1 [(s, [s])] [] {[s]}.
Proof.
  intros Hne. split.
  - intros v p [= -> ->]%list_elem_of_singleton.
    split_and!; [apply route_start|set_solver|]. intros q. apply route_length.
  - intros q x Hq Hlen. apply route_length_1 in Hq as ->; [set_solver|].
    apply route_length in Hq. lia.
  - by repeat constructor.
  - constructor.
  - intros x ->%elem_of_singleton. left. exists [s]. by left.
  - set_solver.
  - set_solver.
Qed.

(** When no path of [L] nodes is left in the queue, the level is complete. *)
Lemma bfs_inv_shift L back visited :
  bfs_inv g s goal L [] back visited → bfs_inv g s goal (S L) back [] visited.
Proof.
  intros [Hent Hlevel _ Hback Hvis Hstart Hgoal]. simpl in *.
  split; rewrite ?app_nil_r; try done.
  intros q x Hq Hlen. destruct Hq as [|q u x Hq Hx]; [done|].
  rewrite length_app in Hlen. simpl in Hlen.
  assert (u ∈ visited) as Hu by (apply (Hlevel q); [done|lia]).
  destruct (Hvis u Hu) as [[pu Hpu]|Hexp]; [|by apply Hexp].
  destruct (Hent _ _ Hpu) as (_ & _ & Hmin). specialize (Hmin _ Hq).
  rewrite Forall_forall in Hback. specialize (Hback _ Hpu). simpl in Hback. lia.
Qed.

Lemma bfs_expand_begin L v p front back visited :
  bfs_inv g s goal L ((v, p) :: front) back visited →
  bfs_expand_inv g s goal L v p [] front back visited.
Proof.
  intros [Hent Hlevel Hfront Hback Hvis Hstart Hgoal].
  apply Forall_cons in Hfront as [Hp Hfront]. simpl in Hp.
  split; try done.
  - intros u q Hu. apply Hent. by right.
  - intros x Hx. destruct (Hvis x Hx) as [[q [[= -> ->]|Hq]%elem_of_cons]|Hexp].
    + right. by left.
    + left. by exists q.
    + right. by right.
  - split; [|done]. apply (Hent v p). by left.
  - by intros w ?%not_elem_of_nil.
Qed.

Lemma bfs_expand_end L v p front back visited :
  bfs_expand_inv g s goal L v p (get_neighbors g v) front back visited →
  bfs_inv g s goal L front back visited.
Proof.
  intros [Hent Hlevel Hfront Hback Hvis Hcur Hdone Hstart Hgoal]. split; try done.
  intros x Hx. destruct (Hvis x Hx) as [?|[->|?]]; [by left|by right..].
Qed.

Lemma bfs_expand_seen L v p done front back visited w :
  bfs_expand_inv g s goal L v p done front back visited →
  w ∈ visited →
  bfs_expand_inv g s goal L v p (done ++ [w]) front back visited.
Proof.
  intros [Hent Hlevel Hfront Hback Hvis Hcur Hdone Hstart Hgoal] Hw. split; try done.
  intros w' [?| ->%list_elem_of_singleton]%elem_of_app; [by apply Hdone|done].
Qed.

(** A neighbour generated for the first time lies one edge further than
    the dequeued node, and no route to it is shorter. *)
Lemma bfs_expand_new_shortest L v p done front back visited w :
  bfs_expand_inv g s goal L v p done front back visited →
  w ∈ get_neighbors g v → w ∉ visited →
  route g s (p ++ [w]) w ∧
  length (p ++ [w]) = S L ∧
  ∀ q, route g s q w → (length (p ++ [w]) ≤ length q)%nat.
Proof.
  intros Hinv Hedge Hw.
  destruct (bfs_expand_current _ _ _ _ _ _ _ _ _ _ Hinv) as [Hp HL].
  assert (length (p ++ [w]) = S L) as Hlen by (rewrite length_app; simpl; lia).
  split_and!; [by eapply route_step|done|].
  intros q Hq. rewrite Hlen.
  destruct (decide (length q ≤ L)%nat) as [Hle|?]; [|lia].
  destruct Hw. by eapply (bfs_expand_level _ _ _ _ _ _ _ _ _ _ Hinv).
Qed.

Lemma bfs_expand_push L v p done front back visited w :
  bfs_expand_inv g s goal L v p done front back visited →
  w ∈ get_neighbors g v → w ∉ visited → w ≠ goal →
  bfs_expand_inv g s goal L v p (done ++ [w])
    front (back ++ [(w, p ++ [w])]) ({[w]} ∪ visited).
Proof.
  intros Hinv Hedge Hw Hgoal'.
  destruct (bfs_expand_new_shortest _ _ _ _ _ _ _ _ Hinv Hedge Hw)
    as (Hroute & Hlen & Hmin).
  destruct Hinv as [Hent Hlevel Hfront Hback Hvis Hcur Hdone Hstart Hgoal].
  split; try done.
  - intros u q. rewrite app_assoc.
    intros [Hu|[= -> ->]%list_elem_of_singleton]%elem_of_app.
    + destruct (Hent _ _ Hu) as (? & ? & ?). split_and!; [done|set_solver|done].
    + split_and!; [done|set_solver|done].
  - intros q x Hq Hle. apply elem_of_union. right. by eapply Hlevel.
  - apply Forall_app. split; [done|]. by repeat constructor.
  - intros x [->%elem_of_singleton|Hx]%elem_of_union.
    + left. exists (p ++ [w]). rewrite app_assoc. apply elem_of_app. right. by left.
    + destruct (Hvis x Hx) as [[q Hq]|[->|Hexp]].
      * left. exists q. rewrite app_assoc. apply elem_of_app. by left.
      * right. by left.
      * right. right. intros w' Hw'. apply elem_of_union. right. by apply Hexp.
  - intros w' [?| ->%list_elem_of_singleton]%elem_of_app; [|set_solver].
    apply elem_of_union. right. by apply Hdone.
  - set_solver.
  - set_solver.
Qed.

(** The [for] loop: it either returns a shortest route to the goal, or
    keeps the invariant and does not increase the measure. *)
Lemma bfs_neighbors_correct L v p front neighbors :
  ∀ done back visited,
  bfs_expand_inv g s goal L v p done front back visited →
  (∀ w, w ∈ neighbors → w ∈ get_neighbors g v) →
  match bfs_neighbors goal p neighbors visited (front ++ back) with
  | inl r =>
      success r = true ∧ route g s (path r) goal ∧
      ∀ q, route g s q goal → (length (path r) ≤ length q)%nat
  | inr (visited', queue') =>
      ∃ back', queue' = front ++ back' ∧
        bfs_expand_inv g s goal L v p (done ++ neighbors) front back' visited' ∧
        (bfs_measure g queue' visited' ≤ bfs_measure g (front ++ back) visited)%nat
  end.
Proof.
  induction neighbors as [|w neighbors IH]; intros done back visited Hinv Hsub; simpl.
  { exists back. rewrite app_nil_r. done. }
  assert (w ∈ get_neighbors g v) as Hedge by (apply Hsub; by left).
  assert (∀ w', w' ∈ neighbors → w' ∈ get_neighbors g v) as Hsub'.
  { intros w' Hw'. apply Hsub. by right. }
  case_bool_decide as Hw.
  - specialize (IH (done ++ [w]) back visited
                  (bfs_expand_seen _ _ _ _ _ _ _ _ Hinv Hw) Hsub').
    destruct (bfs_neighbors _ _ _ _ _) as [r|[visited' queue']]; [done|].
    destruct IH as (back' & ? & ? & ?). exists back'. by rewrite <-app_assoc in *.
  - case_bool_decide as Hgoal.
    + subst w. simpl.
      destruct (bfs_expand_new_shortest _ _ _ _ _ _ _ _ Hinv Hedge Hw) as (? & _ & ?).
      done.
    + specialize (IH (done ++ [w]) (back ++ [(w, p ++ [w])]) ({[w]} ∪ visited)
                    (bfs_expand_push _ _ _ _ _ _ _ _ Hinv Hedge Hw Hgoal) Hsub').
      rewrite app_assoc in IH.
      destruct (bfs_neighbors _ _ _ _ _) as [r|[visited' queue']]; [done|].
      destruct IH as (back' & ? & ? & Hm). exists back'.
      rewrite <-app_assoc in *. split_and!; [done..|].
      etrans; [exact Hm|]. unfold bfs_measure.
      rewrite !length_app. simpl.
      assert (w ∈ listed_nodes g ∖ visited) as Hin.
      { apply elem_of_difference. split; [by eapply elem_of_listed_nodes|done]. }
      replace (listed_nodes g ∖ ({[w]} ∪ visited))
        with ((listed_nodes g ∖ visited) ∖ {[w]}) by set_solver.
      rewrite size_difference by set_solver. rewrite size_singleton.
      assert (size (listed_nodes g ∖ visited) ≠ 0)%nat.
      { intros Hz%size_empty_inv. set_solver. }
      lia.
Qed.

(** With enough fuel the loop ends: with a shortest route to the goal, or
    with a failure when no route leads to the goal. *)
Lemma bfs_loop_correct fuel : ∀ L front back visited,
  bfs_inv g s goal L front back visited →
  (bfs_measure g (front ++ back) visited < fuel)%nat →
  ∃ r, bfs_loop fuel g goal (front ++ back) visited = Some r ∧
    ((success r = true ∧ route g s (path r) goal ∧
      ∀ q, route g s q goal → (length (path r) ≤ length q)%nat) ∨
     (success r = false ∧ path r = [] ∧ ¬ ∃ q, route g s q goal)).
Proof.
  induction fuel as [|fuel IH]; intros L front back visited Hinv Hfuel; [lia|].
  assert (∀ L v p front back,
    bfs_inv g s goal L ((v, p) :: front) back visited →
    (bfs_measure g (((v, p) :: front) ++ back) visited < S fuel)%nat →
    ∃ r, bfs_loop (S fuel) g goal (((v, p) :: front) ++ back) visited = Some r ∧
      ((success r = true ∧ route g s (path r) goal ∧
        ∀ q, route g s q goal → (length (path r) ≤ length q)%nat) ∨
       (success r = false ∧ path r = [] ∧ ¬ ∃ q, route g s q goal))) as Hstep.
  { clear L front back Hinv Hfuel. intros L v p front back Hinv Hfuel. simpl.
    pose proof (bfs_neighbors_correct L v p front (get_neighbors g v) [] back visited
                  (bfs_expand_begin _ _ _ _ _ _ Hinv) (λ _ H, H)) as Hexp.
    destruct (bfs_neighbors _ _ _ _ _) as [r|[visited' queue']].
    - exists r. split; [done|by left].
    - destruct Hexp as (back' & -> & Hinv' & Hm).
      apply (IH L); [by eapply bfs_expand_end|].
      unfold bfs_measure in *. simpl in Hfuel. lia. }
  destruct front as [|[v p] front].
  - destruct back as [|[v p] back].
    + exists (mkSearchResult [] false). split; [done|]. right.
      split_and!; [done..|]. intros [q Hq].
      assert (∀ q x, route g s q x → x ∈ visited) as Hall.
      { clear q Hq. intros q x. induction 1 as [|q u x _ IHu Hx].
        - apply (bfs_inv_start _ _ _ _ _ _ _ Hinv).
        - destruct (bfs_inv_visited _ _ _ _ _ _ _ Hinv u IHu) as [[pu Hpu]|Hexp].
          + by apply not_elem_of_nil in Hpu.
          + by apply Hexp. }
      apply (bfs_inv_goal _ _ _ _ _ _ _ Hinv). by eapply Hall.
    + apply bfs_inv_shift in Hinv.
      specialize (Hstep (S L) v p back [] Hinv).
      rewrite app_nil_r in Hstep. by apply Hstep.
  - by apply (Hstep L).
Qed.
End bfs_proofs.

(** C3. For two nodes of an unweighted graph with a route from the start
    to the goal, and with [bfs_fuel g] fuel or more, breadth-first search
    returns a success whose path is a route from the start to the goal, and
    no route between them has fewer nodes, that is, fewer edges. *)
Theorem bfs_shortest_path g start goal fuel :
  start ∈ dom (adjacency_list g) → goal ∈ dom (adjacency_list g) →
  (∃ q, bfs_dfs.route g start q goal) →
  (bfs_dfs.bfs_fuel g ≤ fuel)%nat →
  ∃ r, bfs_dfs.TravelEthiopiaSearch._breadth_first_search fuel g start goal = Some r ∧
    bfs_dfs.success r = true ∧
    head (bfs_dfs.path r) = Some start ∧ last (bfs_dfs.path r) = Some goal ∧
    bfs_dfs.route g start (bfs_dfs.path r) goal ∧
    ∀ q, bfs_dfs.route g start q goal →
      (length (bfs_dfs.path r) - 1 ≤ length q - 1)%nat.
Proof.
  intros Hstart Hgoal Hreach Hfuel.
  unfold bfs_dfs.TravelEthiopiaSearch._breadth_first_search.
  rewrite !bool_decide_eq_false_2 by (by intros ?).
  case_bool_decide as Heq.
  - subst goal. eexists. split; [done|]. simpl.
    split_and!; [done..|apply bfs_dfs.route_start|]. intros q _. lia.
  - destruct (bfs_loop_correct g start goal fuel 1 [(start, [start])] [] {[start]})
      as (r & Hr & [(Hs & Hroute & Hmin)|(_ & _ & Hno)]).
    + by apply bfs_inv_initial.
    + unfold bfs_dfs.bfs_measure, bfs_dfs.bfs_fuel in *. simpl.
      pose proof (subseteq_size (bfs_dfs.listed_nodes g ∖ {[start]})
                    (bfs_dfs.listed_nodes g)) as Hsize.
      assert (bfs_dfs.listed_nodes g ∖ {[start]} ⊆ bfs_dfs.listed_nodes g)
        as Hsub%Hsize by set_solver.
      lia.
    + exists r. split_and!; [done..|by eapply route_head|by eapply route_last|done|].
      intros q Hq. specialize (Hmin q Hq). lia.
    + done.
Qed.

Lemma bfs_shortest_path_witness :
  ∃ r, bfs_dfs.TravelEthiopiaSearch._breadth_first_search 10 bfs_dfs.diamond "A" "E"
         = Some r ∧
    bfs_dfs.success r = true ∧
    head (bfs_dfs.path r) = Some "A" ∧ last (bfs_dfs.path r) = Some "E" ∧
    bfs_dfs.route bfs_dfs.diamond "A" (bfs_dfs.path r) "E" ∧
    ∀ q, bfs_dfs.route bfs_dfs.diamond "A" q "E" →
      (length (bfs_dfs.path r) - 1 ≤ length q - 1)%nat.
Proof.
  apply (bfs_shortest_path bfs_dfs.diamond "A" "E" 10).
  - by_compute.
  - by_compute.
  - exists (((["A"] ++ ["B"]) ++ ["C"]) ++ ["E"]).
    eapply bfs_dfs.route_step;
      [eapply bfs_dfs.route_step;
         [eapply bfs_dfs.route_step; [apply bfs_dfs.route_start|by_compute]
         |by_compute]
      |by_compute].
  - vm_compute. lia.
Defined.

Example bfs_diamond :
  bfs_dfs.TravelEthiopiaSearch._breadth_first_search 10 bfs_dfs.diamond "A" "E"
    = Some (bfs_dfs.mkSearchResult ["A"; "B"; "C"; "E"] true).
Proof. vm_compute. reflexivity. Qed.

Example dfs_diamond :
  bfs_dfs.TravelEthiopiaSearch._depth_first_search 10 bfs_dfs.diamond "A" "E"
    = Some (bfs_dfs.mkSearchResult ["A"; "B"; "C"; "E"] true).
Proof. vm_compute. reflexivity. Qed.

(** ** The checks made before the loops *)

(** C8. When the start or the goal is not a key of the adjacency an
    algorithm consults, the algorithm returns, whatever the fuel, the failed
    result: success is false and the path is empty. BFS and DFS consult the
    unweighted adjacency, UCS and A* the weighted one; in a graph built by
    [add_weighted_edge] the two have the same keys. Selected through
    [TravelEthiopiaSearch.search] by their names, BFS and DFS return that
    result and raise nothing. *)
Theorem unknown_node_fails :
  (∀ fuel g start goal,
     start ∉ dom (adjacency_list g) ∨ goal ∉ dom (adjacency_list g) →
     bfs_dfs.TravelEthiopiaSearch._breadth_first_search fuel g start goal
       = Some (bfs_dfs.mkSearchResult [] false) ∧
     bfs_dfs.TravelEthiopiaSearch._depth_first_search fuel g start goal
       = Some (bfs_dfs.mkSearchResult [] false) ∧
     bfs_dfs.TravelEthiopiaSearch.search fuel g start goal "bfs"
       = Some (bfs_dfs.Return (bfs_dfs.mkSearchResult [] false)) ∧
     bfs_dfs.TravelEthiopiaSearch.search fuel g start goal "dfs"
       = Some (bfs_dfs.Return (bfs_dfs.mkSearchResult [] false))) ∧
  (∀ fuel g heuristics start goal,
     start ∉ dom (weighted_adjacency g) ∨ goal ∉ dom (weighted_adjacency g) →
     ucs.UniformCostSearch.search fuel g start goal
       = Some (ucs.mkUCSResult [] 0 false) ∧
     astar.AStarSearch.search fuel g heuristics start goal
       = Some (astar.mkAStarResult [] 0 false)) ∧
  (∀ fuel g heuristics start goal,
     built g →
     start ∉ dom (adjacency_list (base g)) ∨ goal ∉ dom (adjacency_list (base g)) →
     ucs.UniformCostSearch.search fuel g start goal
       = Some (ucs.mkUCSResult [] 0 false) ∧
     astar.AStarSearch.search fuel g heuristics start goal
       = Some (astar.mkAStarResult [] 0 false)).
Proof.
  assert (∀ fuel g heuristics start goal,
     start ∉ dom (weighted_adjacency g) ∨ goal ∉ dom (weighted_adjacency g) →
     ucs.UniformCostSearch.search fuel g start goal
       = Some (ucs.mkUCSResult [] 0 false) ∧
     astar.AStarSearch.search fuel g heuristics start goal
       = Some (astar.mkAStarResult [] 0 false)) as Hweighted.
  { intros fuel g heuristics start goal Hout.
    unfold ucs.UniformCostSearch.search, astar.AStarSearch.search.
    destruct Hout as [Hout|Hout].
    - by rewrite !(bool_decide_eq_true_2 _ Hout).
    - rewrite !(bool_decide_eq_true_2 _ Hout). by repeat case_bool_decide. }
  split_and!.
  - intros fuel g start goal Hout.
    assert (bfs_dfs.TravelEthiopiaSearch._breadth_first_search fuel g start goal
              = Some (bfs_dfs.mkSearchResult [] false) ∧
            bfs_dfs.TravelEthiopiaSearch._depth_first_search fuel g start goal
              = Some (bfs_dfs.mkSearchResult [] false)) as [Hbfs Hdfs].
    { unfold bfs_dfs.TravelEthiopiaSearch._breadth_first_search,
        bfs_dfs.TravelEthiopiaSearch._depth_first_search.
      destruct Hout as [Hout|Hout].
      - by rewrite !(bool_decide_eq_true_2 _ Hout).
      - rewrite !(bool_decide_eq_true_2 _ Hout). by repeat case_bool_decide. }
    split_and!; [done..| |].
    + unfold bfs_dfs.TravelEthiopiaSearch.search.
      change (bfs_dfs.TravelEthiopiaSearch.lower "bfs") with "bfs".
      rewrite bool_decide_eq_true_2 by done. by rewrite Hbfs.
    + unfold bfs_dfs.TravelEthiopiaSearch.search.
      change (bfs_dfs.TravelEthiopiaSearch.lower "dfs") with "dfs".
      rewrite bool_decide_eq_false_2 by done.
      rewrite bool_decide_eq_true_2 by done. by rewrite Hdfs.
  - exact Hweighted.
  - intros fuel g heuristics start goal Hbuilt Hout.
    apply Hweighted. by rewrite (built_dom g Hbuilt).
Qed.

(** The node Z is not in the triangle. *)
Lemma unknown_node_fails_witness :
  ucs.UniformCostSearch.search 10 triangle "A" "Z"
    = Some (ucs.mkUCSResult [] 0 false) ∧
  astar.AStarSearch.search 10 triangle ∅ "A" "Z"
    = Some (astar.mkAStarResult [] 0 false).
Proof.
  apply (proj1 (proj2 unknown_node_fails) 10%nat triangle ∅ "A" "Z").
  right. by_compute.
Defined.

(** C7, as the code has it. For a key [s] of the adjacency the algorithm
    consults and whatever the fuel: BFS and DFS return the path [[s]] with
    success true, in a result that has no cost attribute; UCS and A* return
    the path [[s]], the total cost 0 and success true. *)
Theorem self_search_trivial :
  (∀ fuel g s,
     s ∈ dom (adjacency_list g) →
     bfs_dfs.TravelEthiopiaSearch._breadth_first_search fuel g s s
       = Some (bfs_dfs.mkSearchResult [s] true) ∧
     bfs_dfs.TravelEthiopiaSearch._depth_first_search fuel g s s
       = Some (bfs_dfs.mkSearchResult [s] true) ∧
     bfs_dfs.getattr (bfs_dfs.mkSearchResult [s] true) "total_cost" = None) ∧
  (∀ fuel g heuristics s,
     s ∈ dom (weighted_adjacency g) →
     ucs.UniformCostSearch.search fuel g s s = Some (ucs.mkUCSResult [s] 0 true) ∧
     astar.AStarSearch.search fuel g heuristics s s
       = Some (astar.mkAStarResult [s] 0 true)).
Proof.
  split.
  - intros fuel g s Hs.
    unfold bfs_dfs.TravelEthiopiaSearch._breadth_first_search,
      bfs_dfs.TravelEthiopiaSearch._depth_first_search.
    rewrite !bool_decide_eq_false_2 by (by intros ?).
    by rewrite !bool_decide_eq_true_2.
  - intros fuel g heuristics s Hs.
    unfold ucs.UniformCostSearch.search, astar.AStarSearch.search.
    rewrite !bool_decide_eq_false_2 by (by intros ?).
    by rewrite !bool_decide_eq_true_2.
Qed.

Lemma self_search_trivial_witness :
  ucs.UniformCostSearch.search 0 triangle "A" "A"
    = Some (ucs.mkUCSResult ["A"] 0 true) ∧
  astar.AStarSearch.search 0 triangle ∅ "A" "A"
    = Some (astar.mkAStarResult ["A"] 0 true).
Proof.
  apply (proj2 self_search_trivial 0%nat triangle ∅ "A"). by_compute.
Defined.

(** C7, as it is stated, fails for BFS and DFS: the result they return
    on a node of the graph has the path and the success flag, and no total
    cost, so none that is 0. *)
Lemma self_search_counterexample :
  ¬ (∃ r, bfs_dfs.TravelEthiopiaSearch._breadth_first_search 10 bfs_dfs.diamond "A" "A"
            = Some r ∧
          bfs_dfs.getattr r "path" = Some (bfs_dfs.PathAttr ["A"]) ∧
          bfs_dfs.getattr r "total_cost" = Some (bfs_dfs.CostAttr 0) ∧
          bfs_dfs.getattr r "success" = Some (bfs_dfs.BoolAttr true)) ∧
  ¬ (∃ r, bfs_dfs.TravelEthiopiaSearch._depth_first_search 10 bfs_dfs.diamond "A" "A"
            = Some r ∧
          bfs_dfs.getattr r "path" = Some (bfs_dfs.PathAttr ["A"]) ∧
          bfs_dfs.getattr r "total_cost" = Some (bfs_dfs.CostAttr 0) ∧
          bfs_dfs.getattr r "success" = Some (bfs_dfs.BoolAttr true)).
Proof.
  split; intros (r & Hr & _ & Hcost & _); vm_compute in Hr; by simplify_eq.
Qed.

(** The nodes of a weighted graph, for UCS and A*, are the keys of the
    weighted adjacency: a node that [add_node] alone has added is a key of
    the unweighted adjacency only, and the two searches do not know it. *)
Example lone_node_unknown :
  "X" ∈ dom (adjacency_list (base lone_node)) ∧
  ("X" ∉ dom (weighted_adjacency lone_node)) ∧
  ucs.UniformCostSearch.search 10 lone_node "X" "X" = Some (ucs.mkUCSResult [] 0 false) ∧
  astar.AStarSearch.search 10 lone_node ∅ "X" "X" = Some (astar.mkAStarResult [] 0 false).
Proof.
  split_and!; [by_compute|by_compute|vm_compute; reflexivity..].
Qed.

(** ** Multi-goal uniform-cost search *)

Section multigoal_proofs.
Import ucs ucs.MultiGoalUCS.

Context (fuel : nat) (g : WeightedGraph).

Local Abbreviation ucs_search := (UniformCostSearch.search fuel g).

Lemma nearest_None current l : ∀ best,
  nearest fuel g current l best = None ↔
  ∃ x, x ∈ l ∧ ucs_search current x = None.
Proof.
  induction l as [|a l IH]; intros best; simpl.
  { split; [done|]. by intros (x & ?%not_elem_of_nil & _). }
  destruct (ucs_search current a) as [ra|] eqn:Ha; simpl.
  - rewrite IH. split.
    + intros (x & Hx & Hnone). exists x. split; [by right|done].
    + intros (x & [->|Hx]%elem_of_cons & Hnone); [congruence|by exists x].
  - split; [|done]. intros _. exists a. split; [by left|done].
Qed.

(** When the loop over the goals finds nothing, UCS failed for each. *)
Lemma nearest_nothing current l : ∀ best,
  nearest fuel g current l best = Some None →
  best = None ∧
  ∀ x, x ∈ l → ∃ r, ucs_search current x = Some r ∧ success r = false.
Proof.
  induction l as [|a l IH]; intros best; simpl.
  { intros [= ->]. split; [done|]. by intros x ?%not_elem_of_nil. }
  destruct (ucs_search current a) as [ra|] eqn:Ha; simpl; [|done].
  intros [Hbest Hall]%IH.
  destruct (success ra) eqn:Hsucc; simpl in Hbest.
  - destruct best as [[b rb]|]; [|done]. by case_bool_decide.
  - split; [done|]. intros x [->|Hx]%elem_of_cons; [by exists ra|by apply Hall].
Qed.

(** What the loop over the goals finds is the initial best, which no goal
    beats, or the first goal, in the order of iteration, whose cost is the
    least: it beats the initial best and the goals before it, and the goals
    after it do not beat it. *)
Lemma nearest_found current l : ∀ best x r,
  nearest fuel g current l best = Some (Some (x, r)) →
  (best = Some (x, r) ∧
   ∀ y ry, y ∈ l → ucs_search current y = Some ry → success ry = true →
     total_cost r ≤ total_cost ry) ∨
  (∃ l1 l2, l = l1 ++ x :: l2 ∧
     ucs_search current x = Some r ∧ success r = true ∧
     (∀ b rb, best = Some (b, rb) → total_cost r < total_cost rb) ∧
     (∀ y ry, y ∈ l1 → ucs_search current y = Some ry → success ry = true →
        total_cost r < total_cost ry) ∧
     (∀ y ry, y ∈ l2 → ucs_search current y = Some ry → success ry = true →
        total_cost r ≤ total_cost ry)).
Proof.
  induction l as [|a l IH]; intros best x r; simpl.
  { intros [= ->]. left. split; [done|]. by intros y ry ?%not_elem_of_nil. }
  destruct (ucs_search current a) as [ra|] eqn:Ha; simpl; [|done].
  intros [[Hbest Hrest]|(l1 & l2 & -> & Hx & Hsucc & Hbeats & Hbefore & Hafter)]%IH.
  - destruct (success ra) eqn:Hra; simpl in Hbest.
    + destruct best as [[b rb]|].
      * case_bool_decide as Hlt; simplify_eq.
        -- right. exists [], l. split_and!; [done..| | |done].
           ++ by intros ? ? [= <- <-].
           ++ by intros y ry ?%not_elem_of_nil.
        -- left. split; [done|].
           intros y ry [->|Hy]%elem_of_cons Hy' Hsy; [|by eapply Hrest].
           simplify_eq. lia.
      * simplify_eq. right. exists [], l. split_and!; [done..| | |done].
        -- done.
        -- by intros y ry ?%not_elem_of_nil.
    + left. split; [done|].
      intros y ry [->|Hy]%elem_of_cons Hy' Hsy; [congruence|by eapply Hrest].
  - right. exists (a :: l1), l2. split_and!; [done..| | |done].
    + intros b rb ->. destruct (success ra); simpl in Hbeats; [|by eapply Hbeats].
      case_bool_decide as Hlt; [|by eapply Hbeats].
      specialize (Hbeats _ _ eq_refl). lia.
    + intros y ry [->|Hy]%elem_of_cons Hy' Hsy; [|by eapply Hbefore].
      simplify_eq. rewrite Hsy in Hbeats. simpl in Hbeats.
      destruct best as [[b rb]|]; [|by eapply Hbeats].
      case_bool_decide as Hlt; [by eapply Hbeats|].
      specialize (Hbeats _ _ eq_refl). lia.
Qed.

(** The goal found from no initial best is a cheapest one. *)
Lemma nearest_cheapest current l x r :
  nearest fuel g current l None = Some (Some (x, r)) →
  x ∈ l ∧ ucs_search current x = Some r ∧ success r = true ∧
  ∀ y ry, y ∈ l → ucs_search current y = Some ry → success ry = true →
    total_cost r ≤ total_cost ry.
Proof.
  intros [[? _]|(l1 & l2 & -> & Hx & Hsucc & _ & Hbefore & Hafter)]%nearest_found;
    [done|].
  split_and!; [set_solver|done..|].
  intros y ry [Hy|[->|Hy]%elem_of_cons]%elem_of_app Hy' Hsy.
  - specialize (Hbefore _ _ Hy Hy' Hsy). lia.
  - simplify_eq. lia.
  - by eapply Hafter.
Qed.

Lemma remove_elem_of x y l : y ∈ remove x l ↔ y ∈ l ∧ y ≠ x.
Proof. unfold remove. rewrite list_elem_of_filter. tauto. Qed.

Lemma remove_NoDup x l : NoDup l → NoDup (remove x l).
Proof. apply NoDup_filter. Qed.

Lemma remove_length x l : x ∈ l → (length (remove x l) < length l)%nat.
Proof. intros Hx. apply (length_filter_lt _ _ x); [done|]. by intros []. Qed.

Lemma remove_absent x l : x ∉ l → remove x l = l.
Proof.
  unfold remove. induction l as [|a l IH]; [done|].
  intros [Ha Hl]%not_elem_of_cons. rewrite filter_cons.
  rewrite decide_True by done. by rewrite IH.
Qed.

Lemma remove_Permutation x l : NoDup l → x ∈ l → l ≡ₚ x :: remove x l.
Proof.
  induction 1 as [|a l Ha Hnd IH]; [by intros ?%not_elem_of_nil|].
  intros Hx. unfold remove. rewrite filter_cons. fold (remove x l).
  destruct (decide (a = x)) as [->|Hne].
  - rewrite decide_False by (by intros ?). by rewrite remove_absent.
  - rewrite decide_True by done.
    apply elem_of_cons in Hx as [->|Hx]; [done|].
    rewrite (IH Hx) at 1. apply Permutation_swap.
Qed.

(** Whenever UCS returns for every pair, the loop returns, and what it
    returns is a greedy route. *)
Lemma loop_greedy rounds : ∀ unvisited current route cost order,
  (∀ c x, is_Some (ucs_search c x)) →
  (length unvisited ≤ rounds)%nat →
  ∃ result,
    loop rounds fuel g unvisited current route cost order = Some result ∧
    greedy fuel g unvisited current route cost order result.
Proof.
  intros unvisited current route cost order Htotal. revert unvisited current route cost order.
  induction rounds as [|rounds IH]; intros unvisited current route cost order Hlen.
  { destruct unvisited; [|simpl in Hlen; lia].
    eexists. split; [done|apply greedy_done]. }
  destruct unvisited as [|a unvisited]; [eexists; split; [done|apply greedy_done]|].
  set (l := a :: unvisited) in *.
  change (loop (S rounds) fuel g l current route cost order)
    with (best ← nearest fuel g current l None;
          match best with
          | None => Some (mkMultiGoalResult route cost order false)
          | Some (best_goal, best_result) =>
              loop rounds fuel g (remove best_goal l) best_goal
                (route ++ tail (path best_result))
                (cost + ucs.total_cost best_result) (order ++ [best_goal])
          end).
  destruct (nearest fuel g current l None) as [[[x r]|]|] eqn:Hnear; simpl.
  - destruct (nearest_cheapest _ _ _ _ Hnear) as (Hx & Hr & Hsucc & Hmin).
    destruct (IH (remove x l) x (route ++ tail (path r))
                (cost + ucs.total_cost r) (order ++ [x])) as (result & Hres & Hgreedy).
    { pose proof (remove_length x l Hx). lia. }
    exists result. split; [done|]. by eapply greedy_commit.
  - apply nearest_nothing in Hnear as [_ Hall].
    eexists. split; [done|]. by apply greedy_stuck.
  - apply nearest_None in Hnear as (x & _ & Hnone).
    destruct (Htotal current x) as [? ?]. congruence.
Qed.

(** A greedy route that succeeds visits every goal that was left. *)
Lemma greedy_visits_all unvisited current route cost order result :
  greedy fuel g unvisited current route cost order result →
  NoDup unvisited → multi_success result = true →
  visit_order result ≡ₚ order ++ unvisited.
Proof.
  induction 1 as [| |unvisited current route cost order x r result Hx _ _ _ _ IH];
    intros Hnd Hsucc; simpl in *.
  - by rewrite app_nil_r.
  - done.
  - rewrite IH by (by try apply remove_NoDup).
    rewrite <-app_assoc. f_equiv. simpl. symmetry. by apply remove_Permutation.
Qed.

(** The loop over the goals does not depend on their order when no two of
    them are tied. *)
Lemma nearest_Permutation current l1 l2 :
  l1 ≡ₚ l2 →
  (∀ x y, x ∈ l1 → y ∈ l1 → x ≠ y → tied fuel g current x y = false) →
  nearest fuel g current l1 None = nearest fuel g current l2 None.
Proof.
  intros Hperm Hfree.
  assert (∀ x, x ∈ l1 ↔ x ∈ l2) as Hel by (intros x; by rewrite Hperm).
  assert (∀ la lb xa ra xb rb,
    (∀ x, x ∈ la ↔ x ∈ lb) →
    (∀ x y, x ∈ la → y ∈ la → x ≠ y → tied fuel g current x y = false) →
    nearest fuel g current la None = Some (Some (xa, ra)) →
    nearest fuel g current lb None = Some (Some (xb, rb)) →
    (xa, ra) = (xb, rb)) as Hsame.
  { intros la lb xa ra xb rb Hab Hfree' Ha Hb.
    apply nearest_cheapest in Ha as (Hxa & Hra & Hsa & Hmina).
    apply nearest_cheapest in Hb as (Hxb & Hrb & Hsb & Hminb).
    apply Hab in Hxb as Hxb'. apply Hab in Hxa as Hxa'.
    specialize (Hmina _ _ Hxb' Hrb Hsb). specialize (Hminb _ _ Hxa' Hra Hsa).
    destruct (decide (xa = xb)) as [->|Hne]; [congruence|].
    specialize (Hfree' _ _ Hxa Hxb' Hne). unfold tied in Hfree'.
    rewrite Hra, Hrb, Hsa, Hsb in Hfree'. simpl in Hfree'.
    apply bool_decide_eq_false in Hfree'. lia. }
  assert (∀ la lb xb rb,
    (∀ x, x ∈ la ↔ x ∈ lb) →
    nearest fuel g current la None = Some None →
    nearest fuel g current lb None = Some (Some (xb, rb)) → False) as Hnone.
  { intros la lb xb rb Hab [_ Hall]%nearest_nothing
      (Hxb & Hrb & Hsb & _)%nearest_cheapest.
    apply Hab in Hxb. destruct (Hall _ Hxb) as (r & Hr & Hs). congruence. }
  destruct (nearest fuel g current l1 None) as [[[x1 r1]|]|] eqn:H1,
           (nearest fuel g current l2 None) as [[[x2 r2]|]|] eqn:H2; try done.
  - do 2 f_equal. by eapply Hsame.
  - destruct (Hnone l2 l1 x1 r1); [by intros x; symmetry|done..].
  - apply nearest_None in H2 as (x & Hx%Hel & Hn).
    assert (nearest fuel g current l1 None = None) as Hc
      by (apply nearest_None; eauto). congruence.
  - destruct (Hnone l1 l2 x2 r2); done.
  - apply nearest_None in H2 as (x & Hx%Hel & Hn).
    assert (nearest fuel g current l1 None = None) as Hc
      by (apply nearest_None; eauto). congruence.
  - apply nearest_None in H1 as (x & Hx%Hel & Hn).
    assert (nearest fuel g current l2 None = None) as Hc
      by (apply nearest_None; eauto). congruence.
  - apply nearest_None in H1 as (x & Hx%Hel & Hn).
    assert (nearest fuel g current l2 None = None) as Hc
      by (apply nearest_None; eauto). congruence.
Qed.

Lemma tie_free_tied initial goals current x y :
  tie_free fuel g initial goals →
  current ∈ initial :: goals → x ∈ goals → y ∈ goals → x ≠ y →
  tied fuel g current x y = false.
Proof.
  unfold tie_free. rewrite Forall_forall. intros Hfree Hc Hx Hy Hne.
  specialize (Hfree _ Hc). rewrite Forall_forall in Hfree.
  specialize (Hfree _ Hx). rewrite Forall_forall in Hfree.
  by apply Hfree.
Qed.

Lemma loop_Permutation initial goals rounds :
  tie_free fuel g initial goals →
  ∀ l1 l2 current route cost order,
  l1 ≡ₚ l2 → (∀ x, x ∈ l1 → x ∈ goals) → current ∈ initial :: goals →
  loop rounds fuel g l1 current route cost order
    = loop rounds fuel g l2 current route cost order.
Proof.
  intros Hfree. induction rounds as [|rounds IH];
    intros l1 l2 current route cost order Hperm Hsub Hcur.
  { destruct l1, l2; try done.
    - by apply Permutation_nil_cons in Hperm.
    - symmetry in Hperm. by apply Permutation_nil_cons in Hperm. }
  destruct l1 as [|a1 l1], l2 as [|a2 l2]; try done.
  { by apply Permutation_nil_cons in Hperm. }
  { symmetry in Hperm. by apply Permutation_nil_cons in Hperm. }
  set (la := a1 :: l1) in *. set (lb := a2 :: l2) in *.
  change (loop (S rounds) fuel g la current route cost order)
    with (best ← nearest fuel g current la None;
          match best with
          | None => Some (mkMultiGoalResult route cost order false)
          | Some (best_goal, best_result) =>
              loop rounds fuel g (remove best_goal la) best_goal
                (route ++ tail (path best_result))
                (cost + ucs.total_cost best_result) (order ++ [best_goal])
          end).
  change (loop (S rounds) fuel g lb current route cost order)
    with (best ← nearest fuel g current lb None;
          match best with
          | None => Some (mkMultiGoalResult route cost order false)
          | Some (best_goal, best_result) =>
              loop rounds fuel g (remove best_goal lb) best_goal
                (route ++ tail (path best_result))
                (cost + ucs.total_cost best_result) (order ++ [best_goal])
          end).
  rewrite <-(nearest_Permutation current la lb Hperm).
  - destruct (nearest fuel g current la None) as [[[x r]|]|] eqn:Hnear; simpl; try done.
    apply nearest_cheapest in Hnear as (Hx & _).
    apply IH.
    + unfold remove. by rewrite Hperm.
    + intros y [Hy _]%remove_elem_of. by apply Hsub.
    + right. by apply Hsub.
  - intros x y Hx Hy Hne. eapply tie_free_tied; eauto.
Qed.
End multigoal_proofs.

Lemma forward_order_iteration : ucs.set_iteration ucs.forward_order.
Proof.
  intros l. split; [apply NoDup_remove_dups|]. intros x. apply elem_of_remove_dups.
Qed.

Lemma backward_order_iteration : ucs.set_iteration ucs.backward_order.
Proof.
  intros l. unfold ucs.backward_order. split.
  - rewrite reverse_Permutation. apply NoDup_remove_dups.
  - intros x. rewrite elem_of_reverse. apply elem_of_remove_dups.
Qed.

Lemma set_iteration_Permutation o1 o2 l :
  ucs.set_iteration o1 → ucs.set_iteration o2 → o1 l ≡ₚ o2 l.
Proof.
  intros H1 H2. destruct (H1 l) as [Hnd1 Hel1], (H2 l) as [Hnd2 Hel2].
  apply NoDup_Permutation; [done..|]. intros x. by rewrite Hel1, Hel2.
Qed.

(** ** Shortest walks and the result of uniform-cost search *)

Lemma ucs_search_shortest g fuel s t c :
  nonnegative g → (search_fuel g ≤ fuel)%nat →
  s ∈ dom (weighted_adjacency g) → t ∈ dom (weighted_adjacency g) →
  shortest g s t c →
  ∃ r, ucs.UniformCostSearch.search fuel g s t = Some r ∧
       ucs.success r = true ∧ ucs.total_cost r = c.
Proof.
  intros Hnn Hfuel Hs Ht [[p Hp] Hmin].
  destruct (ucs_search_result g s t fuel Hnn Hfuel)
    as (r & Hr & [[_ [?|?]]|[(Hsucc & Hwalk & Hmin')|(_ & _ & Hno)]]); try done.
  - exists r. split_and!; [done..|].
    specialize (Hmin _ _ Hwalk). specialize (Hmin' _ _ Hp). lia.
  - destruct Hno. by exists p, c.
Qed.

Lemma ucs_search_success_shortest g fuel s t r :
  nonnegative g → (search_fuel g ≤ fuel)%nat →
  ucs.UniformCostSearch.search fuel g s t = Some r → ucs.success r = true →
  shortest g s t (ucs.total_cost r).
Proof.
  intros Hnn Hfuel Hr Hsucc.
  destruct (ucs_search_result g s t fuel Hnn Hfuel)
    as (r' & Hr' & [[-> _]|[(_ & Hwalk & Hmin)|(Hfail & _)]]); simplify_eq.
  - split; [by eexists|done].
  - congruence.
Qed.

(** In a symmetric graph every walk can be walked back at the same cost. *)
Lemma walk_reverse g s p t c :
  symmetric_costs g → walk g s p t c → ∃ p', walk g t p' s c.
Proof.
  intros Hsym. induction 1 as [|p v c w e _ [p' IH] He].
  - eexists. apply walk_start.
  - apply Hsym in He.
    pose proof (walk_step g w [w] w 0 v e (walk_start g w) He) as Hback.
    eexists. replace (c + e) with (0 + e + c) by lia. by eapply walk_trans.
Qed.

Lemma greedy_nil_inv fuel g current route cost order result :
  ucs.greedy fuel g [] current route cost order result →
  result = ucs.mkMultiGoalResult route cost order true.
Proof.
  inversion 1 as [| |? ? ? ? ? x r ? Hx]; subst; [done..|].
  by apply not_elem_of_nil in Hx.
Qed.

(** A round in which UCS succeeds for some unvisited goal commits. *)
Lemma greedy_commit_inv fuel g unvisited current route cost order result z rz :
  ucs.greedy fuel g unvisited current route cost order result →
  z ∈ unvisited →
  ucs.UniformCostSearch.search fuel g current z = Some rz → ucs.success rz = true →
  ∃ x r, x ∈ unvisited ∧
    ucs.UniformCostSearch.search fuel g current x = Some r ∧ ucs.success r = true ∧
    (∀ y ry, y ∈ unvisited →
       ucs.UniformCostSearch.search fuel g current y = Some ry →
       ucs.success ry = true → ucs.total_cost r ≤ ucs.total_cost ry) ∧
    ucs.greedy fuel g (ucs.MultiGoalUCS.remove x unvisited) x
      (route ++ tail (ucs.path r)) (cost + ucs.total_cost r) (order ++ [x]) result.
Proof.
  intros Hgreedy Hz Hrz Hsz.
  inversion Hgreedy as [|? ? ? ? ? _ Hall|? ? ? ? ? x r ? Hx Hr Hs Hmin Hrest]; subst.
  - by apply not_elem_of_nil in Hz.
  - destruct (Hall z Hz) as (r & Hr & Hs). congruence.
  - by exists x, r.
Qed.

Lemma NoDup_singleton_inv (l : list string) b :
  NoDup l → (∀ x, x ∈ l ↔ x = b) → l = [b].
Proof.
  intros Hnd Hel. destruct l as [|a l].
  { assert (b ∈ @nil string) as ?%not_elem_of_nil by by apply Hel. done. }
  assert (a = b) as -> by (apply Hel; by left).
  destruct l as [|a' l]; [done|].
  assert (a' = b) as -> by (apply Hel; right; by left).
  apply NoDup_cons in Hnd as [Hnin _]. destruct Hnin. by left.
Qed.

(** C5. With a goal set iterated in any order, on a graph without negative
    costs and with [search_fuel g] fuel or more, [MultiGoalUCS.search]
    returns, and what it returns is a greedy route: every round commits to
    an unvisited goal whose UCS cost from the current location is the least,
    appends the UCS path without its first node, adds its cost and moves
    there; a round in which UCS fails for every unvisited goal returns the
    route and cost so far with success false; otherwise the result has
    success true and every goal is in the visit order. From a start with
    two goals [A] and [B] of a symmetric graph, [A] nearer than [B], the
    visit order is [A] then [B], and the total cost is the cost of a
    cheapest walk from the start to [A] plus that of one from [A] to [B]. *)
Theorem multi_goal_greedy_route set_order fuel g initial goals :
  ucs.set_iteration set_order → nonnegative g → (search_fuel g ≤ fuel)%nat →
  ∃ result,
    ucs.MultiGoalUCS.search set_order fuel g initial goals = Some result ∧
    ucs.greedy fuel g (set_order goals) initial [initial] 0 [] result ∧
    (ucs.multi_success result = true →
       ∀ x, x ∈ goals → x ∈ ucs.visit_order result) ∧
    (∀ A B cA cB,
       symmetric_costs g →
       initial ∈ dom (weighted_adjacency g) →
       A ∈ dom (weighted_adjacency g) → B ∈ dom (weighted_adjacency g) →
       A ≠ B → (∀ x, x ∈ goals ↔ x = A ∨ x = B) →
       shortest g initial A cA → shortest g initial B cB → cA < cB →
       ∃ cAB, shortest g A B cAB ∧
         ucs.visit_order result = [A; B] ∧
         ucs.multi_total_cost result = cA + cAB ∧
         ucs.multi_success result = true).
Proof.
  intros Hiter Hnn Hfuel.
  destruct (Hiter goals) as [Hnd Hel].
  assert (∀ c x, is_Some (ucs.UniformCostSearch.search fuel g c x)) as Htotal.
  { intros c x. destruct (ucs_search_result g c x fuel Hnn Hfuel) as (r & -> & _).
    by eexists. }
  destruct (loop_greedy fuel g (length (set_order goals)) (set_order goals)
              initial [initial] 0 [] Htotal (le_n _)) as (result & Hres & Hgreedy).
  exists result. split_and!; [done..| |].
  - intros Hsucc x Hx.
    rewrite (greedy_visits_all _ _ _ _ _ _ _ _ Hgreedy Hnd Hsucc). simpl.
    by apply Hel.
  - intros A B cA cB Hsym Hinit HA HB Hne Hgoals HcA HcB Hlt.
    destruct (ucs_search_shortest g fuel initial A cA Hnn Hfuel Hinit HA HcA)
      as (rA & HrA & HsA & HcostA).
    destruct (ucs_search_shortest g fuel initial B cB Hnn Hfuel Hinit HB HcB)
      as (rB & HrB & HsB & HcostB).
    assert (A ∈ set_order goals) as HinA by (apply Hel, Hgoals; by left).
    assert (B ∈ set_order goals) as HinB by (apply Hel, Hgoals; by right).
    destruct (greedy_commit_inv _ _ _ _ _ _ _ _ _ _ Hgreedy HinA HrA HsA)
      as (x & r & Hx & Hr & Hs & Hmin & Hrest).
    assert (x = A) as ->.
    { apply Hel, Hgoals in Hx as [->| ->]; [done|].
      simplify_eq. specialize (Hmin _ _ HinA HrA HsA). lia. }
    simplify_eq.
    assert (ucs.MultiGoalUCS.remove A (set_order goals) = [B]) as Hleft.
    { apply NoDup_singleton_inv; [by apply remove_NoDup|].
      intros y. rewrite remove_elem_of, Hel, Hgoals. naive_solver. }
    rewrite Hleft in Hrest.
    assert (reachable g A B) as (pAB & cAB' & HwAB).
    { destruct HcA as [[pA HpA] _], HcB as [[pB HpB] _].
      destruct (walk_reverse _ _ _ _ _ Hsym HpA) as [pA' HpA'].
      eexists _, _. by eapply walk_trans. }
    destruct (ucs_search_result g A B fuel Hnn Hfuel)
      as (rAB & HrAB & [[_ [?|?]]|[(HsAB & _)|(_ & _ & Hno)]]); try done.
    2:{ destruct Hno. by eexists _, _. }
    destruct (greedy_commit_inv _ _ _ _ _ _ _ _ B rAB Hrest)
      as (y & r' & Hy & Hr' & Hs' & _ & Hrest'); [by left|done..|].
    apply list_elem_of_singleton in Hy as ->.
    assert (r' = rAB) as -> by congruence.
    assert (ucs.MultiGoalUCS.remove B [B] = []) as Hnone.
    { unfold ucs.MultiGoalUCS.remove. rewrite filter_cons.
      by rewrite decide_False by (by intros ?). }
    rewrite Hnone in Hrest'. apply greedy_nil_inv in Hrest' as ->.
    exists (ucs.total_cost rAB). split_and!; [|done| |done].
    + by eapply ucs_search_success_shortest.
    + simpl. lia.
Qed.

(** On the line S, A, B the goals B and A are visited as A then B, at the
    cost 1 of the walk from S to A plus the cost of a cheapest walk from A
    to B. *)
Lemma multi_goal_greedy_route_witness :
  ∃ result cAB,
    ucs.MultiGoalUCS.search ucs.forward_order 10 line "S" ["B"; "A"] = Some result ∧
    ucs.greedy 10 line (ucs.forward_order ["B"; "A"]) "S" ["S"] 0 [] result ∧
    shortest line "A" "B" cAB ∧
    ucs.visit_order result = ["A"; "B"] ∧
    ucs.multi_total_cost result = 1 + cAB ∧
    ucs.multi_success result = true.
Proof.
  assert (nonnegative line) as Hnn by by_compute.
  assert (search_fuel line ≤ 10)%nat as Hfuel by (vm_compute; lia).
  destruct (multi_goal_greedy_route ucs.forward_order 10 line "S" ["B"; "A"]
              forward_order_iteration Hnn Hfuel) as (result & Hres & Hgreedy & _ & Htwo).
  destruct (Htwo "A" "B" 1 3) as (cAB & ? & ? & ? & ?).
  - apply built_symmetric. unfold line. repeat apply built_add. apply built_empty.
  - by_compute.
  - by_compute.
  - by_compute.
  - discriminate.
  - intros x. rewrite !elem_of_cons, elem_of_nil. tauto.
  - apply (ucs_search_success_shortest line 10 "S" "A"
             (ucs.mkUCSResult ["S"; "A"] 1 true) Hnn Hfuel); by vm_compute.
  - apply (ucs_search_success_shortest line 10 "S" "B"
             (ucs.mkUCSResult ["S"; "A"; "B"] 3 true) Hnn Hfuel); by vm_compute.
  - lia.
  - by exists result, cAB.
Defined.

Example multi_goal_line :
  ucs.MultiGoalUCS.search ucs.forward_order 10 line "S" ["B"; "A"]
    = Some (ucs.mkMultiGoalResult ["S"; "A"; "B"] 3 ["A"; "B"] true).
Proof. vm_compute. reflexivity. Qed.

(** A goal that cannot be reached stops the route where it stands. *)
Example multi_goal_partial :
  ucs.MultiGoalUCS.search ucs.forward_order 10 triangle "A" ["C"; "D"]
    = Some (ucs.mkMultiGoalResult ["A"; "B"; "C"] 2 ["C"] false).
Proof. vm_compute. reflexivity. Qed.

(** C9, as the code has it. The searches are functions of their inputs:
    the one container whose layout is not fixed by them, the heap of UCS and
    of A*, pops the same element whatever its layout. Multi-goal UCS
    depends, besides its inputs, on the order in which the set of unvisited
    goals is iterated. For every such order the goal a round commits to is
    the first, in that order, of the goals of least UCS cost: it beats the
    goals before it, and the goals after it do not beat it. When no two
    goals are tied, from the start or from a goal, every order of iteration
    gives the same result. *)
Theorem multi_goal_order_independent fuel g initial goals :
  (∀ pq1 pq2 x1 rest1 x2 rest2,
     pq1 ≡ₚ pq2 →
     heappop ucs.entry_ltb pq1 = Some (x1, rest1) →
     heappop ucs.entry_ltb pq2 = Some (x2, rest2) →
     x1 = x2 ∧ rest1 ≡ₚ rest2) ∧
  (∀ pq1 pq2 x1 rest1 x2 rest2,
     pq1 ≡ₚ pq2 →
     heappop astar.entry_ltb pq1 = Some (x1, rest1) →
     heappop astar.entry_ltb pq2 = Some (x2, rest2) →
     x1 = x2 ∧ rest1 ≡ₚ rest2) ∧
  (∀ current unvisited x r,
     ucs.MultiGoalUCS.nearest fuel g current unvisited None = Some (Some (x, r)) →
     ∃ before after, unvisited = before ++ x :: after ∧
       ucs.UniformCostSearch.search fuel g current x = Some r ∧
       ucs.success r = true ∧
       (∀ y ry, y ∈ before →
          ucs.UniformCostSearch.search fuel g current y = Some ry →
          ucs.success ry = true → ucs.total_cost r < ucs.total_cost ry) ∧
       (∀ y ry, y ∈ after →
          ucs.UniformCostSearch.search fuel g current y = Some ry →
          ucs.success ry = true → ucs.total_cost r ≤ ucs.total_cost ry)) ∧
  (∀ order1 order2,
     ucs.set_iteration order1 → ucs.set_iteration order2 →
     ucs.tie_free fuel g initial goals →
     ucs.MultiGoalUCS.search order1 fuel g initial goals
       = ucs.MultiGoalUCS.search order2 fuel g initial goals).
Proof.
  split_and!.
  - apply ucs_heappop_layout.
  - apply astar_heappop_layout.
  - intros current unvisited x r
      [[? _]|(before & after & ? & ? & ? & _ & ? & ?)]%nearest_found; [done|].
    by exists before, after.
  - intros order1 order2 H1 H2 Hfree. unfold ucs.MultiGoalUCS.search.
    pose proof (set_iteration_Permutation order1 order2 goals H1 H2) as Hperm.
    rewrite (Permutation_length Hperm).
    apply (loop_Permutation fuel g initial goals); [done..| |by left].
    intros x Hx. by apply (H1 goals).
Qed.

Lemma multi_goal_order_independent_witness :
  ucs.MultiGoalUCS.search ucs.forward_order 10 line "S" ["B"; "A"]
    = ucs.MultiGoalUCS.search ucs.backward_order 10 line "S" ["B"; "A"].
Proof.
  apply (proj2 (proj2 (proj2 (multi_goal_order_independent 10 line "S" ["B"; "A"])))).
  - apply forward_order_iteration.
  - apply backward_order_iteration.
  - by_compute.
Defined.

(** C9, as it is stated, fails. On the fork, where A and B both lie at
    cost 1 from S, two orders of iteration of the same goal set give two
    different visit orders. *)
Lemma multi_goal_tie_counterexample :
  ucs.set_iteration ucs.forward_order ∧ ucs.set_iteration ucs.backward_order ∧
  ucs.MultiGoalUCS.search ucs.forward_order 10 fork "S" ["A"; "B"]
    = Some (ucs.mkMultiGoalResult ["S"; "A"; "S"; "B"] 3 ["A"; "B"] true) ∧
  ucs.MultiGoalUCS.search ucs.backward_order 10 fork "S" ["A"; "B"]
    = Some (ucs.mkMultiGoalResult ["S"; "B"; "S"; "A"] 3 ["B"; "A"] true) ∧
  ucs.MultiGoalUCS.search ucs.forward_order 10 fork "S" ["A"; "B"]
    ≠ ucs.MultiGoalUCS.search ucs.backward_order 10 fork "S" ["A"; "B"].
Proof.
  split_and!.
  - apply forward_order_iteration.
  - apply backward_order_iteration.
  - vm_compute. reflexivity.
  - vm_compute. reflexivity.
  - vm_compute. congruence.
Qed.

(** ** The unweighted adjacency *)

Lemma get_neighbors_add_node k g x :
  get_neighbors (add_node k g) x = get_neighbors g x.
Proof.
  unfold get_neighbors, add_node. destruct (adjacency_list g !! k) eqn:Hk; [done|].
  simpl. destruct (decide (k = x)) as [->|Hne].
  - by rewrite lookup_insert_eq, Hk.
  - by rewrite lookup_insert_ne.
Qed.

Lemma get_neighbors_link x y g z :
  get_neighbors (link x y g) z =
    if bool_decide (z = x ∧ y ∉ get_neighbors g x)
    then get_neighbors g x ++ [y] else get_neighbors g z.
Proof.
  unfold link. case_bool_decide as Hin.
  - rewrite bool_decide_eq_false_2; [done|]. naive_solver.
  - case_bool_decide as Hz.
    + destruct Hz as [-> _]. unfold get_neighbors at 1. simpl.
      by rewrite lookup_insert_eq.
    + unfold get_neighbors at 1. simpl. rewrite lookup_insert_ne; [done|].
      naive_solver.
Qed.

Lemma get_neighbors_add_edge_raw a b g z :
  get_neighbors (add_edge a b g) z =
    get_neighbors (link b a (link a b g)) z.
Proof.
  unfold add_edge. rewrite !get_neighbors_link, !get_neighbors_add_node.
  repeat case_bool_decide; try done; naive_solver.
Qed.

(** The lists after one call of [add_edge], when the called-on graph is
    symmetric. *)
Lemma add_edge_lists g a b z :
  symmetric_neighbors g →
  get_neighbors (add_edge a b g) z =
    get_neighbors g z ++
      (if bool_decide (b ∈ get_neighbors g a) then []
       else (if bool_decide (z = a) then [b] else []) ++
            (if bool_decide (z = b ∧ a ≠ b) then [a] else [])).
Proof.
  intros Hsym. rewrite get_neighbors_add_edge_raw, !get_neighbors_link.
  pose proof (Hsym a b) as Hab.
  destruct (decide (a = b)) as [->|Hne].
  - repeat case_bool_decide; simplify_eq; simpl;
      rewrite ?app_nil_r in *; try done; set_solver.
  - repeat case_bool_decide; simplify_eq; simpl;
      rewrite ?app_nil_r in *; try done; try naive_solver.
Qed.

Lemma add_edge_symmetric g a b :
  symmetric_neighbors g → symmetric_neighbors (add_edge a b g).
Proof.
  intros Hsym x y. rewrite !add_edge_lists by done. specialize (Hsym x y).
  repeat case_bool_decide; simplify_eq; simpl;
    rewrite ?app_nil_r, ?elem_of_app, ?list_elem_of_singleton; naive_solver.
Qed.

Lemma add_node_symmetric g a :
  symmetric_neighbors g → symmetric_neighbors (add_node a g).
Proof. intros Hsym x y. by rewrite !get_neighbors_add_node. Qed.

Lemma built_graph_symmetric g : built_graph g → symmetric_neighbors g.
Proof.
  induction 1 as [|g a _ IH|g a b _ IH].
  - intros a b. unfold get_neighbors. simpl. rewrite !lookup_empty. simpl.
    split; intros H; by apply not_elem_of_nil in H.
  - by apply add_node_symmetric.
  - by apply add_edge_symmetric.
Qed.

Lemma built_graph_NoDup g a : built_graph g → NoDup (get_neighbors g a).
Proof.
  intros Hbuilt. revert a. induction Hbuilt as [|g k _ IH|g x y Hb IH]; intros a.
  - unfold get_neighbors. simpl. rewrite lookup_empty. apply NoDup_nil_2.
  - by rewrite get_neighbors_add_node.
  - pose proof (built_graph_symmetric g Hb) as Hsym.
    rewrite add_edge_lists by done. specialize (IH a).
    pose proof (Hsym x y) as Hxy.
    repeat case_bool_decide; destruct_and?; simplify_eq; simpl;
      rewrite ?app_nil_r; try done;
      (apply NoDup_app; split_and!; [done| |]; simpl;
        [intros ? ? ?%list_elem_of_singleton; naive_solver
        |apply NoDup_singleton]).
Qed.

Lemma get_neighbors_dom g a b : b ∈ get_neighbors g a → a ∈ dom (adjacency_list g).
Proof.
  unfold get_neighbors. intros Hb. apply elem_of_dom.
  destruct (adjacency_list g !! a); [done|]. by apply not_elem_of_nil in Hb.
Qed.

Lemma built_graph_closed g a b :
  built_graph g → b ∈ get_neighbors g a → b ∈ dom (adjacency_list g).
Proof.
  intros Hbuilt. revert a b. induction Hbuilt as [|g k _ IH|g x y Hb IH]; intros a b.
  - unfold get_neighbors. simpl. rewrite lookup_empty. by intros ?%not_elem_of_nil.
  - rewrite get_neighbors_add_node, dom_add_node. intros Hin%IH. set_solver.
  - rewrite add_edge_lists by (by apply built_graph_symmetric).
    rewrite dom_add_edge. intros [Hin%IH|Hin]%elem_of_app; [set_solver|].
    repeat case_bool_decide; simpl in Hin; set_solver.
Qed.

Lemma add_node_known g a : a ∈ dom (adjacency_list g) → add_node a g = g.
Proof. intros [l Hl]%elem_of_dom. unfold add_node. by rewrite Hl. Qed.

Lemma link_known g a b : b ∈ get_neighbors g a → link a b g = g.
Proof. intros Hb. unfold link. by rewrite bool_decide_eq_true_2. Qed.

(** X1. In an unweighted graph built by calls of [add_node] and [add_edge]:
    the adjacency is symmetric; no neighbour occurs twice in a list; every
    listed neighbour is itself a node of the graph; and [add_edge] on two
    nodes that are already neighbours, in either order, returns the graph
    unchanged. *)
Theorem add_edge_invariants g :
  built_graph g →
  (∀ a b, b ∈ get_neighbors g a ↔ a ∈ get_neighbors g b) ∧
  (∀ a, NoDup (get_neighbors g a)) ∧
  (∀ a b, b ∈ get_neighbors g a →
     a ∈ dom (adjacency_list g) ∧ b ∈ dom (adjacency_list g)) ∧
  (∀ a b, b ∈ get_neighbors g a → add_edge a b g = g ∧ add_edge b a g = g).
Proof.
  intros Hbuilt. pose proof (built_graph_symmetric g Hbuilt) as Hsym.
  split_and!.
  - exact Hsym.
  - intros a. by apply built_graph_NoDup.
  - intros a b Hb. split; [by eapply get_neighbors_dom|by eapply built_graph_closed].
  - assert (∀ a b, b ∈ get_neighbors g a → add_edge a b g = g) as Hsame.
    { intros a b Hb. unfold add_edge.
      rewrite (add_node_known g a) by (by eapply get_neighbors_dom).
      rewrite (add_node_known g b) by (by eapply built_graph_closed).
      rewrite (link_known g a b) by done.
      apply link_known. by apply Hsym. }
    intros a b Hb. split; [by apply Hsame|]. apply Hsame. by apply Hsym.
Qed.

Lemma add_edge_invariants_witness :
  (∀ a b, b ∈ get_neighbors bfs_dfs.diamond a ↔ a ∈ get_neighbors bfs_dfs.diamond b) ∧
  (∀ a, NoDup (get_neighbors bfs_dfs.diamond a)) ∧
  (∀ a b, b ∈ get_neighbors bfs_dfs.diamond a →
     a ∈ dom (adjacency_list bfs_dfs.diamond) ∧
     b ∈ dom (adjacency_list bfs_dfs.diamond)) ∧
  (∀ a b, b ∈ get_neighbors bfs_dfs.diamond a →
     add_edge a b bfs_dfs.diamond = bfs_dfs.diamond ∧
     add_edge b a bfs_dfs.diamond = bfs_dfs.diamond).
Proof.
  apply (add_edge_invariants bfs_dfs.diamond).
  unfold bfs_dfs.diamond. repeat apply built_graph_edge. apply built_graph_empty.
Defined.

(** *** The two adjacencies of a weighted graph *)

Lemma built_base g : built g → built_graph (base g).
Proof.
  induction 1 as [|g a b c _ IH]; [apply built_graph_empty|].
  simpl. by apply built_graph_edge.
Qed.

Lemma built_neighbors g a :
  built g → get_neighbors (base g) a = (get_weighted_neighbors g a).*1.
Proof.
  intros Hbuilt. revert a. induction Hbuilt as [|g x y c Hb IH]; intros a.
  - unfold get_neighbors, get_weighted_neighbors. simpl. by rewrite !lookup_empty.
  - rewrite add_weighted_edge_lists by (by apply built_symmetric).
    change (base (add_weighted_edge x y c g)) with (add_edge x y (base g)).
    rewrite add_edge_lists by (by apply built_graph_symmetric, built_base).
    rewrite fmap_app, !IH.
    repeat case_bool_decide; simplify_eq; try done; naive_solver.
Qed.

(** X2. In a weighted graph built by calls of [add_weighted_edge], the
    inherited unweighted adjacency and the weighted one never drift apart:
    they have the same keys, and the neighbour list of every node is the
    list of its weighted neighbours, in the same order, with the costs
    dropped. *)
Theorem weighted_graph_consistent g :
  built g →
  dom (adjacency_list (base g)) = dom (weighted_adjacency g) ∧
  ∀ a, get_neighbors (base g) a = (get_weighted_neighbors g a).*1.
Proof.
  intros Hbuilt. split; [by rewrite built_dom|].
  intros a. by apply built_neighbors.
Qed.

Lemma weighted_graph_consistent_witness :
  dom (adjacency_list (base triangle)) = dom (weighted_adjacency triangle) ∧
  ∀ a, get_neighbors (base triangle) a = (get_weighted_neighbors triangle a).*1.
Proof.
  apply (weighted_graph_consistent triangle).
  unfold triangle. repeat apply built_add. apply built_empty.
Defined.

(** *** [get_cost] *)

Section get_cost.
Implicit Types (l : list (string * Z)).

Lemma find_neighbor_None y l :
  List.find (λ p, bool_decide (p.1 = y)) l = None ↔ y ∉ l.*1.
Proof.
  induction l as [|[x k] l IH]; simpl.
  - split; [intros _; apply not_elem_of_nil|done].
  - case_bool_decide as Hx; simpl in Hx.
    + subst x. split; [done|]. intros Hnin. exfalso. apply Hnin. left.
    + rewrite IH, not_elem_of_cons. naive_solver.
Qed.

Lemma find_neighbor_Some y k l :
  NoDup l.*1 →
  List.find (λ p, bool_decide (p.1 = y)) l = Some (y, k) ↔ (y, k) ∈ l.
Proof.
  induction l as [|[x c] l IH]; simpl; intros Hnd.
  - split; [done|]. by intros ?%not_elem_of_nil.
  - apply NoDup_cons in Hnd as [Hx Hnd]. case_bool_decide as Hxy; simpl in Hxy.
    + subst x. rewrite elem_of_cons. split; [intros [= ->]; by left|].
      intros [[= ->]|Hin]; [done|]. exfalso. apply Hx.
      apply list_elem_of_fmap. by exists (y, k).
    + rewrite IH by done. rewrite elem_of_cons. naive_solver.
Qed.

Lemma find_neighbor_fst y l p :
  List.find (λ p, bool_decide (p.1 = y)) l = Some p → p.1 = y.
Proof.
  intros [_ Hp]%find_some. by apply bool_decide_eq_true in Hp.
Qed.

Lemma find_neighbor_app y l l' :
  List.find (λ p, bool_decide (p.1 = y)) (l ++ l') =
    match List.find (λ p, bool_decide (p.1 = y)) l with
    | Some p => Some p
    | None => List.find (λ p, bool_decide (p.1 = y)) l'
    end.
Proof.
  induction l as [|q l IH]; simpl; [done|]. by destruct (bool_decide _).
Qed.
End get_cost.

Lemma get_cost_None g a b :
  get_cost g a b = None ↔ b ∉ (get_weighted_neighbors g a).*1.
Proof.
  unfold get_cost. rewrite <- find_neighbor_None.
  destruct (List.find _ _); simpl; naive_solver.
Qed.

Lemma get_cost_Some g a b c :
  simple_lists g →
  get_cost g a b = Some c ↔ (b, c) ∈ get_weighted_neighbors g a.
Proof.
  intros Hnd. rewrite <- (find_neighbor_Some b c) by apply Hnd.
  unfold get_cost.
  destruct (List.find _ _) as [[x k]|] eqn:Hfind; simpl; [|naive_solver].
  apply find_neighbor_fst in Hfind. simpl in Hfind. naive_solver.
Qed.

Lemma get_cost_symmetric g a b :
  symmetric_costs g → simple_lists g → get_cost g a b = get_cost g b a.
Proof.
  intros Hsym Hnd.
  destruct (get_cost g a b) as [c|] eqn:Hab.
  - symmetry. apply get_cost_Some; [done|]. apply Hsym. by apply get_cost_Some.
  - destruct (get_cost g b a) as [c|] eqn:Hba; [|done].
    apply get_cost_Some, Hsym, get_cost_Some in Hba; [congruence|done..].
Qed.

(** X3. In a weighted graph built by calls of [add_weighted_edge],
    [get_cost] reads the weighted adjacency exactly: it returns [c] for the
    pair [(a, b)] just when [(b, c)] is listed for [a]; it returns [None]
    just when [b] is no neighbour of [a] in the unweighted adjacency; and it
    gives the same answer for [(a, b)] and for [(b, a)]. *)
Theorem get_cost_reads_edges g a b :
  built g →
  (∀ c, get_cost g a b = Some c ↔ (b, c) ∈ get_weighted_neighbors g a) ∧
  (get_cost g a b = None ↔ b ∉ get_neighbors (base g) a) ∧
  get_cost g a b = get_cost g b a.
Proof.
  intros Hbuilt. split_and!.
  - intros c. by apply get_cost_Some, built_simple.
  - rewrite built_neighbors by done. apply get_cost_None.
  - apply get_cost_symmetric; [by apply built_symmetric|by apply built_simple].
Qed.

Lemma get_cost_reads_edges_witness :
  (∀ c, get_cost triangle "A" "C" = Some c
        ↔ ("C", c) ∈ get_weighted_neighbors triangle "A") ∧
  (get_cost triangle "A" "C" = None ↔ "C" ∉ get_neighbors (base triangle) "A") ∧
  get_cost triangle "A" "C" = get_cost triangle "C" "A".
Proof.
  apply (get_cost_reads_edges triangle "A" "C").
  unfold triangle. repeat apply built_add. apply built_empty.
Defined.

Lemma get_cost_add g a b c x y :
  symmetric_costs g →
  get_cost (add_weighted_edge a b c g) x y =
    match get_cost g x y with
    | Some k => Some k
    | None =>
        if bool_decide ((x = a ∧ y = b) ∨ (x = b ∧ y = a)) then Some c else None
    end.
Proof.
  intros Hsym. unfold get_cost at 1.
  rewrite add_weighted_edge_lists, find_neighbor_app by done.
  fold (get_cost g x y).
  destruct (List.find _ (get_weighted_neighbors g x)) as [p|] eqn:Hfind.
  { unfold get_cost. by rewrite Hfind. }
  assert (get_cost g x y = None) as Hnone by (unfold get_cost; by rewrite Hfind).
  rewrite Hnone. apply get_cost_None in Hnone.
  pose proof (symmetric_costs_fst g x y Hsym) as Hxy.
  pose proof (symmetric_costs_fst g y x Hsym) as Hyx.
  repeat (case_bool_decide; simpl); simplify_eq; try done; naive_solver.
Qed.

(** X4. A call of [add_weighted_edge a b c] on a built graph never changes
    the cost of an edge that exists: every pair that had a cost keeps it,
    the pair [(a, b)] included, so the cost given first stays. If [a] and
    [b] had no edge, both directions get the cost [c]; all other pairs read
    as before. *)
Theorem add_weighted_edge_first_cost_stays g a b c :
  built g →
  (∀ x y k, get_cost g x y = Some k →
     get_cost (add_weighted_edge a b c g) x y = Some k) ∧
  get_cost (add_weighted_edge a b c g) a b = Some (default c (get_cost g a b)) ∧
  get_cost (add_weighted_edge a b c g) b a = Some (default c (get_cost g a b)) ∧
  (∀ x y, ¬ (x = a ∧ y = b) → ¬ (x = b ∧ y = a) →
     get_cost (add_weighted_edge a b c g) x y = get_cost g x y).
Proof.
  intros Hbuilt. pose proof (built_symmetric g Hbuilt) as Hsym.
  pose proof (built_simple g Hbuilt) as Hnd.
  split_and!.
  - intros x y k Hk. by rewrite get_cost_add, Hk.
  - rewrite get_cost_add by done. destruct (get_cost g a b); [done|].
    rewrite bool_decide_eq_true_2; [done|]. by left.
  - rewrite get_cost_add by done. rewrite (get_cost_symmetric g b a) by done.
    destruct (get_cost g a b); [done|].
    rewrite bool_decide_eq_true_2; [done|]. by right.
  - intros x y Hab Hba. rewrite get_cost_add by done.
    destruct (get_cost g x y); [done|].
    rewrite bool_decide_eq_false_2; [done|]. naive_solver.
Qed.

Lemma add_weighted_edge_first_cost_stays_witness :
  (∀ x y k, get_cost triangle x y = Some k →
     get_cost (add_weighted_edge "A" "C" 1 triangle) x y = Some k) ∧
  get_cost (add_weighted_edge "A" "C" 1 triangle) "A" "C"
    = Some (default 1 (get_cost triangle "A" "C")) ∧
  get_cost (add_weighted_edge "A" "C" 1 triangle) "C" "A"
    = Some (default 1 (get_cost triangle "A" "C")) ∧
  (∀ x y, ¬ (x = "A" ∧ y = "C") → ¬ (x = "C" ∧ y = "A") →
     get_cost (add_weighted_edge "A" "C" 1 triangle) x y = get_cost triangle x y).
Proof.
  apply (add_weighted_edge_first_cost_stays triangle "A" "C" 1).
  unfold triangle. repeat apply built_add. apply built_empty.
Defined.

(** ** Depth-first search, and the two strategies side by side *)

Section link_count.
Implicit Types (adj : gmap string (list string)).

Lemma link_count_delete adj v :
  link_count adj = (length (default [] (adj !! v)) + link_count (delete v adj))%nat.
Proof.
  unfold link_count. destruct (adj !! v) as [l|] eqn:Hv; simpl.
  - apply (map_fold_delete_L (λ _ l acc, (length l + acc)%nat)); [|done].
    intros; lia.
  - by rewrite delete_id.
Qed.

Lemma open_links_close adj closed v :
  open_links adj ({[v]} ∪ closed) = delete v (open_links adj closed).
Proof.
  apply map_eq. intros u. unfold open_links.
  destruct (decide (u = v)) as [->|Hne].
  - rewrite lookup_delete_eq. apply map_lookup_filter_None. right.
    intros l _. simpl. set_solver.
  - rewrite lookup_delete_ne by done.
    destruct (adj !! u) as [l|] eqn:Hu.
    + destruct (decide (u ∈ closed)) as [Hin|Hnin].
      * transitivity (@None (list string)); [|symmetry];
          apply map_lookup_filter_None; right; intros l' _; simpl; set_solver.
      * transitivity (Some l); [|symmetry];
          apply map_lookup_filter_Some; (split; [done|simpl; set_solver]).
    + transitivity (@None (list string)); [|symmetry];
        apply map_lookup_filter_None; by left.
Qed.

Lemma lookup_open_links adj closed v :
  v ∉ closed → open_links adj closed !! v = adj !! v.
Proof.
  intros Hv. unfold open_links.
  destruct (adj !! v) as [l|] eqn:Hl.
  - by rewrite (proj2 (map_lookup_filter_Some _ _ _ _) (conj Hl Hv)).
  - by rewrite (proj2 (map_lookup_filter_None _ _ _) (or_introl Hl)).
Qed.

(** Visiting a node removes its list from the open ones. *)
Lemma link_count_close adj closed v :
  v ∉ closed →
  link_count (open_links adj closed) =
    (length (default [] (adj !! v)) + link_count (open_links adj ({[v]} ∪ closed)))%nat.
Proof.
  intros Hv. rewrite open_links_close, (link_count_delete _ v).
  by rewrite lookup_open_links.
Qed.

Lemma open_links_empty adj : open_links adj ∅ = adj.
Proof.
  apply map_eq. intros u. apply lookup_open_links. set_solver.
Qed.
End link_count.

Section dfs_proofs.
Import bfs_dfs bfs_dfs.TravelEthiopiaSearch.

(** The stack after the [for] loop: the unvisited neighbours, the first of
    them on top, above the old stack. *)
Lemma dfs_neighbors_spec path neighbors visited stack :
  dfs_neighbors path neighbors visited stack =
    ((λ w, (w, path ++ [w])) <$> filter (λ w, w ∉ visited) neighbors) ++ stack.
Proof.
  unfold dfs_neighbors. revert stack.
  induction neighbors as [|w neighbors IH]; intros stack; [done|].
  simpl. rewrite fold_left_app. simpl. rewrite IH, filter_cons.
  case_bool_decide; case_decide; done.
Qed.

(** A route can be cut at any of its nodes. *)
Lemma route_prefix g s p t w :
  route g s p t → w ∈ p → ∃ q, route g s q w ∧ (length q ≤ length p)%nat.
Proof.
  induction 1 as [|p v x Hr IH Hx].
  - intros ->%list_elem_of_singleton. exists [s]. split; [apply route_start|done].
  - rewrite elem_of_app, list_elem_of_singleton. intros [Hw| ->].
    + destruct (IH Hw) as (q & Hq & Hlen). exists q. split; [done|].
      rewrite length_app. lia.
    + exists (p ++ [x]). split; [by eapply route_step|done].
Qed.

(** A route with a repeated node is not a shortest one. *)
Lemma route_simple_or_shorter g s p t :
  route g s p t →
  NoDup p ∨ ∃ q, route g s q t ∧ (length q < length p)%nat.
Proof.
  induction 1 as [|p v w Hr IH Hw].
  - left. apply NoDup_singleton.
  - destruct IH as [Hnd|(q & Hq & Hlen)].
    + destruct (decide (w ∈ p)) as [Hin|Hnin].
      * right. destruct (route_prefix g s p v w Hr Hin) as (q & Hq & Hlen).
        exists q. split; [done|]. rewrite length_app. simpl. lia.
      * left. apply NoDup_app. split_and!; [done| |apply NoDup_singleton].
        intros x Hx ->%list_elem_of_singleton. done.
    + right. exists (q ++ [w]). split; [by eapply route_step|].
      rewrite !length_app. simpl. lia.
Qed.

Context (g : Graph) (s goal : string).

Lemma dfs_inv_initial : dfs_inv g s goal [(s, [s])] ∅.
Proof.
  split.
  - intros v p [= -> ->]%list_elem_of_singleton.
    split_and!; [apply route_start|apply NoDup_singleton|].
    intros x ->%list_elem_of_singleton. by left.
  - set_solver.
  - right. exists [s]. by left.
  - set_solver.
Qed.

(** With an empty stack the visited set holds every node a route reaches. *)
Lemma dfs_inv_exhausted visited :
  dfs_inv g s goal [] visited → ¬ ∃ q, route g s q goal.
Proof.
  intros [_ Hclosed Hstart Hgoal] [q Hq].
  assert (s ∈ visited) as Hs.
  { destruct Hstart as [?|[p Hp]]; [done|]. by apply not_elem_of_nil in Hp. }
  apply Hgoal. clear Hgoal. induction Hq as [|p v w _ IH Hw]; [done|].
  destruct (Hclosed v w IH Hw) as [?|[p' Hp']]; [done|].
  by apply not_elem_of_nil in Hp'.
Qed.

Lemma dfs_inv_skip v p stack visited :
  dfs_inv g s goal ((v, p) :: stack) visited → v ∈ visited →
  dfs_inv g s goal stack visited.
Proof.
  intros [Hent Hclosed Hstart Hgoal] Hv. split.
  - intros u q Hin. apply Hent. by right.
  - intros x w Hx Hw. destruct (Hclosed x w Hx Hw) as [?|[q Hq]]; [by left|].
    apply elem_of_cons in Hq as [[= -> ->]|Hq]; [by left|]. right. by exists q.
  - destruct Hstart as [?|[q Hq]]; [by left|].
    apply elem_of_cons in Hq as [[= -> ->]|Hq]; [by left|]. right. by exists q.
  - done.
Qed.

Lemma dfs_inv_expand v p stack visited :
  dfs_inv g s goal ((v, p) :: stack) visited → v ∉ visited → v ≠ goal →
  dfs_inv g s goal
    (dfs_neighbors p (get_neighbors g v) ({[v]} ∪ visited) stack)
    ({[v]} ∪ visited).
Proof.
  intros [Hent Hclosed Hstart Hgoal] Hv Hne.
  rewrite dfs_neighbors_spec.
  destruct (Hent v p) as (Hroute & Hnd & Hsub); [by left|].
  split.
  - intros u q [Hin|Hin]%elem_of_app.
    + apply list_elem_of_fmap in Hin as (w & [= -> ->] & Hw).
      apply list_elem_of_filter in Hw as [Hw1 Hw2].
      split_and!.
      * by eapply route_step.
      * apply NoDup_app. split_and!; [done| |apply NoDup_singleton].
        intros x Hx Hxw%list_elem_of_singleton. apply Hw1.
        destruct (Hsub x Hx) as [->|?]; set_solver.
      * intros x [Hx| ->%list_elem_of_singleton]%elem_of_app; [|by left].
        right. destruct (Hsub x Hx) as [->|?]; set_solver.
    + destruct (Hent u q) as (? & ? & Hsub'); [by right|].
      split_and!; [done..|]. intros x Hx.
      destruct (Hsub' x Hx) as [->|?]; [by left|right; set_solver].
  - intros x w [->%elem_of_singleton|Hx]%elem_of_union Hw.
    + destruct (decide (w ∈ {[v]} ∪ visited)) as [?|Hnin]; [by left|].
      right. exists (p ++ [w]). apply elem_of_app. left.
      apply list_elem_of_fmap. exists w. split; [done|].
      by apply list_elem_of_filter.
    + destruct (Hclosed x w Hx Hw) as [?|[q Hq]]; [left; set_solver|].
      apply elem_of_cons in Hq as [[= -> ->]|Hq]; [left; set_solver|].
      right. exists q. apply elem_of_app. by right.
  - destruct Hstart as [?|[q Hq]]; [left; set_solver|].
    apply elem_of_cons in Hq as [[= -> ->]|Hq]; [left; set_solver|].
    right. exists q. apply elem_of_app. by right.
  - set_solver.
Qed.

Lemma dfs_loop_correct fuel : ∀ stack visited,
  dfs_inv g s goal stack visited →
  (dfs_measure g stack visited < fuel)%nat →
  ∃ r, dfs_loop fuel g goal stack visited = Some r ∧
    ((success r = true ∧ route g s (path r) goal ∧ NoDup (path r)) ∨
     (success r = false ∧ path r = [] ∧ ¬ ∃ q, route g s q goal)).
Proof.
  induction fuel as [|fuel IH]; intros stack visited Hinv Hfuel; [lia|].
  destruct stack as [|[v p] stack]; simpl.
  { eexists. split; [done|]. right. split_and!; [done..|].
    by eapply dfs_inv_exhausted. }
  unfold dfs_measure in Hfuel. simpl in Hfuel.
  case_bool_decide as Hv.
  { apply IH; [by eapply dfs_inv_skip|]. unfold dfs_measure. lia. }
  case_bool_decide as Hgoal.
  { subst v. eexists. split; [done|]. left. simpl.
    destruct (dfs_inv_entries _ _ _ _ _ Hinv goal p) as (? & ? & _); [by left|].
    done. }
  apply IH; [by apply dfs_inv_expand|].
  unfold dfs_measure. rewrite dfs_neighbors_spec, length_app, length_fmap.
  rewrite (link_count_close _ _ v Hv) in Hfuel.
  pose proof (length_filter (λ w, w ∉ {[v]} ∪ visited) (get_neighbors g v)) as Hlen.
  unfold get_neighbors in *. lia.
Qed.

(** What [_depth_first_search] returns, with enough fuel. *)
Lemma dfs_search_result fuel :
  (dfs_fuel g ≤ fuel)%nat →
  ∃ r, _depth_first_search fuel g s goal = Some r ∧
    ((success r = true ∧ s ∈ dom (adjacency_list g) ∧ goal ∈ dom (adjacency_list g) ∧
      route g s (path r) goal ∧ NoDup (path r)) ∨
     (success r = false ∧ path r = [] ∧
      ¬ (s ∈ dom (adjacency_list g) ∧ goal ∈ dom (adjacency_list g) ∧
         ∃ q, route g s q goal))).
Proof.
  intros Hfuel. unfold _depth_first_search.
  case_bool_decide as Hs.
  { eexists. split; [done|]. right. split_and!; [done..|]. naive_solver. }
  case_bool_decide as Ht.
  { eexists. split; [done|]. right. split_and!; [done..|]. naive_solver. }
  try apply dec_stable in Hs. try apply dec_stable in Ht.
  case_bool_decide as Heq.
  { subst goal. eexists. split; [done|]. left. simpl.
    split_and!; [done..|apply route_start|apply NoDup_singleton]. }
  destruct (dfs_loop_correct fuel [(s, [s])] ∅) as (r & Hr & Hcases).
  - apply dfs_inv_initial.
  - unfold dfs_measure, dfs_fuel in *. rewrite open_links_empty. simpl. lia.
  - exists r. split; [done|].
    destruct Hcases as [(? & ? & ?)|(? & ? & Hno)]; [left; done|].
    right. split_and!; [done..|]. naive_solver.
Qed.

(** What [_breadth_first_search] returns, with enough fuel. *)
Lemma bfs_search_result fuel :
  (bfs_fuel g ≤ fuel)%nat →
  ∃ r, _breadth_first_search fuel g s goal = Some r ∧
    ((success r = true ∧ s ∈ dom (adjacency_list g) ∧ goal ∈ dom (adjacency_list g) ∧
      route g s (path r) goal ∧
      ∀ q, route g s q goal → (length (path r) ≤ length q)%nat) ∨
     (success r = false ∧ path r = [] ∧
      ¬ (s ∈ dom (adjacency_list g) ∧ goal ∈ dom (adjacency_list g) ∧
         ∃ q, route g s q goal))).
Proof.
  intros Hfuel. unfold _breadth_first_search.
  case_bool_decide as Hs.
  { eexists. split; [done|]. right. split_and!; [done..|]. naive_solver. }
  case_bool_decide as Ht.
  { eexists. split; [done|]. right. split_and!; [done..|]. naive_solver. }
  try apply dec_stable in Hs. try apply dec_stable in Ht.
  case_bool_decide as Heq.
  { subst goal. eexists. split; [done|]. left. simpl.
    split_and!; [done..|apply route_start|]. intros q Hq.
    by apply route_length in Hq. }
  destruct (bfs_loop_correct g s goal fuel 1 [(s, [s])] [] {[s]})
    as (r & Hr & Hcases).
  - by apply bfs_inv_initial.
  - unfold bfs_measure, bfs_fuel in *. simpl.
    pose proof (subseteq_size (listed_nodes g ∖ {[s]}) (listed_nodes g)) as Hsize.
    assert (listed_nodes g ∖ {[s]} ⊆ listed_nodes g) as Hsub%Hsize by set_solver.
    lia.
  - exists r. split; [done|].
    destruct Hcases as [(? & ? & ?)|(? & ? & Hno)]; [left; done|].
    right. split_and!; [done..|]. naive_solver.
Qed.
End dfs_proofs.

(** X5. With [dfs_fuel g] fuel or more, depth-first search returns a
    result for every pair of nodes. It succeeds exactly when both nodes are
    keys of the adjacency and a route joins them; the path of a success is
    a route from the start to the goal that visits no node twice; a failure
    carries the empty path. *)
Theorem dfs_finds_simple_route g start goal fuel :
  (dfs_fuel g ≤ fuel)%nat →
  ∃ r, bfs_dfs.TravelEthiopiaSearch._depth_first_search fuel g start goal = Some r ∧
    (bfs_dfs.success r = true ↔
       start ∈ dom (adjacency_list g) ∧ goal ∈ dom (adjacency_list g) ∧
       connected g start goal) ∧
    (bfs_dfs.success r = true →
       bfs_dfs.route g start (bfs_dfs.path r) goal ∧ NoDup (bfs_dfs.path r)) ∧
    (bfs_dfs.success r = false → bfs_dfs.path r = []).
Proof.
  intros Hfuel.
  destruct (dfs_search_result g start goal fuel Hfuel) as (r & Hr & Hcases).
  exists r. split; [done|]. unfold connected.
  destruct Hcases as [(Hs & ? & ? & ? & ?)|(Hs & ? & ?)]; rewrite Hs.
  - split_and!; [|done..]. split; [|done]. intros _. split_and!; [done..|].
    by eexists.
  - split_and!; [|done..]. split; [done|]. intros. exfalso. naive_solver.
Qed.

Lemma dfs_finds_simple_route_witness :
  ∃ r, bfs_dfs.TravelEthiopiaSearch._depth_first_search 12 bfs_dfs.diamond "A" "E"
         = Some r ∧
    (bfs_dfs.success r = true ↔
       "A" ∈ dom (adjacency_list bfs_dfs.diamond) ∧
       "E" ∈ dom (adjacency_list bfs_dfs.diamond) ∧
       connected bfs_dfs.diamond "A" "E") ∧
    (bfs_dfs.success r = true →
       bfs_dfs.route bfs_dfs.diamond "A" (bfs_dfs.path r) "E" ∧
       NoDup (bfs_dfs.path r)) ∧
    (bfs_dfs.success r = false → bfs_dfs.path r = []).
Proof.
  apply (dfs_finds_simple_route bfs_dfs.diamond "A" "E" 12).
  vm_compute. lia.
Defined.

(** X6. With [bfs_fuel g] fuel or more, breadth-first search returns a
    result for every pair of nodes, and it fails only when it must: the
    result is a failure exactly when a node is no key of the adjacency or no
    route joins the two. A failure carries the empty path; the path of a
    success visits no node twice. *)
Theorem bfs_fails_only_when_unreachable g start goal fuel :
  (bfs_dfs.bfs_fuel g ≤ fuel)%nat →
  ∃ r, bfs_dfs.TravelEthiopiaSearch._breadth_first_search fuel g start goal = Some r ∧
    (bfs_dfs.success r = false ↔
       ¬ (start ∈ dom (adjacency_list g) ∧ goal ∈ dom (adjacency_list g) ∧
          connected g start goal)) ∧
    (bfs_dfs.success r = false → bfs_dfs.path r = []) ∧
    (bfs_dfs.success r = true → NoDup (bfs_dfs.path r)).
Proof.
  intros Hfuel.
  destruct (bfs_search_result g start goal fuel Hfuel) as (r & Hr & Hcases).
  exists r. split; [done|]. unfold connected.
  destruct Hcases as [(Hs & ? & ? & Hroute & Hmin)|(Hs & ? & ?)]; rewrite Hs.
  - split_and!; [|done|].
    + split; [done|]. intros Hno. exfalso. apply Hno. split_and!; [done..|].
      by eexists.
    + intros _.
      destruct (route_simple_or_shorter g start _ goal Hroute)
        as [?|(q & Hq & Hlen)]; [done|].
      specialize (Hmin q Hq). lia.
  - split_and!; [|done..]. done.
Qed.

Lemma bfs_fails_only_when_unreachable_witness :
  ∃ r, bfs_dfs.TravelEthiopiaSearch._breadth_first_search 10 pair_and_node "A" "C"
         = Some r ∧
    (bfs_dfs.success r = false ↔
       ¬ ("A" ∈ dom (adjacency_list pair_and_node) ∧
          "C" ∈ dom (adjacency_list pair_and_node) ∧
          connected pair_and_node "A" "C")) ∧
    (bfs_dfs.success r = false → bfs_dfs.path r = []) ∧
    (bfs_dfs.success r = true → NoDup (bfs_dfs.path r)).
Proof.
  apply (bfs_fails_only_when_unreachable pair_and_node "A" "C" 10).
  vm_compute. lia.
Defined.

(** X7. The dispatcher [search] reads the strategy without regard to letter
    case. With enough fuel for both loops, a strategy spelling [bfs] and one
    spelling [dfs] both return a result, the two agree on success, and the
    path of breadth-first search is never the longer one. Any other strategy
    raises [ValueError], whatever the nodes are. *)
Theorem search_strategies_agree g start goal fuel sb sd :
  bfs_dfs.TravelEthiopiaSearch.lower sb = "bfs" →
  bfs_dfs.TravelEthiopiaSearch.lower sd = "dfs" →
  (bfs_dfs.bfs_fuel g ≤ fuel)%nat → (dfs_fuel g ≤ fuel)%nat →
  (∃ rb rd,
     bfs_dfs.TravelEthiopiaSearch.search fuel g start goal sb
       = Some (bfs_dfs.Return rb) ∧
     bfs_dfs.TravelEthiopiaSearch.search fuel g start goal sd
       = Some (bfs_dfs.Return rd) ∧
     bfs_dfs.success rb = bfs_dfs.success rd ∧
     (length (bfs_dfs.path rb) ≤ length (bfs_dfs.path rd))%nat) ∧
  (∀ other,
     bfs_dfs.TravelEthiopiaSearch.search fuel g start goal other
       = Some bfs_dfs.RaiseValueError ↔
     bfs_dfs.TravelEthiopiaSearch.lower other ≠ "bfs" ∧
     bfs_dfs.TravelEthiopiaSearch.lower other ≠ "dfs").
Proof.
  intros Hsb Hsd Hbfs Hdfs.
  destruct (bfs_search_result g start goal fuel Hbfs) as (rb & Hrb & Hb).
  destruct (dfs_search_result g start goal fuel Hdfs) as (rd & Hrd & Hd).
  split.
  - exists rb, rd. unfold bfs_dfs.TravelEthiopiaSearch.search. rewrite Hsb, Hsd.
    simpl. rewrite Hrb, Hrd. split_and!; [done..| |].
    + destruct Hb as [(-> & ? & ? & ? & ?)|(-> & ? & Hnb)];
        destruct Hd as [(-> & ? & ? & ? & ?)|(-> & ? & Hnd)]; try done;
        exfalso; [apply Hnd|apply Hnb]; split_and!; try done; by eexists.
    + destruct Hb as [(Hs & ? & ? & ? & Hmin)|(Hs & -> & Hnb)]; [|simpl; lia].
      destruct Hd as [(_ & ? & ? & Hroute & ?)|(_ & ? & Hnd)].
      * by apply Hmin.
      * exfalso. apply Hnd. split_and!; try done. by eexists.
  - intros other. unfold bfs_dfs.TravelEthiopiaSearch.search.
    repeat case_bool_decide; rewrite ?Hrb, ?Hrd; simpl; naive_solver.
Qed.

Lemma search_strategies_agree_witness :
  (∃ rb rd,
     bfs_dfs.TravelEthiopiaSearch.search 12 bfs_dfs.diamond "A" "E" "BFS"
       = Some (bfs_dfs.Return rb) ∧
     bfs_dfs.TravelEthiopiaSearch.search 12 bfs_dfs.diamond "A" "E" "Dfs"
       = Some (bfs_dfs.Return rd) ∧
     bfs_dfs.success rb = bfs_dfs.success rd ∧
     (length (bfs_dfs.path rb) ≤ length (bfs_dfs.path rd))%nat) ∧
  (∀ other,
     bfs_dfs.TravelEthiopiaSearch.search 12 bfs_dfs.diamond "A" "E" other
       = Some bfs_dfs.RaiseValueError ↔
     bfs_dfs.TravelEthiopiaSearch.lower other ≠ "bfs" ∧
     bfs_dfs.TravelEthiopiaSearch.lower other ≠ "dfs").
Proof.
  apply (search_strategies_agree bfs_dfs.diamond "A" "E" 12 "BFS" "Dfs").
  - reflexivity.
  - reflexivity.
  - vm_compute. lia.
  - vm_compute. lia.
Defined.

(** *** Routes in a symmetric graph *)

Lemma route_trans g a p b q c :
  bfs_dfs.route g a p b → bfs_dfs.route g b q c → bfs_dfs.route g a (p ++ tail q) c.
Proof.
  intros Hp. induction 1 as [|q v w Hq IH Hw].
  - simpl. by rewrite app_nil_r.
  - replace (tail (q ++ [w])) with (tail q ++ [w]).
    + rewrite app_assoc. by eapply bfs_dfs.route_step.
    + destruct q; [by apply route_head in Hq|done].
Qed.

(** In a symmetric graph every route can be taken back, over as many nodes. *)
Lemma route_reverse g s p t :
  symmetric_neighbors g → bfs_dfs.route g s p t →
  ∃ p', bfs_dfs.route g t p' s ∧ length p' = length p.
Proof.
  intros Hsym. induction 1 as [|p v w _ (p' & Hp' & Hlen) Hw].
  - exists [s]. split; [apply bfs_dfs.route_start|done].
  - apply Hsym in Hw.
    pose proof (bfs_dfs.route_step g w [w] w v (bfs_dfs.route_start g w) Hw) as Hback.
    exists (([w] ++ [v]) ++ tail p'). split; [by eapply route_trans|].
    pose proof (route_length _ _ _ _ Hp').
    rewrite !length_app. destruct p' as [|x p']; simpl in *; lia.
Qed.

(** X8. In a graph built by calls of [add_node] and [add_edge] the way
    there is the way back: with enough fuel, breadth-first search from [a]
    to [b] and from [b] to [a] agree on success and return paths of the same
    length, and depth-first search in the two directions agrees on success,
    with breadth-first search and with itself. *)
Theorem bfs_dfs_both_directions g a b fuel :
  built_graph g → (bfs_dfs.bfs_fuel g ≤ fuel)%nat → (dfs_fuel g ≤ fuel)%nat →
  ∃ bab bba dab dba,
    bfs_dfs.TravelEthiopiaSearch._breadth_first_search fuel g a b = Some bab ∧
    bfs_dfs.TravelEthiopiaSearch._breadth_first_search fuel g b a = Some bba ∧
    bfs_dfs.TravelEthiopiaSearch._depth_first_search fuel g a b = Some dab ∧
    bfs_dfs.TravelEthiopiaSearch._depth_first_search fuel g b a = Some dba ∧
    bfs_dfs.success bab = bfs_dfs.success bba ∧
    length (bfs_dfs.path bab) = length (bfs_dfs.path bba) ∧
    bfs_dfs.success dab = bfs_dfs.success bab ∧
    bfs_dfs.success dba = bfs_dfs.success bab.
Proof.
  intros Hbuilt Hbfs Hdfs. pose proof (built_graph_symmetric g Hbuilt) as Hsym.
  destruct (bfs_search_result g a b fuel Hbfs) as (bab & Hbab & Hab).
  destruct (bfs_search_result g b a fuel Hbfs) as (bba & Hbba & Hba).
  destruct (dfs_search_result g a b fuel Hdfs) as (dab & Hdab & Hdab').
  destruct (dfs_search_result g b a fuel Hdfs) as (dba & Hdba & Hdba').
  exists bab, bba, dab, dba. do 4 (split; [done|]).
  assert (∀ x y, (∃ q, bfs_dfs.route g x q y) → ∃ q, bfs_dfs.route g y q x) as Hback.
  { intros x y [q Hq]. destruct (route_reverse g _ _ _ Hsym Hq) as (q' & ? & _).
    by exists q'. }
  destruct Hab as [(Hsab & ? & ? & Hrab & Hminab)|(Hsab & Hpab & Hnab)].
  - assert (∃ q, bfs_dfs.route g a q b) as Hreach by by eexists.
    destruct Hba as [(Hsba & _ & _ & Hrba & Hminba)|(_ & _ & Hnba)];
      [|exfalso; apply Hnba; split_and!; [done..|by apply Hback]].
    destruct Hdab' as [(Hsd & _)|(_ & _ & Hnd)];
      [|exfalso; apply Hnd; by split_and!].
    destruct Hdba' as [(Hsd' & _)|(_ & _ & Hnd')];
      [|exfalso; apply Hnd'; split_and!; [done..|by apply Hback]].
    rewrite Hsab, Hsba, Hsd, Hsd'. split_and!; [done| |done..].
    destruct (route_reverse g _ _ _ Hsym Hrab) as (q1 & Hq1 & Hl1).
    destruct (route_reverse g _ _ _ Hsym Hrba) as (q2 & Hq2 & Hl2).
    specialize (Hminab _ Hq2). specialize (Hminba _ Hq1). lia.
  - assert (¬ (b ∈ dom (adjacency_list g) ∧ a ∈ dom (adjacency_list g) ∧
               ∃ q, bfs_dfs.route g b q a)) as Hnba.
    { intros (? & ? & ?). apply Hnab. split_and!; [done..|by apply Hback]. }
    destruct Hba as [(_ & ? & ? & Hrba & _)|(Hsba & Hpba & _)];
      [exfalso; apply Hnba; split_and!; [done..|by eexists]|].
    destruct Hdab' as [(_ & ? & ? & Hr & _)|(Hsd & _)];
      [exfalso; apply Hnab; split_and!; [done..|by eexists]|].
    destruct Hdba' as [(_ & ? & ? & Hr & _)|(Hsd' & _)];
      [exfalso; apply Hnba; split_and!; [done..|by eexists]|].
    rewrite Hsab, Hsba, Hsd, Hsd', Hpab, Hpba. done.
Qed.

Lemma bfs_dfs_both_directions_witness :
  ∃ bab bba dab dba,
    bfs_dfs.TravelEthiopiaSearch._breadth_first_search 12 bfs_dfs.diamond "A" "E"
      = Some bab ∧
    bfs_dfs.TravelEthiopiaSearch._breadth_first_search 12 bfs_dfs.diamond "E" "A"
      = Some bba ∧
    bfs_dfs.TravelEthiopiaSearch._depth_first_search 12 bfs_dfs.diamond "A" "E"
      = Some dab ∧
    bfs_dfs.TravelEthiopiaSearch._depth_first_search 12 bfs_dfs.diamond "E" "A"
      = Some dba ∧
    bfs_dfs.success bab = bfs_dfs.success bba ∧
    length (bfs_dfs.path bab) = length (bfs_dfs.path bba) ∧
    bfs_dfs.success dab = bfs_dfs.success bab ∧
    bfs_dfs.success dba = bfs_dfs.success bab.
Proof.
  apply (bfs_dfs_both_directions bfs_dfs.diamond "A" "E" 12).
  - unfold bfs_dfs.diamond. repeat apply built_graph_edge. apply built_graph_empty.
  - vm_compute. lia.
  - vm_compute. lia.
Defined.

(** ** Uniform-cost search: the returned path and the returned cost *)

Section ucs_extra.
Import ucs ucs.UniformCostSearch.

Context (g : WeightedGraph) (goal : string).

Lemma ucs_loop_simple fuel : ∀ pq visited counter r,
  ucs_simple_inv pq visited →
  loop fuel g goal pq visited counter = Some r → NoDup (path r).
Proof.
  induction fuel as [|fuel IH]; intros pq visited counter r Hinv; [done|].
  simpl. destruct (heappop entry_ltb pq) as [[[[[c n] v] p] pq']|] eqn:Hpop;
    [|intros [= <-]; apply NoDup_nil_2].
  assert (ucs_simple_inv pq' visited) as Hinv'.
  { intros e He. apply Hinv. apply (heappop_elem_of _ _ _ _ _ Hpop). by right. }
  destruct (Hinv (c, n, v, p)) as [Hnd Hsub].
  { apply (heappop_elem_of _ _ _ _ _ Hpop). by left. }
  destruct (settled visited v c); [by apply IH|].
  case_bool_decide as Hgoal; [by intros [= <-]|].
  destruct (push_neighbors _ _ _ _ _ _) as [counter' pq''] eqn:Hpush.
  apply IH. apply push_neighbors_spec in Hpush as (Hin & _).
  intros e [He|(w & k & _ & Hw & _ & Hcity & Hpath)]%Hin.
  - destruct (Hinv' e He) as [? Hsub']. split; [done|].
    intros x Hx. destruct (Hsub' x Hx) as [?|?]; [by left|right].
    rewrite dom_insert_L. set_solver.
  - rewrite Hpath, Hcity. rewrite dom_insert_L in *. split.
    + apply NoDup_app. split_and!; [done| |apply NoDup_singleton].
      intros x Hx Hxw%list_elem_of_singleton. apply Hw.
      destruct (Hsub x Hx) as [Hxv|?]; simpl in *; set_solver.
    + intros x [Hx| ->%list_elem_of_singleton]%elem_of_app; [|by left].
      right. destruct (Hsub x Hx) as [Hxv|?]; simpl in *; set_solver.
Qed.

(** The loop has one failing result. *)
Lemma ucs_loop_failure fuel : ∀ pq visited counter r,
  loop fuel g goal pq visited counter = Some r → success r = false → r = failure.
Proof.
  induction fuel as [|fuel IH]; intros pq visited counter r; [done|].
  simpl. destruct (heappop entry_ltb pq) as [[[[[c n] v] p] pq']|];
    [|by intros [= <-]].
  destruct (settled visited v c); [by apply IH|].
  case_bool_decide; [by intros [= <-]|].
  destruct (push_neighbors _ _ _ _ _ _) as [counter' pq'']. by apply IH.
Qed.
End ucs_extra.

(** What [UniformCostSearch.search] returns, with enough fuel: a cheapest
    walk without repetition between two nodes of the graph, or the one
    failing result. *)
Lemma ucs_search_cases g s t fuel :
  nonnegative g → (search_fuel g ≤ fuel)%nat →
  ∃ r, ucs.UniformCostSearch.search fuel g s t = Some r ∧
    ((ucs.success r = true ∧
      s ∈ dom (weighted_adjacency g) ∧ t ∈ dom (weighted_adjacency g) ∧
      walk g s (ucs.path r) t (ucs.total_cost r) ∧
      (∀ p c, walk g s p t c → ucs.total_cost r ≤ c) ∧
      NoDup (ucs.path r)) ∨
     (r = ucs.failure ∧
      ¬ (s ∈ dom (weighted_adjacency g) ∧ t ∈ dom (weighted_adjacency g) ∧
         reachable g s t))).
Proof.
  intros Hnn Hfuel.
  destruct (ucs_search_result g s t fuel Hnn Hfuel) as (r & Hr & Hcases).
  exists r. split; [done|]. revert Hr Hcases.
  unfold ucs.UniformCostSearch.search.
  case_bool_decide as Hs; [intros [= <-] _; right; split; [done|naive_solver]|].
  case_bool_decide as Ht; [intros [= <-] _; right; split; [done|naive_solver]|].
  try apply dec_stable in Hs. try apply dec_stable in Ht.
  case_bool_decide as Heq.
  - intros [= <-] _. subst t. left. simpl.
    split_and!; [done..|apply walk_start| |apply NoDup_singleton].
    intros p c. by apply walk_nonneg.
  - intros Hloop [[_ [?|?]]|[(? & ? & ?)|(Hfail & _ & Hno)]]; [done..| |].
    + left. split_and!; [done..|].
      eapply ucs_loop_simple; [|done].
      intros e [= ->]%list_elem_of_singleton. simpl.
      split; [apply NoDup_singleton|].
      intros x ->%list_elem_of_singleton. by left.
    + right. split; [by eapply ucs_loop_failure|]. naive_solver.
Qed.

Lemma path_cost_snoc g p v w :
  last p = Some v →
  path_cost g (p ++ [w]) =
    match path_cost g p, get_cost g v w with
    | Some c, Some e => Some (c + e)
    | _, _ => None
    end.
Proof.
  induction p as [|a [|b p] IH]; [done| |].
  - intros [= ->]. simpl. destruct (get_cost g v w) as [e|]; [|done].
    f_equal. lia.
  - intros Hlast. specialize (IH Hlast).
    change (path_cost g ((a :: b :: p) ++ [w])) with
      (match get_cost g a b, path_cost g ((b :: p) ++ [w]) with
       | Some c, Some d => Some (c + d)
       | _, _ => None
       end).
    rewrite IH.
    change (path_cost g (a :: b :: p)) with
      (match get_cost g a b, path_cost g (b :: p) with
       | Some c, Some d => Some (c + d)
       | _, _ => None
       end).
    destruct (get_cost g a b) as [c|], (path_cost g (b :: p)) as [d|],
      (get_cost g v w) as [e|]; try done.
    f_equal. lia.
Qed.

Lemma walk_path_cost g s p t c :
  simple_lists g → walk g s p t c → path_cost g p = Some c.
Proof.
  intros Hnd. induction 1 as [|p v c w e Hwalk IH He]; [done|].
  rewrite (path_cost_snoc g p v w) by (by eapply walk_last).
  rewrite IH. by rewrite (proj2 (get_cost_Some g v w e Hnd) He).
Qed.

(** X9. On a weighted graph without negative costs and with [search_fuel g]
    fuel or more, uniform-cost search returns a path that visits no node
    twice, also where edges of cost 0 would let a cheapest walk go round in
    a circle; and it fails in one way only: with the empty path and the
    total cost 0, exactly when a node is no key of the weighted adjacency or
    the goal cannot be reached. *)
Theorem ucs_path_simple g start goal fuel :
  nonnegative g → (search_fuel g ≤ fuel)%nat →
  ∃ r, ucs.UniformCostSearch.search fuel g start goal = Some r ∧
    NoDup (ucs.path r) ∧
    (ucs.success r = false ↔
       ¬ (start ∈ dom (weighted_adjacency g) ∧ goal ∈ dom (weighted_adjacency g) ∧
          reachable g start goal)) ∧
    (ucs.success r = false → ucs.path r = [] ∧ ucs.total_cost r = 0).
Proof.
  intros Hnn Hfuel.
  destruct (ucs_search_cases g start goal fuel Hnn Hfuel)
    as (r & Hr & [(Hs & ? & ? & Hwalk & ? & ?)|[-> Hno]]).
  - exists r. rewrite Hs. split_and!; [done..| |done].
    split; [done|]. intros Hno. exfalso. apply Hno. split_and!; [done..|].
    by eexists _, _.
  - eexists. split; [done|]. simpl. split_and!; [apply NoDup_nil_2|done..].
Qed.

Lemma ucs_path_simple_witness :
  ∃ r, ucs.UniformCostSearch.search 10 triangle "A" "C" = Some r ∧
    NoDup (ucs.path r) ∧
    (ucs.success r = false ↔
       ¬ ("A" ∈ dom (weighted_adjacency triangle) ∧
          "C" ∈ dom (weighted_adjacency triangle) ∧
          reachable triangle "A" "C")) ∧
    (ucs.success r = false → ucs.path r = [] ∧ ucs.total_cost r = 0).
Proof.
  apply (ucs_path_simple triangle "A" "C" 10).
  - by_compute.
  - vm_compute. lia.
Defined.

(** X10. On a graph built by [add_weighted_edge] without negative costs, the
    cost uniform-cost search returns behaves as a distance: the search from
    [a] to [b] and the search from [b] to [a] agree on success and on the
    total cost; and when the searches from [a] to [b] and from [b] to [c]
    succeed, so does the search from [a] to [c], at no more than the sum of
    the two costs. *)
Theorem ucs_cost_is_a_distance g a b fuel :
  built g → nonnegative g → (search_fuel g ≤ fuel)%nat →
  ∃ rab rba,
    ucs.UniformCostSearch.search fuel g a b = Some rab ∧
    ucs.UniformCostSearch.search fuel g b a = Some rba ∧
    ucs.success rab = ucs.success rba ∧
    ucs.total_cost rab = ucs.total_cost rba ∧
    ∀ c rbc,
      ucs.success rab = true →
      ucs.UniformCostSearch.search fuel g b c = Some rbc →
      ucs.success rbc = true →
      ∃ rac, ucs.UniformCostSearch.search fuel g a c = Some rac ∧
        ucs.success rac = true ∧
        ucs.total_cost rac ≤ ucs.total_cost rab + ucs.total_cost rbc.
Proof.
  intros Hbuilt Hnn Hfuel. pose proof (built_symmetric g Hbuilt) as Hsym.
  destruct (ucs_search_cases g a b fuel Hnn Hfuel) as (rab & Hab & Hcab).
  destruct (ucs_search_cases g b a fuel Hnn Hfuel) as (rba & Hba & Hcba).
  exists rab, rba. split_and!; [done..| | |].
  - destruct Hcab as [(-> & ? & ? & Hw & _)|[-> Hno]];
      destruct Hcba as [(-> & ? & ? & Hw' & _)|[-> Hno']]; try done; exfalso.
    + apply Hno'. split_and!; [done..|].
      destruct (walk_reverse g _ _ _ _ Hsym Hw) as [p' Hp']. by eexists _, _.
    + apply Hno. split_and!; [done..|].
      destruct (walk_reverse g _ _ _ _ Hsym Hw') as [p' Hp']. by eexists _, _.
  - destruct Hcab as [(Hs & ? & ? & Hw & Hmin & _)|[-> Hno]];
      destruct Hcba as [(Hs' & ? & ? & Hw' & Hmin' & _)|[-> Hno']]; try done.
    + destruct (walk_reverse g _ _ _ _ Hsym Hw) as [p1 Hp1].
      destruct (walk_reverse g _ _ _ _ Hsym Hw') as [p2 Hp2].
      specialize (Hmin _ _ Hp2). specialize (Hmin' _ _ Hp1). lia.
    + exfalso. apply Hno'. split_and!; [done..|].
      destruct (walk_reverse g _ _ _ _ Hsym Hw) as [p' Hp']. by eexists _, _.
    + exfalso. apply Hno. split_and!; [done..|].
      destruct (walk_reverse g _ _ _ _ Hsym Hw') as [p' Hp']. by eexists _, _.
  - intros c rbc Hsab Hbc Hsbc.
    destruct Hcab as [(_ & ? & ? & Hw & _)|[-> _]]; [|done].
    destruct (ucs_search_cases g b c fuel Hnn Hfuel) as (r & Hr & Hcbc).
    rewrite Hbc in Hr. injection Hr as <-.
    destruct Hcbc as [(_ & ? & ? & Hw' & _)|[-> _]]; [|done].
    pose proof (walk_trans _ _ _ _ _ _ _ _ Hw Hw') as Hac.
    destruct (ucs_search_cases g a c fuel Hnn Hfuel)
      as (rac & Hrac & [(? & _ & _ & _ & Hmin & _)|[-> Hno]]).
    + exists rac. split_and!; [done..|]. by eapply Hmin.
    + exfalso. apply Hno. split_and!; [done..|]. by eexists _, _.
Qed.

Lemma ucs_cost_is_a_distance_witness :
  ∃ rab rba,
    ucs.UniformCostSearch.search 10 triangle "A" "C" = Some rab ∧
    ucs.UniformCostSearch.search 10 triangle "C" "A" = Some rba ∧
    ucs.success rab = ucs.success rba ∧
    ucs.total_cost rab = ucs.total_cost rba ∧
    ∀ c rbc,
      ucs.success rab = true →
      ucs.UniformCostSearch.search 10 triangle "C" c = Some rbc →
      ucs.success rbc = true →
      ∃ rac, ucs.UniformCostSearch.search 10 triangle "A" c = Some rac ∧
        ucs.success rac = true ∧
        ucs.total_cost rac ≤ ucs.total_cost rab + ucs.total_cost rbc.
Proof.
  apply (ucs_cost_is_a_distance triangle "A" "C" 10).
  - unfold triangle. repeat apply built_add. apply built_empty.
  - by_compute.
  - vm_compute. lia.
Defined.

(** X11. On a graph built by [add_weighted_edge] without negative costs,
    the total cost of a successful uniform-cost search is what [get_cost]
    gives for the returned path, edge by edge: every two consecutive nodes
    of the path have a cost, and the costs add up to [total_cost]. *)
Theorem ucs_total_cost_is_path_cost g start goal fuel r :
  built g → nonnegative g → (search_fuel g ≤ fuel)%nat →
  ucs.UniformCostSearch.search fuel g start goal = Some r →
  ucs.success r = true →
  path_cost g (ucs.path r) = Some (ucs.total_cost r).
Proof.
  intros Hbuilt Hnn Hfuel Hr Hs.
  destruct (ucs_search_cases g start goal fuel Hnn Hfuel)
    as (r' & Hr' & [(_ & _ & _ & Hwalk & _)|[-> _]]); simplify_eq.
  eapply walk_path_cost; [by apply built_simple|done].
Qed.

Lemma ucs_total_cost_is_path_cost_witness :
  path_cost triangle ["A"; "B"; "C"] = Some 2.
Proof.
  apply (ucs_total_cost_is_path_cost triangle "A" "C" 10
           (ucs.mkUCSResult ["A"; "B"; "C"] 2 true)).
  - unfold triangle. repeat apply built_add. apply built_empty.
  - by_compute.
  - vm_compute. lia.
  - vm_compute. reflexivity.
  - reflexivity.
Defined.

(** *** Weighted walks and unweighted routes *)

Lemma built_walk_route g s p t c :
  built g → walk g s p t c → bfs_dfs.route (base g) s p t.
Proof.
  intros Hbuilt. induction 1 as [|p v c w e _ IH He]; [apply bfs_dfs.route_start|].
  eapply bfs_dfs.route_step; [done|].
  rewrite built_neighbors by done. apply list_elem_of_fmap. by exists (w, e).
Qed.

Lemma built_route_walk g s p t :
  built g → bfs_dfs.route (base g) s p t → ∃ c, walk g s p t c.
Proof.
  intros Hbuilt. induction 1 as [|p v w _ [c IH] Hw].
  - eexists. apply walk_start.
  - rewrite built_neighbors in Hw by done.
    apply list_elem_of_fmap in Hw as ([w' e] & -> & He).
    eexists. by eapply walk_step.
Qed.

(** X12. On a graph built by [add_weighted_edge] without negative costs,
    uniform-cost search on the weighted adjacency and breadth-first search
    on the inherited unweighted adjacency answer the same queries: with
    enough fuel both return, they agree on success, and the cheapest path
    has at least as many nodes as the path of breadth-first search. *)
Theorem ucs_bfs_same_reach g start goal fuel :
  built g → nonnegative g →
  (search_fuel g ≤ fuel)%nat → (bfs_dfs.bfs_fuel (base g) ≤ fuel)%nat →
  ∃ ru rb,
    ucs.UniformCostSearch.search fuel g start goal = Some ru ∧
    bfs_dfs.TravelEthiopiaSearch._breadth_first_search fuel (base g) start goal
      = Some rb ∧
    ucs.success ru = bfs_dfs.success rb ∧
    (length (bfs_dfs.path rb) ≤ length (ucs.path ru))%nat.
Proof.
  intros Hbuilt Hnn Hfuel Hbfs.
  destruct (ucs_search_cases g start goal fuel Hnn Hfuel) as (ru & Hru & Hu).
  destruct (bfs_search_result (base g) start goal fuel Hbfs) as (rb & Hrb & Hb).
  exists ru, rb. split; [done|]. split; [done|].
  destruct Hu as [(-> & ? & ? & Hw & _)|[-> Hno]];
    destruct Hb as [(-> & ? & ? & Hr & Hmin)|(-> & -> & Hno')]; simpl.
  - split; [done|]. apply Hmin. by eapply built_walk_route.
  - exfalso. apply Hno'. rewrite <- !(built_dom g) by done. split_and!; [done..|].
    eexists. by eapply built_walk_route.
  - exfalso. apply Hno. rewrite !(built_dom g) by done. split_and!; [done..|].
    destruct (built_route_walk g _ _ _ Hbuilt Hr) as [c Hc]. by eexists _, _.
  - done.
Qed.

Lemma ucs_bfs_same_reach_witness :
  ∃ ru rb,
    ucs.UniformCostSearch.search 10 triangle "A" "C" = Some ru ∧
    bfs_dfs.TravelEthiopiaSearch._breadth_first_search 10 (base triangle) "A" "C"
      = Some rb ∧
    ucs.success ru = bfs_dfs.success rb ∧
    (length (bfs_dfs.path rb) ≤ length (ucs.path ru))%nat.
Proof.
  apply (ucs_bfs_same_reach triangle "A" "C" 10).
  - unfold triangle. repeat apply built_add. apply built_empty.
  - by_compute.
  - vm_compute. lia.
  - vm_compute. lia.
Defined.

(** ** Multi-goal search: the route that is returned *)

Section multigoal_route.
Import ucs ucs.MultiGoalUCS.

Context (fuel : nat) (g : WeightedGraph) (s : string).
Hypothesis Hnonneg : nonnegative g.
Hypothesis Hfuel : (search_fuel g ≤ fuel)%nat.

(** A node the route can reach from a start that the graph knows. *)
Local Abbreviation known_reachable x :=
  (s ∈ dom (weighted_adjacency g) ∧ (x : string) ∈ dom (weighted_adjacency g) ∧
   reachable g s x).

Lemma greedy_route unvisited current route cost order result :
  greedy fuel g unvisited current route cost order result →
  walk g s route current cost →
  current = default s (last order) →
  NoDup (order ++ unvisited) →
  (∀ x, x ∈ order → known_reachable x) →
  walk g s (complete_path result) (default s (last (visit_order result)))
    (multi_total_cost result) ∧
  (∀ x, x ∈ visit_order result → known_reachable x) ∧
  ∃ rest, visit_order result ++ rest ≡ₚ order ++ unvisited ∧
    (multi_success result = true ↔ rest = []) ∧
    (∀ x, x ∈ rest →
       ¬ (default s (last (visit_order result)) ∈ dom (weighted_adjacency g) ∧
          x ∈ dom (weighted_adjacency g) ∧
          reachable g (default s (last (visit_order result))) x)).
Proof.
  induction 1 as [current route cost order
                 |unvisited current route cost order Hne Hall
                 |unvisited current route cost order x r result Hx Hr Hs Hmin _ IH];
    intros Hwalk Hcur Hnd Hknown; simpl.
  - rewrite <- Hcur. split_and!; [done..|]. exists []. split_and!; [done..|].
    by intros x ?%not_elem_of_nil.
  - rewrite <- Hcur. split_and!; [done..|]. exists unvisited. split_and!; [done| |].
    + split; [done|]. intros ->. done.
    + intros x Hx. destruct (Hall x Hx) as (r & Hr & Hs).
      destruct (ucs_search_cases g current x fuel Hnonneg Hfuel)
        as (r' & Hr' & [(? & _)|[_ Hno]]); simplify_eq; [congruence|done].
  - destruct (ucs_search_cases g current x fuel Hnonneg Hfuel)
      as (r' & Hr' & [(_ & Hc & Hxd & Hw & _)|[-> _]]); simplify_eq.
    assert ((order ++ [x]) ++ remove x unvisited ≡ₚ order ++ unvisited) as Hperm.
    { rewrite <- app_assoc. f_equiv. simpl. symmetry.
      apply remove_Permutation; [|done]. by apply NoDup_app in Hnd as (_ & _ & ?). }
    destruct IH as (Hroute & Hvisited & rest & Hrest & Hsucc & Hleft).
    + by eapply walk_trans.
    + by rewrite last_snoc.
    + by rewrite Hperm.
    + intros y [Hy| ->%list_elem_of_singleton]%elem_of_app; [by apply Hknown|].
      split_and!; [|done|by eexists _, _; eapply walk_trans].
      destruct (last order) as [z|] eqn:Hlast; simpl in Hc; [|done].
      apply (Hknown z). apply last_Some in Hlast as [l' ->]. set_solver.
    + split_and!; [done..|]. exists rest. split_and!; [|done..].
      by rewrite Hrest.
Qed.

Lemma multi_goal_search_route set_order goals :
  set_iteration set_order →
  ∃ result, search set_order fuel g s goals = Some result ∧
    walk g s (complete_path result) (default s (last (visit_order result)))
      (multi_total_cost result) ∧
    (∀ x, x ∈ visit_order result → known_reachable x) ∧
    ∃ rest, visit_order result ++ rest ≡ₚ set_order goals ∧
      (multi_success result = true ↔ rest = []) ∧
      (∀ x, x ∈ rest →
         ¬ (default s (last (visit_order result)) ∈ dom (weighted_adjacency g) ∧
            x ∈ dom (weighted_adjacency g) ∧
            reachable g (default s (last (visit_order result))) x)).
Proof.
  intros Hiter. destruct (Hiter goals) as [Hnd Hel].
  assert (∀ c x, is_Some (UniformCostSearch.search fuel g c x)) as Htotal.
  { intros c x. destruct (ucs_search_result g c x fuel Hnonneg Hfuel) as (r & -> & _).
    by eexists. }
  destruct (loop_greedy fuel g (length (set_order goals)) (set_order goals)
              s [s] 0 [] Htotal (le_n _)) as (result & Hres & Hgreedy).
  exists result. split; [done|].
  apply (greedy_route _ _ _ _ _ _ Hgreedy); [apply walk_start|done..|].
  by intros x ?%not_elem_of_nil.
Qed.
End multigoal_route.

(** X13. On a weighted graph without negative costs, whatever the order of
    iteration of the goal set, the route of multi-goal search is genuine,
    also when the search fails part-way: [complete_path] is a walk from the
    start to the last goal visited (the start itself when none was), of cost
    [total_cost]; [visit_order] lists goals only, each once; the search
    succeeds exactly when every goal is in [visit_order]; and each goal left
    out cannot be reached from where the route ends. *)
Theorem multi_goal_route_is_walk set_order fuel g initial goals :
  ucs.set_iteration set_order → nonnegative g → (search_fuel g ≤ fuel)%nat →
  ∃ result final,
    ucs.MultiGoalUCS.search set_order fuel g initial goals = Some result ∧
    final = default initial (last (ucs.visit_order result)) ∧
    walk g initial (ucs.complete_path result) final (ucs.multi_total_cost result) ∧
    NoDup (ucs.visit_order result) ∧
    (∀ x, x ∈ ucs.visit_order result → x ∈ goals) ∧
    (ucs.multi_success result = true ↔
       ∀ x, x ∈ goals → x ∈ ucs.visit_order result) ∧
    (∀ x, x ∈ goals → x ∉ ucs.visit_order result →
       ¬ (final ∈ dom (weighted_adjacency g) ∧ x ∈ dom (weighted_adjacency g) ∧
          reachable g final x)).
Proof.
  intros Hiter Hnn Hfuel. destruct (Hiter goals) as [Hnd Hel].
  destruct (multi_goal_search_route fuel g initial Hnn Hfuel set_order goals Hiter)
    as (result & Hres & Hwalk & _ & rest & Hperm & Hsucc & Hleft).
  exists result, (default initial (last (ucs.visit_order result))).
  rewrite <- Hperm in Hnd. apply NoDup_app in Hnd as (Hnd1 & Hdisj & Hnd2).
  assert (∀ x, x ∈ goals ↔ x ∈ ucs.visit_order result ∨ x ∈ rest) as Hgoals.
  { intros x. rewrite <- Hel, <- Hperm. apply elem_of_app. }
  do 4 (split; [done|]). split_and!.
  - intros x Hx. apply Hgoals. by left.
  - rewrite Hsucc. split.
    + intros -> x [?|?%not_elem_of_nil]%Hgoals; done.
    + intros Hall. destruct rest as [|y rest]; [done|]. exfalso.
      apply (Hdisj y); [|by left]. apply Hall, Hgoals. right. by left.
  - intros x [?|Hx]%Hgoals Hnin; [done|]. by apply Hleft.
Qed.

Lemma multi_goal_route_is_walk_witness :
  ∃ result final,
    ucs.MultiGoalUCS.search ucs.forward_order 10 triangle "A" ["C"; "D"]
      = Some result ∧
    final = default "A" (last (ucs.visit_order result)) ∧
    walk triangle "A" (ucs.complete_path result) final
      (ucs.multi_total_cost result) ∧
    NoDup (ucs.visit_order result) ∧
    (∀ x, x ∈ ucs.visit_order result → x ∈ ["C"; "D"]) ∧
    (ucs.multi_success result = true ↔
       ∀ x, x ∈ ["C"; "D"] → x ∈ ucs.visit_order result) ∧
    (∀ x, x ∈ ["C"; "D"] → x ∉ ucs.visit_order result →
       ¬ (final ∈ dom (weighted_adjacency triangle) ∧
          x ∈ dom (weighted_adjacency triangle) ∧
          reachable triangle final x)).
Proof.
  apply (multi_goal_route_is_walk ucs.forward_order 10 triangle "A" ["C"; "D"]).
  - apply forward_order_iteration.
  - by_compute.
  - vm_compute. lia.
Defined.

(** X14. On a weighted graph with symmetric costs, none of them negative,
    the greedy order never costs multi-goal search a goal: whatever the
    order of iteration of the goal set, the search succeeds exactly when the
    start and every goal are keys of the weighted adjacency and every goal
    can be reached from the start. *)
Theorem multi_goal_succeeds_iff_reachable set_order fuel g initial goals :
  ucs.set_iteration set_order → symmetric_costs g → nonnegative g →
  (search_fuel g ≤ fuel)%nat →
  ∃ result,
    ucs.MultiGoalUCS.search set_order fuel g initial goals = Some result ∧
    (ucs.multi_success result = true ↔
       ∀ x, x ∈ goals →
         initial ∈ dom (weighted_adjacency g) ∧ x ∈ dom (weighted_adjacency g) ∧
         reachable g initial x).
Proof.
  intros Hiter Hsym Hnn Hfuel. destruct (Hiter goals) as [Hnd Hel].
  destruct (multi_goal_search_route fuel g initial Hnn Hfuel set_order goals Hiter)
    as (result & Hres & Hwalk & Hknown & rest & Hperm & Hsucc & Hleft).
  exists result. split; [done|].
  assert (∀ x, x ∈ goals ↔ x ∈ ucs.visit_order result ∨ x ∈ rest) as Hgoals.
  { intros x. rewrite <- Hel, <- Hperm. apply elem_of_app. }
  rewrite Hsucc. split.
  - intros -> x [?|?%not_elem_of_nil]%Hgoals; [|done]. by apply Hknown.
  - intros Hall. destruct rest as [|y rest]; [done|]. exfalso.
    destruct (Hall y) as (Hinit & Hy & q & c & Hq); [apply Hgoals; right; by left|].
    apply (Hleft y); [by left|].
    destruct (last (ucs.visit_order result)) as [z|] eqn:Hlast; simpl in *.
    + destruct (Hknown z) as (_ & Hz & pz & cz & Hpz).
      { apply last_Some in Hlast as [l' ->]. set_solver. }
      split_and!; [done..|].
      destruct (walk_reverse g _ _ _ _ Hsym Hpz) as [pz' Hpz'].
      eexists _, _. by eapply walk_trans.
    + split_and!; [done..|]. by eexists _, _.
Qed.

Lemma multi_goal_succeeds_iff_reachable_witness :
  ∃ result,
    ucs.MultiGoalUCS.search ucs.backward_order 10 line "S" ["B"; "A"] = Some result ∧
    (ucs.multi_success result = true ↔
       ∀ x, x ∈ ["B"; "A"] →
         "S" ∈ dom (weighted_adjacency line) ∧ x ∈ dom (weighted_adjacency line) ∧
         reachable line "S" x).
Proof.
  apply (multi_goal_succeeds_iff_reachable ucs.backward_order 10 line "S" ["B"; "A"]).
  - apply backward_order_iteration.
  - apply built_symmetric. unfold line. repeat apply built_add. apply built_empty.
  - by_compute.
  - vm_compute. lia.
Defined.

(** X15. With a single goal, multi-goal search is uniform-cost search: on a
    weighted graph without negative costs both return, with the same
    success; on a success the route is the path of uniform-cost search, the
    total cost is its cost and the goal is the one node visited; on a
    failure the route stays at the start, at cost 0, with nothing visited. *)
Theorem multi_goal_single_is_ucs set_order fuel g initial goal :
  ucs.set_iteration set_order → nonnegative g → (search_fuel g ≤ fuel)%nat →
  ∃ result r,
    ucs.MultiGoalUCS.search set_order fuel g initial [goal] = Some result ∧
    ucs.UniformCostSearch.search fuel g initial goal = Some r ∧
    ucs.multi_success result = ucs.success r ∧
    (ucs.success r = true →
       ucs.complete_path result = ucs.path r ∧
       ucs.multi_total_cost result = ucs.total_cost r ∧
       ucs.visit_order result = [goal]) ∧
    (ucs.success r = false →
       ucs.complete_path result = [initial] ∧
       ucs.multi_total_cost result = 0 ∧
       ucs.visit_order result = []).
Proof.
  intros Hiter Hnn Hfuel. destruct (Hiter [goal]) as [Hnd Hel].
  assert (set_order [goal] = [goal]) as Horder.
  { apply NoDup_singleton_inv; [done|]. intros x. rewrite Hel.
    apply list_elem_of_singleton. }
  destruct (ucs_search_cases g initial goal fuel Hnn Hfuel) as (r & Hr & Hcases).
  unfold ucs.MultiGoalUCS.search. rewrite Horder. simpl. rewrite Hr. simpl.
  destruct Hcases as [(Hs & _ & _ & Hwalk & _)|[-> _]].
  - rewrite Hs. simpl. unfold ucs.MultiGoalUCS.remove.
    rewrite filter_cons, decide_False by (by intros []). rewrite filter_nil.
    eexists _, r. split; [done|]. split; [done|]. simpl.
    split; [done|]. split; [|by rewrite Hs]. intros _. split_and!; [|lia|done].
    apply walk_head in Hwalk. destruct (ucs.path r) as [|x l]; [done|].
    simpl in *. by simplify_eq.
  - simpl. eexists _, _. split; [done|]. split; [done|]. simpl. done.
Qed.

Lemma multi_goal_single_is_ucs_witness :
  ∃ result r,
    ucs.MultiGoalUCS.search ucs.forward_order 10 triangle "A" ["C"] = Some result ∧
    ucs.UniformCostSearch.search 10 triangle "A" "C" = Some r ∧
    ucs.multi_success result = ucs.success r ∧
    (ucs.success r = true →
       ucs.complete_path result = ucs.path r ∧
       ucs.multi_total_cost result = ucs.total_cost r ∧
       ucs.visit_order result = ["C"]) ∧
    (ucs.success r = false →
       ucs.complete_path result = ["A"] ∧
       ucs.multi_total_cost result = 0 ∧
       ucs.visit_order result = []).
Proof.
  apply (multi_goal_single_is_ucs ucs.forward_order 10 triangle "A" "C").
  - apply forward_order_iteration.
  - by_compute.
  - vm_compute. lia.
Defined.

(** ** A* search under an admissible heuristic *)

Section potential.
Implicit Types (g_scores : gmap string Z) (l : list string).

Lemma potential_sum_insert_notin B g_scores l w t :
  w ∉ l → potential_sum B (<[w := t]> g_scores) l = potential_sum B g_scores l.
Proof.
  induction l as [|x l IH]; [done|]. intros [Hx Hl]%not_elem_of_cons. simpl.
  rewrite IH by done. unfold potential. by rewrite lookup_insert_ne.
Qed.

Lemma potential_sum_insert B g_scores l w t :
  NoDup l → w ∈ l →
  potential_sum B (<[w := t]> g_scores) l =
    potential_sum B g_scores l - potential B g_scores w + t.
Proof.
  induction 1 as [|x l Hx Hnd IH]; [by intros ?%not_elem_of_nil|].
  intros [->|Hw]%elem_of_cons; simpl.
  - rewrite potential_sum_insert_notin by done.
    unfold potential at 1. rewrite lookup_insert_eq. lia.
  - rewrite IH by done. unfold potential at 1.
    rewrite lookup_insert_ne by (by intros ->). fold (potential B g_scores x). lia.
Qed.

Lemma potential_sum_nonneg B g_scores l :
  0 ≤ B → (∀ w c, g_scores !! w = Some c → 0 ≤ c) → 0 ≤ potential_sum B g_scores l.
Proof.
  intros HB Hpos. induction l as [|x l IH]; simpl; [done|].
  unfold potential. destruct (g_scores !! x) as [c|] eqn:Hx; [|lia].
  specialize (Hpos _ _ Hx). lia.
Qed.

Lemma potential_sum_le B g_scores l :
  0 ≤ B → (∀ w c, g_scores !! w = Some c → c ≤ B + 1) →
  potential_sum B g_scores l ≤ Z.of_nat (length l) * (B + 1).
Proof.
  intros HB Hle. induction l as [|x l IH]; simpl; [lia|].
  unfold potential at 1. destruct (g_scores !! x) as [c|] eqn:Hx.
  - specialize (Hle _ _ Hx). lia.
  - lia.
Qed.
End potential.

Lemma costs_within_edge K g v w k :
  costs_within K g → (w, k) ∈ get_weighted_neighbors g v → 0 ≤ k ≤ K.
Proof.
  unfold costs_within, get_weighted_neighbors. intros [_ Hall] Hin.
  destruct (weighted_adjacency g !! v) as [l|] eqn:Hl; simpl in Hin.
  - apply Hall in Hl. rewrite Forall_forall in Hl. apply (Hl _ Hin).
  - by apply not_elem_of_nil in Hin.
Qed.

Lemma costs_within_nonnegative K g : costs_within K g → nonnegative g.
Proof.
  intros [_ Hall] v l Hl. apply Hall in Hl.
  eapply Forall_impl; [done|]. simpl. intros. lia.
Qed.

Lemma elem_of_all_nodes g v w k :
  (w, k) ∈ get_weighted_neighbors g v → w ∈ all_nodes g.
Proof.
  unfold get_weighted_neighbors, all_nodes. intros Hw.
  destruct (weighted_adjacency g !! v) as [l|] eqn:Hv; [|by apply not_elem_of_nil in Hw].
  apply elem_of_union. right.
  apply elem_of_union_list. exists (list_to_set l.*1). split.
  - apply list_elem_of_fmap. exists (v, l). split; [done|].
    by apply elem_of_map_to_list.
  - apply elem_of_list_to_set, list_elem_of_fmap. by exists (w, k).
Qed.

Lemma consistent_edge g heuristics v w k :
  consistent g heuristics → (w, k) ∈ get_weighted_neighbors g v →
  astar.AStarSearch.get_heuristic heuristics v
    ≤ k + astar.AStarSearch.get_heuristic heuristics w.
Proof.
  unfold consistent, get_weighted_neighbors. intros Hall Hin.
  destruct (weighted_adjacency g !! v) as [l|] eqn:Hl; simpl in Hin.
  - apply Hall in Hl. rewrite Forall_forall in Hl. apply (Hl _ Hin).
  - by apply not_elem_of_nil in Hin.
Qed.

(** A consistent heuristic is admissible for every goal. *)
Lemma consistent_admissible g heuristics goal :
  consistent g heuristics → admissible g heuristics goal.
Proof.
  intros Hcons v p c. induction 1 as [|p u c w k _ IH Hedge]; [lia|].
  pose proof (consistent_edge _ _ _ _ _ Hcons Hedge). lia.
Qed.

Section reopen_proofs.
Import astar astar.AStarSearch.

Context (g : WeightedGraph) (s goal : string) (heuristics : gmap string Z) (K : Z).
Hypothesis Hcosts : costs_within K g.
Hypothesis Hadm : admissible g heuristics goal.

Local Abbreviation h := (get_heuristic heuristics).
Local Abbreviation inv := (reopen_inv g h K s goal).
Local Abbreviation relax_inv := (reopen_relax_inv g h K s goal).

(** A walk from the start that goes on to the goal was overtaken by a
    queued element that is not dearer than it, heuristic included, or ends
    for now in a node whose score is at most its cost. *)
Lemma reopen_frontier pq g_scores p v c :
  inv pq g_scores → walk g s p v c →
  ∀ q d, walk g v q goal d →
  (∃ e, e ∈ pq ∧ entry_f e ≤ c + d + h goal) ∨
  (∃ cv, g_scores !! v = Some cv ∧ cv ≤ c).
Proof.
  intros Hinv. induction 1 as [|p v c w k Hwalk IH Hedge]; intros q d Hq.
  - right. apply (reopen_start _ _ _ _ _ _ _ Hinv).
  - pose proof (walk_trans _ _ _ _ _ _ _ _
                  (walk_step g v [v] v 0 w k (walk_start g v) Hedge) Hq) as Hvq.
    destruct (IH _ _ Hvq) as [(e & He & Hle)|(cv & Hv & Hle)].
    + left. exists e. split; [done|lia].
    + destruct (reopen_nodes _ _ _ _ _ _ _ Hinv _ _ Hv) as [(e & He & Hkey)|Hrel].
      * left. exists e. split; [done|].
        destruct (reopen_entries _ _ _ _ _ _ _ Hinv _ He) as (Hf & _).
        injection Hkey as Hnode Hg. rewrite Hf, Hnode, Hg.
        pose proof (Hadm _ _ _ Hvq). lia.
      * destruct (Hrel _ _ Hedge) as (cw & Hw & Hcw).
        right. exists cw. split; [done|lia].
Qed.

Lemma reopen_inv_initial :
  s ∈ dom (weighted_adjacency g) →
  inv [(h s, 0, O, s, [s])] {[s := 0]}.
Proof.
  intros Hs. destruct Hcosts as [HK _]. split.
  - intros e ->%list_elem_of_singleton. split_and!.
    + unfold entry_f, entry_g, entry_node. simpl. lia.
    + apply walk_start.
    + exists 0. by rewrite lookup_singleton_eq.
  - intros v c [-> <-]%lookup_singleton_Some. left.
    eexists. split; [by left|done].
  - intros c [-> <-]%lookup_singleton_Some. eexists. split; [by left|done].
  - exists 0. by rewrite lookup_singleton_eq.
  - intros w c [-> <-]%lookup_singleton_Some.
    rewrite dom_singleton_L, size_singleton. lia.
  - rewrite dom_singleton_L. unfold all_nodes. set_solver.
Qed.

(** What a popped element that is not stale tells. *)
Lemma reopen_popped pq g_scores f gv n v p pq' :
  inv pq g_scores →
  heappop entry_ltb pq = Some ((f, gv, n, v, p), pq') →
  stale g_scores v gv = false →
  g_scores !! v = Some gv ∧ walk g s p v gv ∧ f = gv + h v ∧
  ∀ e, e ∈ pq → f ≤ entry_f e.
Proof.
  intros Hinv Hpop Hstale.
  pose proof (λ x, heappop_elem_of _ _ _ _ x Hpop) as Hel.
  assert ((f, gv, n, v, p) ∈ pq) as Hin by (apply Hel; by left).
  destruct (reopen_entries _ _ _ _ _ _ _ Hinv _ Hin) as (Hf & Hwalk & c & Hc & Hle).
  change (f = gv + h v) in Hf. change (g_scores !! v = Some c) in Hc.
  change (c ≤ gv) in Hle. change (walk g s p v gv) in Hwalk.
  unfold stale in Hstale. rewrite Hc in Hstale.
  apply bool_decide_eq_false in Hstale.
  assert (c = gv) as -> by lia.
  split_and!; [done..|].
  intros e He.
  apply (heappop_least _ entry_f _ _ _
           astar_entry_ltb_true astar_entry_ltb_false Hpop e He).
Qed.

(** A stale element is dropped. *)
Lemma reopen_inv_skip pq g_scores e pq' c :
  inv pq g_scores →
  heappop entry_ltb pq = Some (e, pq') →
  g_scores !! entry_node e = Some c → c < entry_g e →
  inv pq' g_scores.
Proof.
  intros Hinv Hpop Hc Hlt.
  pose proof (λ x, heappop_elem_of _ _ _ _ x Hpop) as Hel.
  assert (∀ v cv e', g_scores !! v = Some cv → e' ∈ pq → astar_key e' = (v, cv) →
            e' ∈ pq') as Hkeep.
  { intros v cv e' Hv [->|He']%Hel Hkey; [|done].
    injection Hkey as Hnode Hg. rewrite Hnode in Hc. simplify_eq. lia. }
  destruct Hinv as [Hent Hnodes Hgoal Hstart Hbounds Hwithin]. split; try done.
  - intros e' He'. apply Hent, Hel. by right.
  - intros v cv Hv. destruct (Hnodes v cv Hv) as [(e' & He' & Hkey)|Hrel]; [|by right].
    left. exists e'. split; [by eapply Hkeep|done].
  - intros cv Hv. destruct (Hgoal cv Hv) as (e' & He' & Hkey).
    exists e'. split; [by eapply Hkeep|done].
Qed.

(** The expansion of a popped node starts from the loop invariant. *)
Lemma reopen_relax_begin pq g_scores f gv n v p pq' :
  inv pq g_scores →
  heappop entry_ltb pq = Some ((f, gv, n, v, p), pq') →
  stale g_scores v gv = false → v ≠ goal →
  relax_inv v gv p [] pq' g_scores.
Proof.
  intros Hinv Hpop Hstale Hne.
  pose proof (λ x, heappop_elem_of _ _ _ _ x Hpop) as Hel.
  destruct (reopen_popped _ _ _ _ _ _ _ _ Hinv Hpop Hstale) as (Hv & Hwalk & _ & _).
  assert (∀ u cu e', u ≠ v → e' ∈ pq → astar_key e' = (u, cu) → e' ∈ pq') as Hkeep.
  { intros u cu e' Hu [->|He']%Hel Hkey; [|done].
    injection Hkey as Hnode _. by destruct Hu. }
  destruct Hinv as [Hent Hnodes Hgoal Hstart Hbounds Hwithin]. split; try done.
  - intros e' He'. apply Hent, Hel. by right.
  - intros u c Hu Hc. destruct (Hnodes u c Hc) as [(e' & He' & Hkey)|Hrel]; [|by right].
    left. exists e'. split; [by eapply Hkeep|done].
  - by intros w k ?%not_elem_of_nil.
  - intros c Hc. destruct (Hgoal c Hc) as (e' & He' & Hkey).
    exists e'. split; [by eapply (Hkeep goal c)|done].
Qed.

(** A neighbour that does not improve on its score. *)
Lemma reopen_relax_keep v gv p done pq g_scores w k :
  relax_inv v gv p done pq g_scores →
  improves g_scores w (gv + k) = false →
  relax_inv v gv p (done ++ [(w, k)]) pq g_scores.
Proof.
  intros Hinv (c & Hc & Hle)%improves_false.
  destruct Hinv as [? ? ? Hdone ? ? ? ?]. split; try done.
  intros w' k' [?|[= -> ->]%list_elem_of_singleton]%elem_of_app; [by apply Hdone|].
  by exists c.
Qed.

(** A neighbour whose score improves is queued with its new score, and the
    push is paid for by the room the neighbour had left. *)
Lemma reopen_relax_push v gv p done pq g_scores w k n :
  relax_inv v gv p done pq g_scores →
  (w, k) ∈ get_weighted_neighbors g v →
  improves g_scores w (gv + k) = true →
  relax_inv v gv p (done ++ [(w, k)])
    (heappush pq (gv + k + h w, gv + k, n, w, p ++ [w]))
    (<[w := gv + k]> g_scores) ∧
  reopen_measure g K
    (heappush pq (gv + k + h w, gv + k, n, w, p ++ [w]))
    (<[w := gv + k]> g_scores) ≤ reopen_measure g K pq g_scores.
Proof.
  intros [Hent Hnodes Hcur Hdone Hgoal Hstart Hbounds Hwithin] Hedge Himp.
  rewrite improves_true in Himp.
  destruct (costs_within_edge _ _ _ _ _ Hcosts Hedge) as [Hk0 HkK].
  destruct Hcosts as [HK _].
  destruct Hcur as (Hv & Hwalk & Hvgoal).
  assert (w ≠ v) as Hwv.
  { intros ->. specialize (Himp _ Hv). lia. }
  assert (∀ c, g_scores !! w = Some c → gv + k ≤ c) as Hdown.
  { intros c Hc. specialize (Himp _ Hc). lia. }
  assert (w ∈ all_nodes g) as HwN by (by eapply elem_of_all_nodes).
  destruct (Hbounds _ _ Hv) as [Hgv0 HgvB].
  unfold heappush.
  set (new := (gv + k + h w, gv + k, n, w, p ++ [w]) : entry).
  assert (∀ x c, <[w := gv + k]> g_scores !! x = Some c →
            0 ≤ c ≤ (Z.of_nat (size (dom (<[w := gv + k]> g_scores))) - 1) * K)
    as Hbounds'.
  { intros x c. rewrite dom_insert_L.
    destruct (g_scores !! w) as [cw|] eqn:Hw.
    - assert ({[w]} ∪ dom g_scores = dom g_scores) as ->.
      { apply elem_of_dom_2 in Hw. set_solver. }
      destruct (decide (x = w)) as [->|Hne].
      + rewrite lookup_insert_eq. intros [= <-].
        destruct (Hbounds _ _ Hw). specialize (Himp _ eq_refl). lia.
      + rewrite lookup_insert_ne by done. apply Hbounds.
    - apply not_elem_of_dom in Hw.
      rewrite size_union by set_solver. rewrite size_singleton.
      destruct (decide (x = w)) as [->|Hne].
      + rewrite lookup_insert_eq. intros [= <-]. nia.
      + rewrite lookup_insert_ne by done. intros Hx.
        destruct (Hbounds _ _ Hx). nia. }
  assert (dom (<[w := gv + k]> g_scores) ⊆ all_nodes g) as Hwithin'.
  { rewrite dom_insert_L. set_solver. }
  split.
  - split; [| | | | | |done|done].
    + intros e [He| ->%list_elem_of_singleton]%elem_of_app.
      * destruct (Hent e He) as (Hf & Hwk & c & Hc & Hle).
        split_and!; [done..|].
        destruct (decide (entry_node e = w)) as [Heq|Hne].
        -- rewrite Heq in *. exists (gv + k). rewrite lookup_insert_eq.
           split; [done|]. specialize (Hdown _ Hc). lia.
        -- exists c. by rewrite lookup_insert_ne.
      * split_and!.
        -- done.
        -- by eapply walk_step.
        -- exists (gv + k). unfold new, entry_node, entry_g. simpl.
           by rewrite lookup_insert_eq.
    + intros u c Hu. destruct (decide (u = w)) as [->|Huw].
      * rewrite lookup_insert_eq. intros [= <-]. left.
        exists new. split; [|done]. apply elem_of_app. right. by left.
      * rewrite lookup_insert_ne by done. intros Hc.
        destruct (Hnodes u c Hu Hc) as [(e & He & Hkey)|Hrel].
        -- left. exists e. split; [|done]. apply elem_of_app. by left.
        -- right. intros x kx Hx. destruct (Hrel x kx Hx) as (cx & Hcx & Hle).
           destruct (decide (x = w)) as [->|Hxw].
           ++ exists (gv + k). rewrite lookup_insert_eq. split; [done|].
              specialize (Himp _ Hcx). lia.
           ++ exists cx. by rewrite lookup_insert_ne.
    + split_and!; [|done..]. by rewrite lookup_insert_ne.
    + intros x kx [Hx|[= -> ->]%list_elem_of_singleton]%elem_of_app.
      * destruct (Hdone x kx Hx) as (cx & Hcx & Hle).
        destruct (decide (x = w)) as [->|Hxw].
        -- exists (gv + k). rewrite lookup_insert_eq. split; [done|].
           specialize (Himp _ Hcx). lia.
        -- exists cx. by rewrite lookup_insert_ne.
      * exists (gv + k). rewrite lookup_insert_eq. split; [done|lia].
    + intros c. destruct (decide (goal = w)) as [->|Hgw].
      * rewrite lookup_insert_eq. intros [= <-].
        exists new. split; [|done]. apply elem_of_app. right. by left.
      * rewrite lookup_insert_ne by done. intros Hc.
        destruct (Hgoal c Hc) as (e & He & Hkey).
        exists e. split; [|done]. apply elem_of_app. by left.
    + destruct Hstart as (c & Hc & Hle). destruct (decide (s = w)) as [->|Hne].
      * exists (gv + k). rewrite lookup_insert_eq. split; [done|].
        specialize (Himp _ Hc). lia.
      * exists c. by rewrite lookup_insert_ne.
  - unfold reopen_measure. rewrite length_app. simpl.
    rewrite potential_sum_insert; [|apply NoDup_elements|by apply elem_of_elements].
    assert (gv + k + 1 ≤ potential (Z.of_nat (size (all_nodes g)) * K) g_scores w).
    { unfold potential. destruct (g_scores !! w) as [cw|] eqn:Hw.
      - specialize (Himp _ eq_refl). lia.
      - destruct (Hbounds' w (gv + k)) as [_ Hle]; [by rewrite lookup_insert_eq|].
        pose proof (subseteq_size _ _ Hwithin') as Hsize. nia. }
    lia.
Qed.

(** The whole [for] loop keeps the invariant of the expansion, and does not
    raise the measure. *)
Lemma reopen_relax_loop v gv p neighbors :
  ∀ done g_scores counter pq g_scores' counter' pq',
  relax_inv v gv p done pq g_scores →
  (∀ x, x ∈ neighbors → x ∈ get_weighted_neighbors g v) →
  relax heuristics neighbors gv p g_scores counter pq = (g_scores', counter', pq') →
  relax_inv v gv p (done ++ neighbors) pq' g_scores' ∧
  reopen_measure g K pq' g_scores' ≤ reopen_measure g K pq g_scores.
Proof.
  induction neighbors as [|[w k] neighbors IH];
    intros done g_scores counter pq g_scores' counter' pq' Hinv Hsub; simpl.
  { intros [= <- <- <-]. rewrite app_nil_r. split; [done|lia]. }
  assert ((w, k) ∈ get_weighted_neighbors g v) as Hedge by (apply Hsub; by left).
  assert (∀ x, x ∈ neighbors → x ∈ get_weighted_neighbors g v) as Hsub'.
  { intros x Hx. apply Hsub. by right. }
  destruct (improves g_scores w (gv + k)) eqn:Himp; intros Hrelax.
  - destruct (reopen_relax_push _ _ _ _ _ _ _ _ (S counter) Hinv Hedge Himp)
      as [Hnew Hm].
    destruct (IH _ _ _ _ _ _ _ Hnew Hsub' Hrelax) as [Hinv' Hm'].
    rewrite <-app_assoc in Hinv'. split; [done|lia].
  - pose proof (reopen_relax_keep _ _ _ _ _ _ _ _ Hinv Himp) as Hnew.
    destruct (IH _ _ _ _ _ _ _ Hnew Hsub' Hrelax) as [Hinv' Hm'].
    rewrite <-app_assoc in Hinv'. split; [done|lia].
Qed.

(** Once every neighbour is handled the loop invariant holds again. *)
Lemma reopen_relax_end v gv p pq g_scores :
  relax_inv v gv p (get_weighted_neighbors g v) pq g_scores →
  inv pq g_scores.
Proof.
  intros [Hent Hnodes Hcur Hdone Hgoal Hstart Hbounds Hwithin]. split; try done.
  intros u c Hc. destruct (decide (u = v)) as [->|Hne]; [|by apply Hnodes].
  destruct Hcur as (Hv & _). simplify_eq. right. apply Hdone.
Qed.

Lemma reopen_measure_nonneg pq g_scores :
  inv pq g_scores → 0 ≤ reopen_measure g K pq g_scores.
Proof.
  intros Hinv. destruct Hcosts as [HK _]. unfold reopen_measure.
  pose proof (potential_sum_nonneg (Z.of_nat (size (all_nodes g)) * K)
                g_scores (elements (all_nodes g))) as Hsum.
  assert (0 ≤ potential_sum (Z.of_nat (size (all_nodes g)) * K) g_scores
                (elements (all_nodes g))); [|lia].
  apply Hsum; [nia|]. intros w c Hw.
  by destruct (reopen_bounds _ _ _ _ _ _ _ Hinv _ _ Hw).
Qed.

(** With enough fuel the loop ends, and with the right result. *)
Lemma reopen_loop_correct fuel : ∀ pq g_scores counter,
  inv pq g_scores →
  reopen_measure g K pq g_scores < Z.of_nat fuel →
  ∃ r, loop fuel g heuristics goal pq g_scores counter = Some r ∧
       optimal_result g s goal (success r) (path r) (total_cost r).
Proof.
  induction fuel as [|fuel IH]; intros pq g_scores counter Hinv Hfuel.
  { pose proof (reopen_measure_nonneg _ _ Hinv). lia. }
  simpl. destruct (heappop entry_ltb pq) as [[[[[[f gv] n] v] p] pq']|] eqn:Hpop.
  - pose proof (heappop_length _ _ _ _ Hpop) as Hlen.
    assert (reopen_measure g K pq' g_scores = reopen_measure g K pq g_scores - 1)
      as Hpopped.
    { unfold reopen_measure. rewrite Hlen. lia. }
    destruct (stale g_scores v gv) eqn:Hstale.
    + unfold stale in Hstale.
      destruct (g_scores !! v) as [c|] eqn:Hc; [|done].
      apply bool_decide_eq_true in Hstale.
      apply IH; [|lia].
      by eapply (reopen_inv_skip _ _ (f, gv, n, v, p)).
    + destruct (reopen_popped _ _ _ _ _ _ _ _ Hinv Hpop Hstale)
        as (Hv & Hwalk & Hf & Hleast).
      case_bool_decide as Hgoal.
      * subst v. eexists. split; [done|]. left. simpl.
        split_and!; [done..|]. intros p' c' Hwalk'.
        destruct (reopen_frontier _ _ _ _ _ Hinv Hwalk' _ _ (walk_start g goal))
          as [(e & He & Hle)|(ct & Hct & Hle)].
        -- specialize (Hleast _ He). lia.
        -- simplify_eq. lia.
      * destruct (relax _ _ _ _ _ _ _) as [[g_scores' counter'] pq''] eqn:Hrelax.
        pose proof (reopen_relax_begin _ _ _ _ _ _ _ _ Hinv Hpop Hstale Hgoal)
          as Hbegin.
        eapply reopen_relax_loop in Hrelax as [Hend Hm]; [|done..].
        apply IH; [by eapply reopen_relax_end|lia].
  - apply heappop_None in Hpop as ->.
    eexists. split; [done|]. right. split_and!; [done..|].
    intros (p & c & Hwalk).
    destruct (reopen_frontier _ _ _ _ _ Hinv Hwalk _ _ (walk_start g goal))
      as [(e & He & _)|(ct & Hct & _)].
    + by apply not_elem_of_nil in He.
    + destruct (reopen_goal _ _ _ _ _ _ _ Hinv _ Hct) as (e & He & _).
      by apply not_elem_of_nil in He.
Qed.
End reopen_proofs.

(** What [AStarSearch.search] returns under an admissible heuristic, with
    enough fuel. *)
Lemma astar_admissible_result g heuristics start goal K fuel :
  costs_within K g → admissible g heuristics goal → (reopen_fuel g K ≤ fuel)%nat →
  ∃ r, astar.AStarSearch.search fuel g heuristics start goal = Some r ∧
    (r = astar.failure ∧
       (start ∉ dom (weighted_adjacency g) ∨ goal ∉ dom (weighted_adjacency g)) ∨
     optimal_result g start goal (astar.success r) (astar.path r) (astar.total_cost r)).
Proof.
  intros Hcosts Hadm Hfuel. unfold astar.AStarSearch.search.
  case_bool_decide as Hstart; [eexists; split; [done|left; eauto]|].
  case_bool_decide as Hgoal; [eexists; split; [done|left; eauto]|].
  try apply dec_stable in Hstart.
  case_bool_decide as Heq.
  - subst goal. eexists. split; [done|]. right. left. simpl.
    split_and!; [done|apply walk_start|]. intros p c.
    apply walk_nonneg. by eapply costs_within_nonnegative.
  - destruct (reopen_loop_correct g start goal heuristics K Hcosts Hadm fuel
                [(astar.AStarSearch.get_heuristic heuristics start, 0, O, start, [start])]
                {[start := 0]} O) as (r & Hr & Hopt).
    + by apply reopen_inv_initial.
    + destruct Hcosts as [HK _]. unfold reopen_measure, reopen_fuel in *. simpl.
      set (n := Z.of_nat (size (all_nodes g))) in *.
      assert (0 ≤ n) as Hn by lia.
      pose proof (potential_sum_le (n * K) {[start := 0]} (elements (all_nodes g)))
        as Hsum.
      assert (potential_sum (n * K) {[start := 0]} (elements (all_nodes g))
                ≤ n * (n * K + 1)) as Hle.
      { apply Hsum; [nia|]. intros w c [_ <-]%lookup_singleton_Some. nia. }
      revert Hfuel Hle. generalize (n * (n * K + 1)).
      generalize (potential_sum (n * K) {[start := 0]} (elements (all_nodes g))).
      intros. lia.
    + exists r. split; [done|by right].
Qed.

(** X16. A* returns a cheapest path under every admissible heuristic, also
    one that is not consistent: the loop expands a node again when its score
    has improved. On a graph whose costs lie between 0 and [K], with a
    heuristic that exceeds its value at the goal by no more than the cost of
    any walk to the goal, and with [reopen_fuel g K] fuel or more, the
    search returns; it succeeds exactly when both nodes are keys of the
    weighted adjacency and the goal can be reached; the path of a success is
    a walk from the start to the goal whose cost is [total_cost], and no
    walk between them costs less. *)
Theorem astar_admissible_optimal g heuristics start goal K fuel :
  costs_within K g → admissible g heuristics goal → (reopen_fuel g K ≤ fuel)%nat →
  ∃ r, astar.AStarSearch.search fuel g heuristics start goal = Some r ∧
    (astar.success r = true ↔
       start ∈ dom (weighted_adjacency g) ∧ goal ∈ dom (weighted_adjacency g) ∧
       reachable g start goal) ∧
    (astar.success r = true →
       walk g start (astar.path r) goal (astar.total_cost r) ∧
       ∀ p c, walk g start p goal c → astar.total_cost r ≤ c) ∧
    (astar.success r = false → astar.path r = []).
Proof.
  intros Hcosts Hadm Hfuel.
  destruct (astar_admissible_result g heuristics start goal K fuel Hcosts Hadm Hfuel)
    as (r & Hr & Hcases).
  exists r. split; [done|]. revert Hr Hcases.
  unfold astar.AStarSearch.search.
  case_bool_decide as Hs; [intros [= <-] _; simpl; split_and!; [|done..]; naive_solver|].
  case_bool_decide as Ht; [intros [= <-] _; simpl; split_and!; [|done..]; naive_solver|].
  try apply dec_stable in Hs. try apply dec_stable in Ht.
  intros _ [[_ [?|?]]|[(-> & Hwalk & Hmin)|(-> & -> & Hno)]]; [done..| |].
  - split_and!; [|done..]. split; [|done]. intros _. split_and!; [done..|].
    by eexists _, _.
  - split_and!; [|done..]. split; [done|]. naive_solver.
Qed.

Lemma steep_heuristics_admissible : admissible line steep_heuristics "B".
Proof.
  assert (nonnegative line) as Hnn by by_compute.
  assert (search_fuel line ≤ 10)%nat as Hfuel by (vm_compute; lia).
  intros v p c Hwalk. unfold astar.AStarSearch.get_heuristic, steep_heuristics.
  rewrite (lookup_singleton_ne "S" "B") by done. simpl.
  destruct (decide (v = "S")) as [->|Hne].
  - rewrite lookup_singleton_eq. simpl.
    destruct (ucs_search_success_shortest line 10 "S" "B"
                (ucs.mkUCSResult ["S"; "A"; "B"] 3 true) Hnn Hfuel) as [_ Hmin];
      [by vm_compute..|].
    specialize (Hmin _ _ Hwalk). simpl in Hmin. lia.
  - rewrite lookup_singleton_ne by done. simpl.
    pose proof (walk_nonneg _ _ _ _ _ Hnn Hwalk). lia.
Defined.

Lemma astar_admissible_optimal_witness :
  ∃ r, astar.AStarSearch.search 23 line steep_heuristics "S" "B" = Some r ∧
    (astar.success r = true ↔
       "S" ∈ dom (weighted_adjacency line) ∧ "B" ∈ dom (weighted_adjacency line) ∧
       reachable line "S" "B") ∧
    (astar.success r = true →
       walk line "S" (astar.path r) "B" (astar.total_cost r) ∧
       ∀ p c, walk line "S" p "B" c → astar.total_cost r ≤ c) ∧
    (astar.success r = false → astar.path r = []).
Proof.
  apply (astar_admissible_optimal line steep_heuristics "S" "B" 2 23).
  - by_compute.
  - apply steep_heuristics_admissible.
  - vm_compute. lia.
Defined.

(** X17. A heuristic that drops by no more than the cost along every stored
    edge, which a finite check of the edges decides, is admissible for every
    goal; under it A* and uniform-cost search answer alike for every start
    and every goal: on a graph whose costs lie between 0 and [K], with
    enough fuel for both loops, both return, they agree on success, and on
    a success they report the same total cost. *)
Theorem astar_consistent_is_ucs g heuristics K fuel start goal :
  costs_within K g → consistent g heuristics →
  (search_fuel g ≤ fuel)%nat → (reopen_fuel g K ≤ fuel)%nat →
  admissible g heuristics goal ∧
  ∃ ru ra,
    ucs.UniformCostSearch.search fuel g start goal = Some ru ∧
    astar.AStarSearch.search fuel g heuristics start goal = Some ra ∧
    astar.success ra = ucs.success ru ∧
    (ucs.success ru = true → astar.total_cost ra = ucs.total_cost ru).
Proof.
  intros Hcosts Hcons Hfuel Hfuel'.
  pose proof (consistent_admissible g heuristics goal Hcons) as Hadm.
  split; [done|].
  pose proof (costs_within_nonnegative K g Hcosts) as Hnn.
  destruct (ucs_search_result g start goal fuel Hnn Hfuel) as (ru & Hru & Hu).
  destruct (astar_admissible_result g heuristics start goal K fuel Hcosts Hadm Hfuel')
    as (ra & Hra & Ha).
  exists ru, ra. split_and!; [done..| |].
  - destruct Hu as [[-> Hu]|Hu], Ha as [[-> Ha]|Ha]; try done.
    + unfold ucs.UniformCostSearch.search in Hru. unfold astar.AStarSearch.search in Hra.
      repeat case_bool_decide; simplify_eq; try done; naive_solver.
    + unfold ucs.UniformCostSearch.search in Hru. unfold astar.AStarSearch.search in Hra.
      repeat case_bool_decide; simplify_eq; try done; naive_solver.
    + symmetry. by eapply optimal_result_agree.
  - destruct Hu as [[-> Hu]|Hu], Ha as [[-> Ha]|Ha]; try done.
    + unfold ucs.UniformCostSearch.search in Hru. unfold astar.AStarSearch.search in Hra.
      repeat case_bool_decide; simplify_eq; try done; naive_solver.
    + intros Hs. symmetry. by eapply optimal_result_agree.
Qed.

Lemma astar_consistent_is_ucs_witness :
  admissible triangle descending_heuristics "C" ∧
  ∃ ru ra,
    ucs.UniformCostSearch.search 86 triangle "A" "C" = Some ru ∧
    astar.AStarSearch.search 86 triangle descending_heuristics "A" "C" = Some ra ∧
    astar.success ra = ucs.success ru ∧
    (ucs.success ru = true → astar.total_cost ra = ucs.total_cost ru).
Proof.
  apply (astar_consistent_is_ucs triangle descending_heuristics 5 86 "A" "C").
  - by_compute.
  - by_compute.
  - vm_compute. lia.
  - vm_compute. lia.
Defined.

Example steep_heuristics_not_consistent : ¬ consistent line steep_heuristics.
Proof. by_compute. Qed.

(** Under the steep heuristic A* pops B at cost 3 after expanding S and A. *)
Example astar_line_steep :
  astar.AStarSearch.search 23 line steep_heuristics "S" "B"
    = Some (astar.mkAStarResult ["S"; "A"; "B"] 3 true).
Proof. vm_compute. reflexivity. Qed.

(** ** MiniMax: the path, the adversary's view, and the counter *)

Section minimax_extra.
Import minimax minimax.MiniMax.

Lemma fold_left_best_step_elem ltb rs init :
  fold_left (best_step ltb) rs init = init ∨ fold_left (best_step ltb) rs init ∈ rs.
Proof.
  revert init. induction rs as [|r rs IH]; intros init; simpl; [by left|].
  destruct (IH (best_step ltb init r)) as [Heq|Hin]; [|right; by right].
  rewrite Heq. unfold best_step. destruct (ltb _ _); [right; left|by left].
Qed.

Lemma principal_values v node p t :
  principal v node p t → backward_induction node = v ∧ backward_induction t = v.
Proof. induction 1; naive_solver. Qed.

Lemma principal_head v node p t :
  principal v node p t → head p = Some (name node).
Proof. by destruct 1. Qed.

Lemma principal_last v node p t :
  principal v node p t → last p = Some (name t).
Proof.
  induction 1 as [|node c p t _ _ _ Hp IH]; [done|].
  destruct p; [by inversion Hp|]. done.
Qed.

(** The path [_minimax] returns goes down a line of equal values, and it
    stops at a terminal node or at a node no child of which beats the value
    its loop starts from. *)
Lemma _minimax_principal node : ∀ path,
  ∃ p t, (_minimax node path).2 = path ++ p ∧
    principal (backward_induction node) node p t ∧
    (utility t = None → backward_induction node = initial_value (player t)).
Proof.
  induction node as [n pl cs u IH] using GameNode_children_ind. intros path.
  destruct u as [u|].
  { exists [n], (mkGameNode n pl cs (Some u)). split_and!; [done| |done].
    by apply principal_end. }
  pose proof (_minimax_value (mkGameNode n pl cs None) path) as Hvalue.
  set (node := mkGameNode n pl cs None) in *.
  assert (∀ ltb init,
    _minimax node path =
      fold_left (best_step ltb) (map (λ c, _minimax c (path ++ [n])) cs) init →
    init = (initial_value pl, path ++ [n]) →
    ∃ p t, (_minimax node path).2 = path ++ p ∧
      principal (backward_induction node) node p t ∧
      (utility t = None → backward_induction node = initial_value (player t)))
    as Hstep.
  { intros ltb init Hfold ->.
    destruct (fold_left_best_step_elem ltb
                (map (λ c, _minimax c (path ++ [n])) cs)
                (initial_value pl, path ++ [n])) as [Heq|Hin];
      rewrite <- Hfold in *.
    - exists [n], node. rewrite Heq in Hvalue. rewrite Heq. simpl in *.
      split_and!; [done|by apply principal_end|done].
    - apply list_elem_of_fmap in Hin as (c & Hc & Hin).
      rewrite Forall_forall in IH.
      destruct (IH c Hin (path ++ [n])) as (p & t & Hpath & Hprin & Hend).
      pose proof (_minimax_value c (path ++ [n])) as Hvc.
      rewrite <- Hc, Hvalue in Hvc.
      exists (n :: p), t. rewrite Hc, Hpath, <- app_assoc, Hvc.
      split_and!; [done| |done].
      apply (principal_step _ node c); [done..|by rewrite Hvc|done]. }
  destruct pl.
  - apply (Hstep value_ltb (NegInf, path ++ [n])); [apply _minimax_MAX|done].
  - apply (Hstep value_gtb (PosInf, path ++ [n])); [apply _minimax_MIN|done].
Qed.

Lemma search_unfold root :
  search root = mkMiniMaxResult (_minimax root []).1 (_minimax root []).2.
Proof. unfold search. by destruct (_minimax root []). Qed.

(** *** The adversary's view *)

Lemma negate_ltb a b : value_ltb (negate a) (negate b) = value_ltb b a.
Proof.
  destruct a, b; simpl; try done.
  apply bool_decide_ext. lia.
Qed.

Lemma fold_left_mirror (f f' : GameNode → value * list string) cs :
  ∀ init ltb ltb',
  (∀ a b, ltb' (negate a) (negate b) = ltb a b) →
  Forall (λ c, f' c = (negate (f c).1, (f c).2)) cs →
  fold_left (λ best c, best_step ltb' best (f' c)) cs (negate init.1, init.2) =
    (negate (fold_left (λ best c, best_step ltb best (f c)) cs init).1,
     (fold_left (λ best c, best_step ltb best (f c)) cs init).2).
Proof.
  intros init ltb ltb' Hltb. revert init.
  induction cs as [|c cs IH]; intros init Hall; simpl; [done|].
  apply Forall_cons in Hall as [Hc Hall].
  rewrite <- (IH (best_step ltb init (f c)) Hall). f_equal.
  unfold best_step. rewrite Hc. simpl. rewrite Hltb. by destruct (ltb _ _).
Qed.

Lemma _minimax_mirror node : ∀ path,
  _minimax (mirror node) path = (negate (_minimax node path).1, (_minimax node path).2).
Proof.
  induction node as [n pl cs u IH] using GameNode_children_ind. intros path.
  destruct u as [u|]; [done|].
  assert (Forall (λ c, _minimax (mirror c) (path ++ [n]) =
                       (negate (_minimax c (path ++ [n])).1,
                        (_minimax c (path ++ [n])).2)) cs) as Hall.
  { eapply Forall_impl; [exact IH|]. intros c Hc. apply Hc. }
  destruct pl; simpl.
  - rewrite <- (fold_left_fmap mirror
                  (λ best c, min_step best (_minimax c (path ++ [n])))).
    apply (fold_left_mirror (λ c, _minimax c (path ++ [n]))
             (λ c, _minimax (mirror c) (path ++ [n])) cs
             (NegInf, path ++ [n]) value_ltb value_gtb); [|done].
    intros a b. apply negate_ltb.
  - rewrite <- (fold_left_fmap mirror
                  (λ best c, max_step best (_minimax c (path ++ [n])))).
    apply (fold_left_mirror (λ c, _minimax c (path ++ [n]))
             (λ c, _minimax (mirror c) (path ++ [n])) cs
             (PosInf, path ++ [n]) value_gtb value_ltb); [|done].
    intros a b. unfold value_gtb. apply negate_ltb.
Qed.

(** *** The counter *)

Lemma fold_left_evaluated (step : value * list string → value * list string →
                                  value * list string) path cs :
  ∀ best n,
  Forall (λ c, ∀ q m,
    (_minimax_evaluated c q m).1 = _minimax c q ∧
    ((_minimax_evaluated c q m).2 ≤ m + tree_size c)%nat ∧
    (m < (_minimax_evaluated c q m).2)%nat ∧
    (terminals_childless c = true →
       (_minimax_evaluated c q m).2 = (m + tree_size c)%nat)) cs →
  let r := fold_left
             (λ acc child,
                (step acc.1 (_minimax_evaluated child path acc.2).1,
                 (_minimax_evaluated child path acc.2).2))
             cs (best, n) in
  let size := foldr (λ c acc, (tree_size c + acc)%nat) O cs in
  r.1 = fold_left (λ best child, step best (_minimax child path)) cs best ∧
  (r.2 ≤ n + size)%nat ∧ (n ≤ r.2)%nat ∧
  (forallb terminals_childless cs = true → r.2 = (n + size)%nat).
Proof.
  induction cs as [|c cs IH]; intros best n Hall; simpl.
  { split_and!; [done|lia|lia|intros _; lia]. }
  apply Forall_cons in Hall as [Hc Hall].
  destruct (Hc path n) as (Hres & Hle & Hlt & Heq).
  destruct (IH (step best (_minimax_evaluated c path n).1)
               (_minimax_evaluated c path n).2 Hall) as (IH1 & IH2 & IH3 & IH4).
  simpl in *. rewrite Hres in *. split_and!; [done|lia|lia|].
  intros [Hc' Hcs]%andb_prop. rewrite (IH4 Hcs), (Heq Hc'). lia.
Qed.

Lemma _minimax_evaluated_spec node : ∀ path n,
  (_minimax_evaluated node path n).1 = _minimax node path ∧
  ((_minimax_evaluated node path n).2 ≤ n + tree_size node)%nat ∧
  (n < (_minimax_evaluated node path n).2)%nat ∧
  (terminals_childless node = true →
     (_minimax_evaluated node path n).2 = (n + tree_size node)%nat).
Proof.
  induction node as [nm pl cs u IH] using GameNode_children_ind. intros path n.
  destruct u as [u|].
  { simpl. split_and!; [done|lia|lia|]. destruct cs; [simpl; lia|done]. }
  destruct pl.
  - destruct (fold_left_evaluated max_step (path ++ [nm]) cs
                (NegInf, path ++ [nm]) (S n) IH) as (H1 & H2 & H3 & H4).
    simpl in *. split_and!; [done|lia|lia|].
    intros Hcs. rewrite (H4 Hcs). lia.
  - destruct (fold_left_evaluated min_step (path ++ [nm]) cs
                (PosInf, path ++ [nm]) (S n) IH) as (H1 & H2 & H3 & H4).
    simpl in *. split_and!; [done|lia|lia|].
    intros Hcs. rewrite (H4 Hcs). lia.
Qed.
End minimax_extra.

Section minimax_order.
Import minimax minimax.MiniMax.

Lemma pick_swap ltb a1 a2 b :
  (∀ a, ltb a a = false) →
  (∀ a b c, ltb a b = true → ltb b c = true → ltb a c = true) →
  (∀ a b, ltb a b = false → ltb b a = false → a = b) →
  pick ltb a1 (pick ltb a2 b) = pick ltb a2 (pick ltb a1 b).
Proof.
  intros Hirr Htrans Htotal.
  assert (∀ x y, ltb x b = true → ltb y b = false → ltb x y = true) as Hbelow.
  { intros x y Hx Hy. destruct (ltb x y) eqn:Hxy; [done|].
    destruct (ltb y x) eqn:Hyx.
    - by rewrite (Htrans _ _ _ Hyx Hx) in Hy.
    - rewrite (Htotal _ _ Hxy Hyx) in Hx. congruence. }
  unfold pick.
  destruct (ltb a2 b) eqn:H2b, (ltb a1 b) eqn:H1b;
    rewrite ?H2b, ?H1b; try done.
  - by rewrite (Hbelow a2 a1).
  - by rewrite (Hbelow a1 a2).
  - destruct (ltb a1 a2) eqn:H12, (ltb a2 a1) eqn:H21; try done.
    + pose proof (Htrans _ _ _ H12 H21) as Hcyc. by rewrite Hirr in Hcyc.
    + symmetry. by apply Htotal.
Qed.

Lemma backward_induction_shuffle reorder node :
  rearrangement reorder →
  backward_induction (shuffle reorder node) = backward_induction node.
Proof.
  intros Hperm.
  induction node as [n pl cs u IH] using GameNode_children_ind.
  destruct u as [u|]; [done|]. simpl.
  assert (map backward_induction (reorder (map (shuffle reorder) cs))
            ≡ₚ map backward_induction cs) as Hmap.
  { rewrite (Hperm _). rewrite <- list_fmap_compose.
    erewrite (Forall_fmap_ext_1 _ backward_induction); [done|].
    eapply Forall_impl; [exact IH|]. by intros c Hc. }
  destruct pl.
  - apply (foldr_permutation (=) value_max NegInf); [|done].
    intros j1 a1 j2 a2 b _ _ _. apply pick_swap;
      [apply value_ltb_irrefl|apply value_ltb_trans|apply value_ltb_total].
  - apply (foldr_permutation (=) value_min PosInf); [|done].
    intros j1 a1 j2 a2 b _ _ _. apply pick_swap;
      [apply value_gtb_irrefl|apply value_gtb_trans|apply value_gtb_total].
Qed.
End minimax_order.

(** X18. The path MiniMax returns is a principal variation: it goes from the
    root down the tree child by child, every node on it has the value that
    is returned, and it ends at a node [t] that settles this value: a
    terminal node whose utility is the value, or a node without utility no
    child of which beats the value its loop starts from. In a tree whose
    leaves are all terminal it ends at a terminal node. *)
Theorem minimax_principal_variation root :
  ∃ t,
    principal (minimax.best_value (minimax.MiniMax.search root)) root
      (minimax.best_path (minimax.MiniMax.search root)) t ∧
    head (minimax.best_path (minimax.MiniMax.search root))
      = Some (minimax.name root) ∧
    last (minimax.best_path (minimax.MiniMax.search root))
      = Some (minimax.name t) ∧
    (∀ u, minimax.utility t = Some u →
       minimax.best_value (minimax.MiniMax.search root) = minimax.Fin u) ∧
    (minimax.utility t = None →
       minimax.best_value (minimax.MiniMax.search root)
         = initial_value (minimax.player t)) ∧
    (minimax.leaves_terminal root = true → minimax.is_terminal t = true).
Proof.
  destruct (_minimax_principal root []) as (p & t & Hpath & Hprin & Hend).
  pose proof (_minimax_value root []) as Hvalue.
  rewrite search_unfold. simpl. rewrite Hvalue, Hpath. simpl.
  destruct (principal_values _ _ _ _ Hprin) as [_ Ht].
  exists t. split_and!; [done|by eapply principal_head|by eapply principal_last| |done|].
  - intros u Hu. rewrite <- Ht. destruct t as [? ? ? ut]. simpl in *. by subst ut.
  - intros [z Hz]%leaves_terminal_Fin. unfold minimax.is_terminal.
    destruct (minimax.utility t) eqn:Hu; [done|].
    rewrite (Hend eq_refl) in Hz. by destruct (minimax.player t).
Qed.

(** X19. MiniMax treats the two players alike. In the game seen by the
    adversary, with MAX and MIN swapped at every node and every utility
    negated, the search returns the negated value and the same path: the
    loop of a MIN node is the loop of a MAX node turned round, ties
    included. *)
Theorem minimax_duality root :
  minimax.MiniMax.search (mirror root) =
    minimax.mkMiniMaxResult
      (negate (minimax.best_value (minimax.MiniMax.search root)))
      (minimax.best_path (minimax.MiniMax.search root)).
Proof. rewrite !search_unfold. simpl. by rewrite _minimax_mirror. Qed.

(** X20. MiniMax never prunes, and counting does not change what it finds.
    After [search] the counter [nodes_evaluated], reset to 0 at the start
    whatever it held, is at least 1 and at most the number of nodes of the
    tree; it is exactly that number when no terminal node has children
    (the children of a terminal node are never looked at); and the result
    is the one the search returns without the counter. *)
Theorem minimax_evaluates_every_node root before :
  (search_evaluated root before).1 = minimax.MiniMax.search root ∧
  (1 ≤ (search_evaluated root before).2 ≤ tree_size root)%nat ∧
  (terminals_childless root = true →
     (search_evaluated root before).2 = tree_size root).
Proof.
  destruct (_minimax_evaluated_spec root [] O) as (Hres & Hle & Hlt & Heq).
  unfold search_evaluated. rewrite search_unfold. simpl in *.
  rewrite Hres. split_and!; [done|lia|lia|done].
Qed.

Example ethiopia_adversarial_game_evaluated :
  (search_evaluated minimax.ethiopia_adversarial_game 7).2 = 23%nat ∧
  (search_evaluated (mirror minimax.ethiopia_adversarial_game) 0).1
    = minimax.mkMiniMaxResult (minimax.Fin (-8))
        ["Addis Ababa"; "Gedo"; "Gimbi-Limu"; "Gimbi"].
Proof. split; vm_compute; reflexivity. Qed.

(** X21. The value MiniMax returns does not depend on the order of the
    children: for every rearrangement of the children, applied at every node
    of the tree, the search returns the same best value. Only the path can
    change, where several children share the best value. *)
Theorem minimax_value_order_independent reorder root :
  rearrangement reorder →
  minimax.best_value (minimax.MiniMax.search (shuffle reorder root))
    = minimax.best_value (minimax.MiniMax.search root).
Proof.
  intros Hperm. rewrite !search_unfold. simpl.
  rewrite !_minimax_value. by apply backward_induction_shuffle.
Qed.

Lemma minimax_value_order_independent_witness :
  minimax.best_value
    (minimax.MiniMax.search (shuffle reverse minimax.ethiopia_adversarial_game))
    = minimax.best_value (minimax.MiniMax.search minimax.ethiopia_adversarial_game).
Proof.
  apply (minimax_value_order_independent reverse).
  intros l. apply reverse_Permutation.
Defined.

(** The path does change: with the children reversed the search ends at
    Limu, the other leaf of utility 8. *)
Example ethiopia_adversarial_game_reversed :
  minimax.MiniMax.search (shuffle reverse minimax.ethiopia_adversarial_game)
    = minimax.mkMiniMaxResult (minimax.Fin 8)
        ["Addis Ababa"; "Gedo"; "Gimbi-Limu"; "Limu"].
Proof. vm_compute. reflexivity. Qed.
